(** * crawl_docs_for_retrieval: the crawl control plane, embedded and verified

    A shallow embedding of the pure and state-passing parts of the crawler
    (URL normalisation and scoping, the frontier queue, the per-domain
    throttle, the robots delay resolution, the tab merge and the output path
    layout), followed by the properties the specification states about them.

    Conventions of the embedding.
    - A Python [str] is a [list ascii]: the model covers the strings whose
      code points are below 256, with [str.lower], [str.strip] and UTF-8
      encoding written out for that range.
    - A call that can raise returns a [result]; [None] is [option].
    - The library functions the code calls ([urllib.parse], [posixpath],
      [urllib.robotparser], [hashlib.md5]) are modelled after CPython 3.11.
      The textual validation of a bracketed IP literal inside a network
      location ([ipaddress.ip_address]) is not modelled: every balanced
      bracketed host is parsed.
    - A Python [float] is a binary64 number with the arithmetic of IEEE 754
      as the Standard Library specifies it: rounding, infinities and nans
      are those of the code.
    - [random.random], [time.monotonic], the HTTP client and the file
      system are inputs of the functions that consult them. *)

From Stdlib Require Import Ascii String ZArith NArith Lia List Sorted SpecFloat.
From stdpp Require Import gmap strings list sorting.

Set Default Proof Using "Type".

(* ===================================================================== *)
(** * Definitions *)
(* ===================================================================== *)

(** ** Python strings *)

Module pystr.

Definition str := list ascii.

Definition lit (s : string) : str := list_ascii_of_string s.
Arguments lit _%_string.

Definition ord (c : ascii) : N := N_of_ascii c.
Definition chr (n : N) : ascii := ascii_of_N n.

Definition in_range (lo hi : N) (c : ascii) : bool :=
  ((lo <=? ord c) && (ord c <=? hi))%N.

Definition is_upper (c : ascii) : bool := in_range 65 90 c.
Definition is_lower (c : ascii) : bool := in_range 97 122 c.
Definition is_digit (c : ascii) : bool := in_range 48 57 c.
Definition is_ascii_alpha (c : ascii) : bool := is_upper c || is_lower c.

(** [str.lower] on one code point below 256: A-Z and the Latin-1 capitals
    (all of 192..222 but the multiplication sign 215) move up by 32. *)
Definition lower_char (c : ascii) : ascii :=
  if is_upper c || (in_range 192 222 c && negb (ord c =? 215)%N)
  then chr (ord c + 32) else c.

Definition lower (s : str) : str := map lower_char s.

(** [str.isspace] below 256. *)
Definition is_space (c : ascii) : bool :=
  in_range 9 13 c || in_range 28 32 c || (ord c =? 133)%N || (ord c =? 160)%N.

Fixpoint lstrip_by (p : ascii -> bool) (s : str) : str :=
  match s with
  | c :: s' => if p c then lstrip_by p s' else s
  | [] => []
  end.

Definition rstrip_by (p : ascii -> bool) (s : str) : str :=
  rev (lstrip_by p (rev s)).

Definition strip_by (p : ascii -> bool) (s : str) : str :=
  rstrip_by p (lstrip_by p s).

(** [s.strip()], [s.rstrip()] *)
Definition strip (s : str) : str := strip_by is_space s.
Definition rstrip (s : str) : str := rstrip_by is_space s.

Definition mem_char (c : ascii) (cs : str) : bool :=
  existsb (Ascii.eqb c) cs.

(** [s.strip(chars)], [s.rstrip(chars)], [s.lstrip(chars)] *)
Definition strip_chars (cs s : str) : str := strip_by (fun c => mem_char c cs) s.
Definition rstrip_chars (cs s : str) : str := rstrip_by (fun c => mem_char c cs) s.
Definition lstrip_chars (cs s : str) : str := lstrip_by (fun c => mem_char c cs) s.

Fixpoint startswith (p s : str) : bool :=
  match p, s with
  | [], _ => true
  | a :: p', b :: s' => Ascii.eqb a b && startswith p' s'
  | _ :: _, [] => false
  end.

Definition endswith (p s : str) : bool := startswith (rev p) (rev s).

(** [s.find(c)] for a one-character [c]; [None] is Python's [-1]. *)
Fixpoint find_char (c : ascii) (s : str) : option nat :=
  match s with
  | [] => None
  | x :: s' => if Ascii.eqb x c then Some 0 else S <$> find_char c s'
  end.

(** [s.find(c, start)] *)
Definition find_char_from (c : ascii) (start : nat) (s : str) : option nat :=
  (fun i => start + i) <$> find_char c (drop start s).

(** [s.rfind(c)] *)
Definition rfind_char (c : ascii) (s : str) : option nat :=
  (fun i => length s - 1 - i) <$> find_char c (rev s).

(** [s.find(sub)] *)
Fixpoint find_sub (sub s : str) : option nat :=
  if startswith sub s then Some 0
  else match s with
       | [] => None
       | _ :: s' => S <$> find_sub sub s'
       end.

(** [sub in s] *)
Definition contains (sub s : str) : bool :=
  match find_sub sub s with Some _ => true | None => false end.

(** [s.split(c)] for a one-character separator: one more piece than there
    are separators. *)
Fixpoint split (c : ascii) (s : str) : list str :=
  match s with
  | [] => [[]]
  | x :: s' =>
      if Ascii.eqb x c then [] :: split c s'
      else match split c s' with
           | h :: t => (x :: h) :: t
           | [] => [[x]]
           end
  end.

(** [sep.join(parts)] *)
Fixpoint join (sep : str) (parts : list str) : str :=
  match parts with
  | [] => []
  | [p] => p
  | p :: ps => p ++ sep ++ join sep ps
  end.

(** [s.split(c, 1)] when [c] occurs, as a pair. *)
Definition cut (c : ascii) (s : str) : option (str * str) :=
  (fun i => (take i s, drop (S i) s)) <$> find_char c s.

(** [s.replace(c, "")] *)
Definition remove_char (c : ascii) (s : str) : str :=
  filter (fun x => x ≠ c) s.

End pystr.

(** ** Exceptions *)

Inductive exn : Type :=
| ValueError
| TypeError
| OverflowError
| ZeroDivisionError
| OSError.

Inductive result (A : Type) : Type :=
| Ok (a : A)
| Raise (e : exn).
Arguments Ok {A} a.
Arguments Raise {A} e.

#[global] Instance result_ret : MRet result := fun _ a => Ok a.

#[global] Instance result_bind : MBind result := fun _ _ k m =>
  match m with
  | Ok a => k a
  | Raise e => Raise e
  end.

(** ** Python numbers *)

(** A Python [float] is a binary64 number. Its arithmetic is the Standard
    Library's specification of IEEE 754 ([SpecFloat]) at precision 53 and
    maximal exponent 1024: every operation rounds to nearest, ties to even,
    overflows to an infinity and answers [nan] where no number fits. *)
Module float64.

Definition prec : Z := 53.
Definition emax : Z := 1024.

Definition float : Type := spec_float.

Definition nan : float := S754_nan.
Definition zero : float := S754_zero false.

Definition add : float -> float -> float := SFadd prec emax.
Definition sub : float -> float -> float := SFsub prec emax.
Definition mul : float -> float -> float := SFmul prec emax.
Definition div : float -> float -> float := SFdiv prec emax.

(** [a < b], [a <= b] and [a == b]: false as soon as one is a nan. *)
Definition ltb : float -> float -> bool := SFltb.
Definition leb : float -> float -> bool := SFleb.
Definition eqb : float -> float -> bool := SFeqb.

Definition is_nan (f : float) : bool :=
  match f with S754_nan => true | _ => false end.



(** The float nearest to an integer. *)
Definition of_Z (z : Z) : float := binary_normalize prec emax z 0 false.

(** The float a decimal literal [n/d] denotes, for [n] and [d] below 2^53,
    such as [decimal 9 10] for [0.9]. *)
Definition decimal (n d : Z) : float := div (of_Z n) (of_Z d).

(** [bool(f)] *)
Definition truth (f : float) : bool := negb (eqb f zero).

(** [max(a, b)]: [b] when [b > a], otherwise [a]. *)
Definition max (a b : float) : float := if ltb a b then b else a.

(** [float(z)] for an [int]. *)
Definition of_int (z : Z) : result float :=
  match of_Z z with
  | S754_infinity _ => Raise OverflowError
  | f => Ok f
  end.

(** [a / b] for two [int]s: the quotient, rounded once. *)
Definition int_truediv (a b : Z) : result float :=
  if (b =? 0)%Z then Raise ZeroDivisionError
  else
    let '(q, e, l) :=
      SFdiv_core_binary prec emax (Z.abs a) 0 (Z.abs b) 0 in
    match binary_round_aux prec emax (xorb (a <? 0)%Z (b <? 0)%Z) q e l with
    | S754_infinity _ => Raise OverflowError
    | f => Ok f
    end.

(** [int(f)]: the integer part. *)
Definition to_int (f : float) : result Z :=
  match f with
  | S754_nan => Raise ValueError
  | S754_infinity _ => Raise OverflowError
  | S754_zero _ => Ok 0%Z
  | S754_finite s m e =>
      Ok (cond_Zopp s (if (0 <=? e)%Z then Z.pos m * 2 ^ e
                       else Z.pos m / 2 ^ (- e)))%Z
  end.

(** How an [int] compares with a [float]: exactly, by value. *)
Definition compare_int (z : Z) (f : float) : option comparison :=
  match f with
  | S754_nan => None
  | S754_infinity s => Some (if s then Gt else Lt)
  | S754_zero _ => Some (z ?= 0)%Z
  | S754_finite s m e =>
      Some (if (0 <=? e)%Z then (z ?= cond_Zopp s (Z.pos m) * 2 ^ e)%Z
            else (z * 2 ^ (- e) ?= cond_Zopp s (Z.pos m))%Z)
  end.

End float64.

(** An [int] or a [float], where the code has either. *)
Module number.

Inductive number : Type :=
| Int (z : Z)
| Float (f : float64.float).

(** [bool(n)] *)
Definition truth (n : number) : bool :=
  match n with
  | Int z => negb (z =? 0)%Z
  | Float f => float64.truth f
  end.

(** [a < b] *)
Definition ltb (a b : number) : bool :=
  match a, b with
  | Int x, Int y => (x <? y)%Z
  | Float x, Float y => float64.ltb x y
  | Int x, Float y =>
      match float64.compare_int x y with Some Lt => true | _ => false end
  | Float x, Int y =>
      match float64.compare_int y x with Some Gt => true | _ => false end
  end.

(** [max(a, b)] *)
Definition max (a b : number) : number := if ltb a b then b else a.

(** [float(n)] *)
Definition to_float (n : number) : result float64.float :=
  match n with
  | Int z => float64.of_int z
  | Float f => Ok f
  end.

End number.

(** ** [urllib.parse] *)

Module urllib_parse.
Import pystr.

Record ParseResult : Type := mkParse {
  scheme : str;
  netloc : str;
  path : str;
  params : str;
  query : str;
  fragment : str
}.

Definition uses_relative : list str :=
  lit <$> [""; "ftp"; "http"; "gopher"; "nntp"; "imap"; "wais"; "file";
           "https"; "shttp"; "mms"; "prospero"; "rtsp"; "rtspu"; "sftp";
           "svn"; "svn+ssh"; "ws"; "wss"]%string.

Definition uses_netloc : list str :=
  lit <$> [""; "ftp"; "http"; "gopher"; "nntp"; "telnet"; "imap"; "wais";
           "file"; "mms"; "https"; "shttp"; "snews"; "prospero"; "rtsp";
           "rtspu"; "rsync"; "svn"; "svn+ssh"; "sftp"; "nfs"; "git";
           "git+ssh"; "ws"; "wss"]%string.

Definition uses_params : list str :=
  lit <$> [""; "ftp"; "hdl"; "prospero"; "http"; "imap"; "https"; "shttp";
           "rtsp"; "rtspu"; "sip"; "sips"; "mms"; "sftp"; "tel"]%string.

(** [_WHATWG_C0_CONTROL_OR_SPACE]: code points 0..32. *)
Definition is_c0_or_space (c : ascii) : bool := (ord c <=? 32)%N.

(** [_UNSAFE_URL_BYTES_TO_REMOVE]: tab, carriage return, line feed. *)
Definition remove_unsafe (s : str) : str :=
  remove_char (chr 10) (remove_char (chr 13) (remove_char (chr 9) s)).

Definition is_scheme_char (c : ascii) : bool :=
  is_ascii_alpha c || is_digit c || mem_char c (lit "+-.").

(** The scheme test of [urlsplit]: a colon at a position [i > 0], a first
    character that is an ASCII letter, and only scheme characters before the
    colon. *)
Definition split_scheme (default : str) (url : str) : str * str :=
  match find_char ":" url, url with
  | Some (S i), c0 :: _ =>
      if is_ascii_alpha c0 && forallb is_scheme_char (take (S i) url)
      then (lower (take (S i) url), drop (S (S i)) url)
      else (default, url)
  | _, _ => (default, url)
  end.

Definition _splitnetloc (url : str) (start : nat) : str * str :=
  let delim :=
    foldl (fun d c => match find_char_from c start url with
                      | Some w => Nat.min d w
                      | None => d
                      end)
          (length url) (lit "/?#") in
  (take (delim - start) (drop start url), drop delim url).

Definition unbalanced_brackets (nl : str) : bool :=
  (mem_char "[" nl && negb (mem_char "]" nl))
  || (mem_char "]" nl && negb (mem_char "[" nl)).

(** [urlsplit(url, scheme)] with [allow_fragments=True]; the result is laid
    out as a [ParseResult] with empty [params]. *)
Definition urlsplit (url default : str) : result ParseResult :=
  let url := remove_unsafe (lstrip_by is_c0_or_space url) in
  let default := remove_unsafe (strip_by is_c0_or_space default) in
  let '(sch, url) := split_scheme default url in
  let '(nl, url) :=
    if startswith (lit "//") url then _splitnetloc url 2 else ([], url) in
  if unbalanced_brackets nl then Raise ValueError
  else
    let '(url, frag) :=
      match cut "#" url with Some p => p | None => (url, []) end in
    let '(url, q) :=
      match cut "?" url with Some p => p | None => (url, []) end in
    Ok (mkParse sch nl url [] q frag).

Definition _splitparams (url : str) : str * str :=
  if mem_char "/" url then
    match find_char_from ";" (default 0 (rfind_char "/" url)) url with
    | Some i => (take i url, drop (S i) url)
    | None => (url, [])
    end
  else
    match find_char ";" url with
    | Some i => (take i url, drop (S i) url)
    | None => (removelast url, url)
    end.

Definition urlparse_with (url default : str) : result ParseResult :=
  r ← urlsplit url default;
  if bool_decide (scheme r ∈ uses_params) && mem_char ";" (path r) then
    let '(u, p) := _splitparams (path r) in
    Ok (mkParse (scheme r) (netloc r) u p (query r) (fragment r))
  else Ok r.

(** [urlparse(url)] *)
Definition urlparse (url : str) : result ParseResult := urlparse_with url [].

Definition nonempty (s : str) : bool :=
  match s with [] => false | _ => true end.

Definition urlunsplit (sch nl url q frag : str) : str :=
  let url :=
    if nonempty nl
       || (nonempty sch && bool_decide (sch ∈ uses_netloc)
           && negb (startswith (lit "//") url))
    then
      let url := if nonempty url && negb (startswith (lit "/") url)
                 then lit "/" ++ url else url in
      lit "//" ++ nl ++ url
    else url in
  let url := if nonempty sch then sch ++ lit ":" ++ url else url in
  let url := if nonempty q then url ++ lit "?" ++ q else url in
  if nonempty frag then url ++ lit "#" ++ frag else url.

Definition urlunparse (sch nl url par q frag : str) : str :=
  let url := if nonempty par then url ++ lit ";" ++ par else url in
  urlunsplit sch nl url q frag.

(** [segments[1:-1] = filter(None, segments[1:-1])] *)
Definition filter_middle (segs : list str) : list str :=
  match segs with
  | x :: (_ :: _) as rest =>
      x :: filter (fun s => s ≠ []) (removelast rest) ++ [List.last rest []]
  | _ => segs
  end.

Definition resolve_step (resolved : list str) (seg : str) : list str :=
  if bool_decide (seg = lit "..") then removelast resolved
  else if bool_decide (seg = lit ".") then resolved
  else resolved ++ [seg].

Definition urljoin (base url : str) : result str :=
  if negb (nonempty base) then Ok url
  else if negb (nonempty url) then Ok base
  else
    b ← urlparse base;
    u ← urlparse_with url (scheme b);
    if negb (bool_decide (scheme u = scheme b))
       || negb (bool_decide (scheme u ∈ uses_relative))
    then Ok url
    else if bool_decide (scheme u ∈ uses_netloc) && nonempty (netloc u)
    then Ok (urlunparse (scheme u) (netloc u) (path u) (params u)
                        (query u) (fragment u))
    else
      let nl := if bool_decide (scheme u ∈ uses_netloc)
                then netloc b else netloc u in
      if negb (nonempty (path u)) && negb (nonempty (params u)) then
        let q := if nonempty (query u) then query u else query b in
        Ok (urlunparse (scheme u) nl (path b) (params b) q (fragment u))
      else
        let base_parts := split "/" (path b) in
        let base_parts :=
          if nonempty (List.last base_parts [])
          then removelast base_parts else base_parts in
        let segments :=
          if startswith (lit "/") (path u) then split "/" (path u)
          else filter_middle (base_parts ++ split "/" (path u)) in
        let resolved := foldl resolve_step [] segments in
        let resolved :=
          if bool_decide (List.last segments [] ∈ [lit "."; lit ".."])
          then resolved ++ [[]] else resolved in
        let joined := join (lit "/") resolved in
        Ok (urlunparse (scheme u) nl
                       (if nonempty joined then joined else lit "/")
                       (params u) (query u) (fragment u)).

End urllib_parse.

(** ** [posixpath] *)

Module posixpath.
Import pystr.

Definition norm_step (initial_slashes : nat) (new_comps : list str)
    (comp : str) : list str :=
  if bool_decide (comp = []) || bool_decide (comp = lit ".") then new_comps
  else if negb (bool_decide (comp = lit ".."))
          || (bool_decide (initial_slashes = 0)
              && bool_decide (new_comps = []))
          || (negb (bool_decide (new_comps = []))
              && bool_decide (List.last new_comps [] = lit ".."))
  then new_comps ++ [comp]
  else removelast new_comps.

Definition normpath (path : str) : str :=
  if bool_decide (path = []) then lit "."
  else
    let initial_slashes :=
      if startswith (lit "/") path then
        if startswith (lit "//") path && negb (startswith (lit "///") path)
        then 2 else 1
      else 0 in
    let comps := foldl (norm_step initial_slashes) [] (split "/" path) in
    let path := concat (replicate initial_slashes (lit "/"))
                ++ join (lit "/") comps in
    if bool_decide (path = []) then lit "." else path.

Definition dirname (p : str) : str :=
  let i := match rfind_char "/" p with Some r => S r | None => 0 end in
  let head := take i p in
  if negb (bool_decide (head = []))
     && negb (forallb (Ascii.eqb "/") head)
  then rstrip_chars (lit "/") head
  else head.

End posixpath.

(** ** [pathlib.PurePosixPath] *)

Module pathlib.
Import pystr.

(** A path is its root (empty, one slash, or exactly two) and its parts. *)
Record Path : Type := mkPath {
  root : str;
  parts : list str
}.

(** [Path(s)] *)
Definition parse (s : str) : Path :=
  mkPath
    (if startswith (lit "/") s then
       if startswith (lit "//") s && negb (startswith (lit "///") s)
       then lit "//" else lit "/"
     else [])
    (filter (fun c => c ≠ [] ∧ c ≠ lit ".") (split "/" s)).

(** [p / s] *)
Definition truediv (p : Path) (s : str) : Path :=
  let q := parse s in
  if bool_decide (root q = []) then mkPath (root p) (parts p ++ parts q)
  else q.

(** [str(p)] *)
Definition to_str (p : Path) : str :=
  if bool_decide (root p = []) && bool_decide (parts p = []) then lit "."
  else root p ++ join (lit "/") (parts p).

End pathlib.

(** ** [hashlib.md5] *)

Module hashlib.
Import pystr.
Local Open Scope Z_scope.

Definition w32 (x : Z) : Z := x mod 2^32.

Definition rotl32 (x : Z) (c : Z) : Z :=
  w32 (Z.lor (Z.shiftl x c) (Z.shiftr x (32 - c))).

Definition md5_K : list Z :=
  [0xd76aa478; 0xe8c7b756; 0x242070db; 0xc1bdceee;
   0xf57c0faf; 0x4787c62a; 0xa8304613; 0xfd469501;
   0x698098d8; 0x8b44f7af; 0xffff5bb1; 0x895cd7be;
   0x6b901122; 0xfd987193; 0xa679438e; 0x49b40821;
   0xf61e2562; 0xc040b340; 0x265e5a51; 0xe9b6c7aa;
   0xd62f105d; 0x02441453; 0xd8a1e681; 0xe7d3fbc8;
   0x21e1cde6; 0xc33707d6; 0xf4d50d87; 0x455a14ed;
   0xa9e3e905; 0xfcefa3f8; 0x676f02d9; 0x8d2a4c8a;
   0xfffa3942; 0x8771f681; 0x6d9d6122; 0xfde5380c;
   0xa4beea44; 0x4bdecfa9; 0xf6bb4b60; 0xbebfbc70;
   0x289b7ec6; 0xeaa127fa; 0xd4ef3085; 0x04881d05;
   0xd9d4d039; 0xe6db99e5; 0x1fa27cf8; 0xc4ac5665;
   0xf4292244; 0x432aff97; 0xab9423a7; 0xfc93a039;
   0x655b59c3; 0x8f0ccc92; 0xffeff47d; 0x85845dd1;
   0x6fa87e4f; 0xfe2ce6e0; 0xa3014314; 0x4e0811a1;
   0xf7537e82; 0xbd3af235; 0x2ad7d2bb; 0xeb86d391].

Definition md5_S : list Z :=
  [7; 12; 17; 22; 7; 12; 17; 22; 7; 12; 17; 22; 7; 12; 17; 22;
   5; 9; 14; 20; 5; 9; 14; 20; 5; 9; 14; 20; 5; 9; 14; 20;
   4; 11; 16; 23; 4; 11; 16; 23; 4; 11; 16; 23; 4; 11; 16; 23;
   6; 10; 15; 21; 6; 10; 15; 21; 6; 10; 15; 21; 6; 10; 15; 21].

(** A byte is a [Z] in 0..255. Little-endian words of 4 bytes. *)
Fixpoint words_le (bs : list Z) (n : nat) : list Z :=
  match n with
  | O => []
  | S n' =>
      match bs with
      | b0 :: b1 :: b2 :: b3 :: rest =>
          (b0 + 2^8 * b1 + 2^16 * b2 + 2^24 * b3) :: words_le rest n'
      | _ => []
      end
  end.

Definition bytes_le (w : Z) (n : nat) : list Z :=
  (fun i => Z.shiftr w (8 * Z.of_nat i) mod 2^8) <$> seq 0 n.

Definition md5_pad (msg : list Z) : list Z :=
  let len := Z.of_nat (length msg) in
  let zeros := Z.to_nat ((55 - len) mod 64) in
  msg ++ [0x80] ++ replicate zeros 0 ++ bytes_le ((8 * len) mod 2^64) 8.

Definition md5_round (m : list Z) (st : Z * Z * Z * Z) (i : nat)
    : Z * Z * Z * Z :=
  let '(a, b, c, d) := st in
  let iz := Z.of_nat i in
  let '(f, g) :=
    if iz <? 16 then
      (Z.lor (Z.land b c) (Z.land (w32 (Z.lnot b)) d), iz)
    else if iz <? 32 then
      (Z.lor (Z.land d b) (Z.land (w32 (Z.lnot d)) c), (5 * iz + 1) mod 16)
    else if iz <? 48 then
      (Z.lxor b (Z.lxor c d), (3 * iz + 5) mod 16)
    else
      (Z.lxor c (Z.lor b (w32 (Z.lnot d))), (7 * iz) mod 16) in
  let f := w32 (f + a + nth i md5_K 0 + nth (Z.to_nat g) m 0) in
  (d, w32 (b + rotl32 f (nth i md5_S 0)), b, c).

Definition md5_chunk (st : Z * Z * Z * Z) (chunk : list Z)
    : Z * Z * Z * Z :=
  let m := words_le chunk 16 in
  let '(a0, b0, c0, d0) := st in
  let '(a, b, c, d) := foldl (md5_round m) st (seq 0 64) in
  (w32 (a0 + a), w32 (b0 + b), w32 (c0 + c), w32 (d0 + d)).

Fixpoint md5_chunks (n : nat) (st : Z * Z * Z * Z) (bs : list Z)
    : Z * Z * Z * Z :=
  match n with
  | O => st
  | S n' => md5_chunks n' (md5_chunk st (take 64 bs)) (drop 64 bs)
  end.

(** [hashlib.md5(msg).digest()] *)
Definition md5_digest (msg : list Z) : list Z :=
  let padded := md5_pad msg in
  let '(a, b, c, d) :=
    md5_chunks (length padded / 64)
      (0x67452301, 0xefcdab89, 0x98badcfe, 0x10325476) padded in
  bytes_le a 4 ++ bytes_le b 4 ++ bytes_le c 4 ++ bytes_le d 4.

Definition hex_digit (n : Z) : ascii :=
  if n <? 10 then chr (Z.to_N (48 + n)) else chr (Z.to_N (87 + n)).

Definition hex_byte (b : Z) : str := [hex_digit (b / 16); hex_digit (b mod 16)].

(** [hashlib.md5(msg).hexdigest()] *)
Definition md5_hexdigest (msg : list Z) : str :=
  concat (hex_byte <$> md5_digest msg).

(** [s.encode("utf-8")] for code points below 256. *)
Definition utf8_char (c : ascii) : list Z :=
  let n := Z.of_N (ord c) in
  if n <? 128 then [n] else [0xC0 + n / 64; 0x80 + n mod 64].

Definition encode_utf8 (s : str) : list Z := concat (utf8_char <$> s).

End hashlib.

(** ** [utils.py] *)

Module utils.
Import pystr urllib_parse.

Definition _normalized_path (path : str) : str :=
  if negb (nonempty path) then lit "/"
  else
    let path :=
      if negb (startswith (lit "/") path) then lit "/" ++ path else path in
    let normalized := posixpath.normpath path in
    let normalized :=
      if endswith (lit "/") path && negb (endswith (lit "/") normalized)
      then normalized ++ lit "/" else normalized in
    let normalized :=
      if negb (startswith (lit "/") normalized)
      then lit "/" ++ normalized else normalized in
    if nonempty normalized then normalized else lit "/".

(** The tail of [normalize_url], from the scheme test on. *)
Definition normalize_parsed (parsed : ParseResult) : option str :=
  if bool_decide (lower (scheme parsed) ∈ [lit "http"; lit "https"]) then
    Some (urlunparse (lower (scheme parsed)) (lower (netloc parsed))
                     (_normalized_path (path parsed)) [] (query parsed) [])
  else None.

Definition normalize_url (url : str) (base_url : option str)
    : result (option str) :=
  if negb (nonempty url) then Ok None
  else
    parsed ← urlparse url;
    if negb (nonempty (scheme parsed)) then
      match base_url with
      | Some base =>
          if negb (nonempty base) then Ok None
          else
            joined ← urljoin base url;
            parsed ← urlparse joined;
            Ok (normalize_parsed parsed)
      | None => Ok None
      end
    else Ok (normalize_parsed parsed).

Definition derive_parent_url (url : str) : result str :=
  parsed ← urlparse url;
  let path := _normalized_path (path parsed) in
  let path := if nonempty path then path else lit "/" in
  let parent_path := posixpath.dirname (rstrip_chars (lit "/") path) in
  let parent_path :=
    if negb (startswith (lit "/") parent_path)
    then lit "/" ++ parent_path else parent_path in
  let parent_path :=
    if negb (bool_decide (parent_path = lit "/"))
    then parent_path ++ lit "/" else parent_path in
  Ok (urlunparse (lower (scheme parsed)) (lower (netloc parsed))
                 (if nonempty parent_path then parent_path else lit "/")
                 [] [] []).

Definition shares_same_parent (url parent_url : str) : result bool :=
  if negb (nonempty parent_url) then Ok true
  else
    parent ← derive_parent_url url;
    Ok (bool_decide (parent = parent_url)).

Definition is_within_scope (url scope_url : str) : result bool :=
  if negb (nonempty scope_url) then Ok true
  else
    candidate ← urlparse url;
    scope ← urlparse scope_url;
    if negb (nonempty (scheme candidate)) || negb (nonempty (netloc candidate))
    then Ok false
    else if negb (bool_decide (lower (scheme candidate) = lower (scheme scope)))
    then Ok false
    else if negb (bool_decide (lower (netloc candidate) = lower (netloc scope)))
    then Ok false
    else
      let candidate_path := _normalized_path (path candidate) in
      let scope_path := _normalized_path (path scope) in
      if bool_decide (scope_path = lit "/") then Ok true
      else if endswith (lit "/") scope_path
      then Ok (startswith scope_path candidate_path)
      else Ok (bool_decide (candidate_path = scope_path)
               || startswith (scope_path ++ lit "/") candidate_path).

Definition domain_key (url : str) : result str :=
  parsed ← urlparse url;
  Ok (lower (scheme parsed) ++ lit "://" ++ lower (netloc parsed)).

(** The character class of [_SANITIZE_RE] is the complement of this one. *)
Definition is_slug_char (c : ascii) : bool :=
  is_lower c || is_upper c || is_digit c || mem_char c (lit "_.-").

(** [_SANITIZE_RE.sub("-", s)]: every maximal run of characters outside the
    class becomes one hyphen. [in_run] tells that the previous character was
    already part of the run being replaced. *)
Fixpoint sanitize_from (in_run : bool) (s : str) : str :=
  match s with
  | [] => []
  | c :: s' =>
      if is_slug_char c then c :: sanitize_from false s'
      else if in_run then sanitize_from true s'
      else "-"%char :: sanitize_from true s'
  end.

Definition _SANITIZE_RE_sub (s : str) : str := sanitize_from false s.

Definition _slugify (segment : str) : str :=
  let segment := _SANITIZE_RE_sub (lower (strip segment)) in
  let segment := strip_chars (lit "-._") segment in
  if nonempty segment then segment else lit "index".

(** [build_markdown_path] returns the file path; the directory it asked
    [mkdir] to create is the first component of the result. [mkdir] is what
    the file system does when it is asked for a directory with its parents,
    an existing directory being accepted: it creates it, or it raises
    ([FileExistsError] and the other subclasses of [OSError]). *)
Definition build_markdown_path (mkdir : pathlib.Path -> result unit)
    (base_dir : pathlib.Path) (url : str)
    : result (pathlib.Path * pathlib.Path) :=
  parsed ← urlparse url;
  let parts := [lower (netloc parsed)] in
  let path_segments := filter (fun seg => seg ≠ []) (split "/" (path parsed)) in
  let path_segments :=
    if bool_decide (path_segments = []) then [lit "index"] else path_segments in
  let directory_segments :=
    if bool_decide (length path_segments = 1) then parts
    else parts ++ removelast path_segments in
  let directory :=
    foldl (fun d segment => pathlib.truediv d (_slugify segment))
          base_dir directory_segments in
  _ ← mkdir directory;
  let filename := _slugify (List.last path_segments []) in
  let filename :=
    if nonempty (query parsed) then
      filename ++ lit "-"
        ++ take 8 (hashlib.md5_hexdigest (hashlib.encode_utf8 (query parsed)))
    else filename in
  Ok (directory, pathlib.truediv directory (filename ++ lit ".md")).

End utils.

(** ** [crawl_queue.py] *)

Module crawl_queue.
Import pystr.

Record CrawlQueue : Type := mkQueue {
  _parent_url : str;
  _respect_parent : bool;
  _pending : list str;
  _queued : gset str;
  _seen : gset str
}.

(** [CrawlQueue.__init__] *)
Definition init (parent_url : str) (respect_parent : bool) : CrawlQueue :=
  mkQueue parent_url respect_parent [] ∅ ∅.

(** [CrawlQueue.add]: the outcome of the call and the queue it leaves.
    Every exception is raised before the queue is touched. *)
Definition add (url : str) (base_url : option str) (q : CrawlQueue)
    : result bool * CrawlQueue :=
  match utils.normalize_url url base_url with
  | Raise e => (Raise e, q)
  | Ok None => (Ok false, q)
  | Ok (Some normalized) =>
      if negb (urllib_parse.nonempty normalized) then (Ok false, q)
      else
        match (if _respect_parent q
               then utils.shares_same_parent normalized (_parent_url q)
               else Ok true) with
        | Raise e => (Raise e, q)
        | Ok false => (Ok false, q)
        | Ok true =>
            if bool_decide (normalized ∈ _queued q)
               || bool_decide (normalized ∈ _seen q)
            then (Ok false, q)
            else (Ok true,
                  mkQueue (_parent_url q) (_respect_parent q)
                          (_pending q ++ [normalized])
                          (_queued q ∪ {[normalized]})
                          (_seen q))
        end
  end.

(** [CrawlQueue.extend]; [added] is the running count. *)
Fixpoint extend_from (added : Z) (urls : list str) (base_url : option str)
    (q : CrawlQueue) : result Z * CrawlQueue :=
  match urls with
  | [] => (Ok added, q)
  | url :: urls' =>
      match add url base_url q with
      | (Raise e, q') => (Raise e, q')
      | (Ok b, q') =>
          extend_from (if b then added + 1 else added)%Z urls' base_url q'
      end
  end.

Definition extend (urls : list str) (base_url : option str) (q : CrawlQueue)
    : result Z * CrawlQueue :=
  extend_from 0 urls base_url q.

(** The loop of [next_batch], by recursion on what is pending. *)
Fixpoint next_batch_loop (size : Z) (pending : list str)
    (queued seen : gset str) (batch : list str)
    : list str * (list str * gset str * gset str) :=
  match pending with
  | url :: rest =>
      if (Z.of_nat (length batch) <? size)%Z then
        next_batch_loop size rest (queued ∖ {[url]}) (seen ∪ {[url]})
                        (batch ++ [url])
      else (batch, (pending, queued, seen))
  | [] => (batch, (pending, queued, seen))
  end.

Definition next_batch (size : Z) (q : CrawlQueue) : list str * CrawlQueue :=
  let '(batch, (pending, queued, seen)) :=
    next_batch_loop size (_pending q) (_queued q) (_seen q) [] in
  (batch, mkQueue (_parent_url q) (_respect_parent q) pending queued seen).

Definition pending (q : CrawlQueue) : Z := Z.of_nat (length (_pending q)).
Definition scheduled (q : CrawlQueue) : Z := Z.of_nat (size (_seen q)).

(** A client of the queue: the calls it makes, in order. A call that raises
    leaves the queue as the exception found it, and the client goes on. *)
Inductive call : Type :=
| Add (url : str) (base_url : option str)
| Extend (urls : list str) (base_url : option str)
| NextBatch (size : Z).

Definition step (c : call) (q : CrawlQueue) : list str * CrawlQueue :=
  match c with
  | Add url base_url => ([], (add url base_url q).2)
  | Extend urls base_url => ([], (extend urls base_url q).2)
  | NextBatch size => next_batch size q
  end.

(** The URLs handed out by [next_batch] over a run, in order, and the queue
    at its end. *)
Fixpoint run (cs : list call) (q : CrawlQueue) : list str * CrawlQueue :=
  match cs with
  | [] => ([], q)
  | c :: cs' =>
      let '(out, q') := step c q in
      let '(outs, q'') := run cs' q' in
      (out ++ outs, q'')
  end.

End crawl_queue.

(** ** [config_loader.py] *)

Module config_loader.
Import pystr.

Record DelaySettings : Type := mkDelaySettings {
  min_seconds : float64.float;
  max_seconds : float64.float
}.

Record BrowserSettings : Type := mkBrowserSettings {
  headless : bool;
  verbose : bool;
  user_agent : str
}.

Record TabTraversalSettings : Type := mkTabTraversalSettings {
  enabled : bool;
  max_groups : Z;
  max_tabs_per_group : Z;
  max_total_tabs : Z;
  heading_template : str;
  wait_for_activation_ms : Z
}.

Record CrawlParameters : Type := mkCrawlParameters {
  seed_url : str;
  output_dir : pathlib.Path;
  concurrency : Z;
  max_pages : Z;
  respect_parent_path : bool;
  page_timeout_ms : Z;
  wait_for_timeout_ms : option Z;
  scope_mode : str
}.

Record CrawlSettingsBundle : Type := mkBundle {
  browser : BrowserSettings;
  crawl : CrawlParameters;
  delay : DelaySettings;
  tabs : TabTraversalSettings
}.

(** [CrawlParameters.parent_url] *)
Definition parent_url (c : CrawlParameters) : result str :=
  utils.derive_parent_url (seed_url c).

(** [CrawlParameters.scope_url] *)
Definition scope_url (c : CrawlParameters) : result str :=
  if bool_decide (scope_mode c = lit "seed") then
    normalized ← utils.normalize_url (seed_url c) None;
    match normalized with
    | Some n => Ok (if urllib_parse.nonempty n then n else seed_url c)
    | None => Ok (seed_url c)
    end
  else utils.derive_parent_url (seed_url c).

(** A value of the YAML document: null, a boolean, an integer, a float, a
    string, or something else (a list, a mapping, a date), of which only
    the truth value matters here. *)
Inductive yaml : Type :=
| YNull
| YBool (b : bool)
| YInt (z : Z)
| YFloat (x : float64.float)
| YStr (s : str)
| YOther (truth : bool).

(** [data.get(key, default)] *)
Definition get (data : gmap str yaml) (key : str) (dflt : yaml) : yaml :=
  default dflt (data !! key).

(** [bool(v)] *)
Definition py_bool (v : yaml) : bool :=
  match v with
  | YNull => false
  | YBool b => b
  | YInt z => negb (z =? 0)%Z
  | YFloat x => float64.truth x
  | YStr s => urllib_parse.nonempty s
  | YOther truth => truth
  end.

(** The class defaults. *)
Definition default_heading_template : str :=
  lit "#### [Tab: {group} - {label}]".

Section Conversions.

(** [float(s)] and [int(s)] for a string, [None] when they raise
    [ValueError]; [str(v)] for a value that is not a string; and
    [Path.expanduser]. *)
Variable float_of_str : str -> option float64.float.
Variable int_of_str : str -> option Z.
Variable str_of : yaml -> str.
Variable expanduser : pathlib.Path -> pathlib.Path.

(** [float(v)]: an integer beyond the range of the floats raises
    [OverflowError]; a float is returned as it is, a nan or an infinity
    too. *)
Definition py_float (v : yaml) : result float64.float :=
  match v with
  | YBool b => float64.of_int (if b then 1 else 0)
  | YInt z => float64.of_int z
  | YFloat x => Ok x
  | YStr s =>
      match float_of_str s with Some x => Ok x | None => Raise ValueError end
  | YNull | YOther _ => Raise TypeError
  end.

(** [int(v)]: a float is truncated towards zero; a nan raises
    [ValueError] and an infinity [OverflowError]. *)
Definition py_int (v : yaml) : result Z :=
  match v with
  | YBool b => Ok (if b then 1 else 0)%Z
  | YInt z => Ok z
  | YFloat x => float64.to_int x
  | YStr s =>
      match int_of_str s with Some z => Ok z | None => Raise ValueError end
  | YNull | YOther _ => Raise TypeError
  end.

(** [str(v)] *)
Definition py_str (v : yaml) : str :=
  match v with
  | YStr s => s
  | _ => str_of v
  end.

(** [DelaySettings.from_dict] *)
Definition DelaySettings_from_dict (data : option (gmap str yaml))
    : result DelaySettings :=
  let data := default ∅ data in
  min_seconds ←
    py_float (get data (lit "min_seconds") (YFloat (float64.of_Z 1)));
  max_seconds ←
    py_float (get data (lit "max_seconds") (YFloat (float64.of_Z 3)));
  let max_seconds :=
    if float64.ltb max_seconds min_seconds then min_seconds
    else max_seconds in
  Ok (mkDelaySettings min_seconds max_seconds).

(** [BrowserSettings.from_dict] *)
Definition BrowserSettings_from_dict (default_user_agent : str)
    (data : option (gmap str yaml)) : BrowserSettings :=
  let data := default ∅ data in
  mkBrowserSettings
    (py_bool (get data (lit "headless") (YBool true)))
    (py_bool (get data (lit "verbose") (YBool false)))
    (py_str (get data (lit "user_agent") (YStr default_user_agent))).

(** [TabTraversalSettings.from_dict] *)
Definition TabTraversalSettings_from_dict (data : option (gmap str yaml))
    : result TabTraversalSettings :=
  let data := default ∅ data in
  max_groups ← py_int (get data (lit "max_groups") (YInt 10));
  max_tabs_per_group ← py_int (get data (lit "max_tabs_per_group") (YInt 5));
  max_total_tabs ← py_int (get data (lit "max_total_tabs") (YInt 40));
  let heading_template :=
    strip (py_str (get data (lit "heading_template")
                       (YStr default_heading_template))) in
  wait_for_activation_ms ←
    py_int (get data (lit "wait_for_activation_ms") (YInt 4000));
  let wait_for_activation_ms :=
    if (wait_for_activation_ms <? 500)%Z then 500%Z
    else wait_for_activation_ms in
  Ok (mkTabTraversalSettings
        (py_bool (get data (lit "enabled") (YBool false)))
        (Z.max 1 max_groups)
        (Z.max 1 max_tabs_per_group)
        (Z.max 1 max_total_tabs)
        (if urllib_parse.nonempty heading_template then heading_template
         else default_heading_template)
        wait_for_activation_ms).

(** [CrawlParameters.from_dict] *)
Definition CrawlParameters_from_dict (data : gmap str yaml)
    : result CrawlParameters :=
  match data !! lit "seed_url" with
  | None => Raise ValueError
  | Some seed =>
      concurrency ← py_int (get data (lit "concurrency") (YInt 1));
      let concurrency := if (concurrency <? 1)%Z then 1%Z else concurrency in
      max_pages ← py_int (get data (lit "max_pages") (YInt 2000));
      let max_pages := if (max_pages <? 1)%Z then 2000%Z else max_pages in
      output_dir ←
        match get data (lit "output_dir") (YStr (lit "crawl_results")) with
        | YStr s => Ok (expanduser (pathlib.parse s))
        | _ => Raise TypeError
        end;
      page_timeout_ms ←
        py_int (get data (lit "page_timeout_ms") (YInt 120000));
      let page_timeout_ms :=
        if (page_timeout_ms <? 1000)%Z then 1000%Z else page_timeout_ms in
      wait_for_timeout_ms ←
        match get data (lit "wait_for_timeout_ms") YNull with
        | YNull => Ok None
        | v => z ← py_int v; Ok (Some z)
        end;
      let scope_mode :=
        lower (strip (py_str (get data (lit "scope_mode")
                                  (YStr (lit "parent"))))) in
      let scope_mode :=
        if bool_decide (scope_mode ∈ [lit "parent"; lit "seed"])
        then scope_mode else lit "parent" in
      Ok (mkCrawlParameters
            (py_str seed) output_dir concurrency max_pages
            (py_bool (get data (lit "respect_parent_path") (YBool true)))
            page_timeout_ms wait_for_timeout_ms scope_mode)
  end.

End Conversions.

End config_loader.

(** ** [crawler_runner.py]: construction of the orchestrator *)

Module crawler_runner.
Import pystr.

(** The values passed at the call of [CrawlQueue]. *)
Inductive pyval : Type :=
| VStr (s : str)
| VBool (b : bool).

(** A parameter list: names in order, each with its default if it has one. *)
Definition signature := list (string * option pyval).

(** Binding of a call made with keyword arguments only: a keyword that
    names no parameter is a [TypeError], and so is a parameter left without
    a value. *)
Fixpoint lookup_kw (name : string) (kwargs : list (string * pyval))
    : option pyval :=
  match kwargs with
  | [] => None
  | (k, v) :: rest => if String.eqb k name then Some v else lookup_kw name rest
  end.

Fixpoint bind_params (sig : signature) (kwargs : list (string * pyval))
    : result (list pyval) :=
  match sig with
  | [] => Ok []
  | (name, dflt) :: sig' =>
      match lookup_kw name kwargs, dflt with
      | Some v, _ | None, Some v => vs ← bind_params sig' kwargs; Ok (v :: vs)
      | None, None => Raise TypeError
      end
  end.

Definition bind_call (sig : signature) (kwargs : list (string * pyval))
    : result (list pyval) :=
  if forallb (fun kv => existsb (fun p => String.eqb p.1 kv.1) sig) kwargs
  then bind_params sig kwargs
  else Raise TypeError.

(** [def __init__(self, parent_url: str, respect_parent: bool = True)] *)
Definition CrawlQueue_signature : signature :=
  [("parent_url"%string, None); ("respect_parent"%string, Some (VBool true))].

Definition truthy (v : pyval) : bool :=
  match v with
  | VStr s => urllib_parse.nonempty s
  | VBool b => b
  end.

(** The call of the class [CrawlQueue] with keyword arguments. *)
Definition CrawlQueue_call (kwargs : list (string * pyval))
    : result crawl_queue.CrawlQueue :=
  args ← bind_call CrawlQueue_signature kwargs;
  match args with
  | [VStr parent_url; respect_parent] =>
      Ok (crawl_queue.init parent_url (truthy respect_parent))
  | _ => Raise TypeError
  end.

(** What [CrawlOrchestrator.__init__] builds first: the queue. The other
    collaborators are constructed after it. *)
Record CrawlOrchestrator : Type := mkOrchestrator {
  settings : config_loader.CrawlSettingsBundle;
  _queue : crawl_queue.CrawlQueue
}.

Definition CrawlOrchestrator_init (s : config_loader.CrawlSettingsBundle)
    : result CrawlOrchestrator :=
  scope ← config_loader.scope_url (config_loader.crawl s);
  queue ← CrawlQueue_call
            [("scope_url"%string, VStr scope);
             ("respect_parent"%string,
              VBool (config_loader.respect_parent_path
                       (config_loader.crawl s)))];
  Ok (mkOrchestrator s queue).

(** [run_async] of [main.py]: construct, then [run]. *)
Definition run_async {Stats : Type}
    (run : CrawlOrchestrator -> result Stats)
    (s : config_loader.CrawlSettingsBundle) : result Stats :=
  orchestrator ← CrawlOrchestrator_init s;
  run orchestrator.

End crawler_runner.

(** ** [throttle.py] *)

Module throttle.
Import pystr.

(** [random.uniform(a, b)], with [rnd] the draw of [random.random()]. *)
Definition uniform (a b rnd : float64.float) : float64.float :=
  float64.add a (float64.mul (float64.sub b a) rnd).

(** [utils.choose_random_delay] *)
Definition choose_random_delay (min_seconds max_seconds rnd : float64.float)
    : float64.float :=
  let max_seconds :=
    if float64.ltb max_seconds min_seconds then min_seconds
    else max_seconds in
  uniform min_seconds max_seconds rnd.

Record ThrottleController : Type := mkThrottle {
  min_seconds : float64.float;
  max_seconds : float64.float;
  _last_hit : gmap str float64.float
}.

(** What a call does besides returning, in order. *)
Inductive event : Type :=
| Reserve (domain : str) (ready_at : float64.float)
| Sleep (seconds : float64.float).

(** [float(robots_delay or 0)]: the robots manager hands over an [int] or
    a [float]. *)
Definition robots_or_zero (robots_delay : option number.number)
    : result float64.float :=
  let d :=
    match robots_delay with
    | Some d => if number.truth d then d else number.Int 0
    | None => number.Int 0
    end in
  number.to_float d.

(** [wait_for_turn]: [rnd] is the draw of [random.random()], [now] the
    reading of [time.monotonic()] taken under the lock. The result is the
    returned value, the events in the order they happen, and the controller
    afterwards. *)
Definition wait_for_turn (rnd now : float64.float) (url : str)
    (robots_delay : option number.number) (t : ThrottleController)
    : result (float64.float * list event) * ThrottleController :=
  let base_delay := choose_random_delay (min_seconds t) (max_seconds t) rnd in
  match robots_or_zero robots_delay with
  | Raise e => (Raise e, t)
  | Ok robots =>
      let enforced_delay := float64.max base_delay robots in
      match utils.domain_key url with
      | Raise e => (Raise e, t)
      | Ok domain =>
          let wait_for :=
            match _last_hit t !! domain with
            | None => enforced_delay
            | Some last_hit =>
                let elapsed := float64.sub now last_hit in
                float64.max (float64.sub enforced_delay elapsed) base_delay
            end in
          let ready_at := float64.add now wait_for in
          (Ok (wait_for,
               Reserve domain ready_at
                 :: (if float64.ltb float64.zero wait_for
                     then [Sleep wait_for] else [])),
           mkThrottle (min_seconds t) (max_seconds t)
                      (<[domain := ready_at]> (_last_hit t)))
      end
  end.

(** One call of a sequence: its draw, its clock reading and its arguments. *)
Record turn : Type := mkTurn {
  turn_rnd : float64.float;
  turn_now : float64.float;
  turn_url : str;
  turn_robots_delay : option number.number
}.

(** Sequential calls: the values returned (a call that raises returns
    none) and the reservation of [domain] after each call. *)
Fixpoint run (domain : str) (turns : list turn) (t : ThrottleController)
    : list (option float64.float * option float64.float) :=
  match turns with
  | [] => []
  | c :: turns' =>
      let '(r, t') :=
        wait_for_turn (turn_rnd c) (turn_now c) (turn_url c)
                      (turn_robots_delay c) t in
      (match r with Ok (w, _) => Some w | Raise _ => None end,
       _last_hit t' !! domain) :: run domain turns' t'
  end.

End throttle.

(** ** [urllib.robotparser] *)

Module robotparser.
Import pystr.

Record RuleLine : Type := mkRuleLine {
  rl_path : str;
  rl_allowance : bool
}.

Record RequestRate : Type := mkRequestRate {
  requests : Z;
  seconds : Z
}.

Record Entry : Type := mkEntry {
  useragents : list str;
  rulelines : list RuleLine;
  delay : option Z;
  req_rate : option RequestRate
}.

(** [last_checked] is kept as the truth value the code tests. *)
Record RobotFileParser : Type := mkParser {
  entries : list Entry;
  sitemaps : list str;
  default_entry : option Entry;
  disallow_all : bool;
  allow_all : bool;
  last_checked : bool
}.

(** [RobotFileParser()] *)
Definition new_parser : RobotFileParser := mkParser [] [] None false false false.

Definition new_entry : Entry := mkEntry [] [] None None.

(** [str.isdigit] below 256: the ten digits and the superscripts 1, 2, 3. *)
Definition py_isdigit_char (c : ascii) : bool :=
  is_digit c || (ord c =? 178)%N || (ord c =? 179)%N || (ord c =? 185)%N.

Definition isdigit (s : str) : bool :=
  urllib_parse.nonempty s && forallb py_isdigit_char s.

Definition decimal (s : str) : Z :=
  foldl (fun n c => 10 * n + (Z.of_N (ord c) - 48))%Z 0%Z s.

(** [int(s)] on a string that passed [s.strip().isdigit()]: the superscript
    digits are digits for [isdigit] and a [ValueError] for [int]. *)
Definition py_int (s : str) : result Z :=
  let s := strip s in
  if urllib_parse.nonempty s && forallb is_digit s then Ok (decimal s)
  else Raise ValueError.

(** [str.splitlines] below 256. *)
Definition is_linebreak (c : ascii) : bool :=
  in_range 10 13 c || in_range 28 30 c || (ord c =? 133)%N.

Fixpoint splitlines_from (cur : str) (s : str) : list str :=
  match s with
  | [] => if urllib_parse.nonempty cur then [rev cur] else []
  | c :: s' =>
      if (ord c =? 13)%N then
        match s' with
        | c' :: s'' =>
            if (ord c' =? 10)%N then rev cur :: splitlines_from [] s''
            else rev cur :: splitlines_from [] s'
        | [] => [rev cur]
        end
      else if is_linebreak c then rev cur :: splitlines_from [] s'
      else splitlines_from (c :: cur) s'
  end.

Definition splitlines (s : str) : list str := splitlines_from [] s.

(** [Entry.applies_to] *)
Definition entry_applies_to (e : Entry) (useragent : str) : bool :=
  let useragent := lower (hd [] (split "/" useragent)) in
  (fix go (agents : list str) : bool :=
     match agents with
     | [] => false
     | agent :: rest =>
         if bool_decide (agent = lit "*") then true
         else if bool_decide (is_Some (find_sub (lower agent) useragent))
         then true
         else go rest
     end) (useragents e).

(** [RuleLine.applies_to] *)
Definition rule_applies_to (r : RuleLine) (filename : str) : bool :=
  bool_decide (rl_path r = lit "*") || startswith (rl_path r) filename.

(** [Entry.allowance] *)
Definition entry_allowance (e : Entry) (filename : str) : bool :=
  match List.find (fun r => rule_applies_to r filename) (rulelines e) with
  | Some r => rl_allowance r
  | None => true
  end.

(** The entry a query about [useragent] is answered from. *)
Definition entry_for (p : RobotFileParser) (useragent : str) : option Entry :=
  match List.find (fun e => entry_applies_to e useragent) (entries p) with
  | Some e => Some e
  | None => default_entry p
  end.

(** [RobotFileParser.crawl_delay] *)
Definition crawl_delay (p : RobotFileParser) (useragent : str) : option Z :=
  if negb (last_checked p) then None
  else e ← entry_for p useragent; delay e.

(** [RobotFileParser.request_rate] *)
Definition request_rate (p : RobotFileParser) (useragent : str)
    : option RequestRate :=
  if negb (last_checked p) then None
  else e ← entry_for p useragent; req_rate e.

(** [RobotFileParser._add_entry] *)
Definition _add_entry (p : RobotFileParser) (e : Entry) : RobotFileParser :=
  if bool_decide (lit "*" ∈ useragents e) then
    match default_entry p with
    | None => mkParser (entries p) (sitemaps p) (Some e) (disallow_all p)
                       (allow_all p) (last_checked p)
    | Some _ => p
    end
  else mkParser (entries p ++ [e]) (sitemaps p) (default_entry p)
                (disallow_all p) (allow_all p) (last_checked p).

Section Quoting.

(** [urllib.parse.unquote] and [urllib.parse.quote]: percent-decoding can
    produce any code point, so both are taken as given. *)
Variable unquote : str -> str.
Variable quote : str -> str.

(** [RuleLine(path, allowance)] *)
Definition new_rule (path : str) (allowance : bool) : result RuleLine :=
  let allowance :=
    if bool_decide (path = []) && negb allowance then true else allowance in
  u ← urllib_parse.urlparse path;
  Ok (mkRuleLine
        (quote (urllib_parse.urlunparse
                  (urllib_parse.scheme u) (urllib_parse.netloc u)
                  (urllib_parse.path u) (urllib_parse.params u)
                  (urllib_parse.query u) (urllib_parse.fragment u)))
        allowance).

(** The state of the loop of [parse]: the parser, the entry being filled
    and the automaton state (0, 1 or 2). *)
Definition parse_state : Type := (RobotFileParser * Entry * Z)%type.

Definition with_rule (e : Entry) (r : RuleLine) : Entry :=
  mkEntry (useragents e) (rulelines e ++ [r]) (delay e) (req_rate e).

Definition parse_line (st : parse_state) (line : str) : result parse_state :=
  let '(p, entry, state) := st in
  let '(p, entry, state) :=
    if negb (urllib_parse.nonempty line) then
      if (state =? 1)%Z then (p, new_entry, 0%Z)
      else if (state =? 2)%Z then (_add_entry p entry, new_entry, 0%Z)
      else (p, entry, state)
    else (p, entry, state) in
  let line := match find_char "#" line with
              | Some i => take i line
              | None => line
              end in
  let line := strip line in
  if negb (urllib_parse.nonempty line) then Ok (p, entry, state)
  else
    match cut ":" line with
    | None => Ok (p, entry, state)
    | Some (key, value) =>
        let key := lower (strip key) in
        let value := unquote (strip value) in
        if bool_decide (key = lit "user-agent") then
          let '(p, entry) :=
            if (state =? 2)%Z then (_add_entry p entry, new_entry)
            else (p, entry) in
          Ok (p,
              mkEntry (useragents entry ++ [value]) (rulelines entry)
                      (delay entry) (req_rate entry),
              1%Z)
        else if bool_decide (key = lit "disallow") then
          if negb (state =? 0)%Z then
            r ← new_rule value false; Ok (p, with_rule entry r, 2%Z)
          else Ok (p, entry, state)
        else if bool_decide (key = lit "allow") then
          if negb (state =? 0)%Z then
            r ← new_rule value true; Ok (p, with_rule entry r, 2%Z)
          else Ok (p, entry, state)
        else if bool_decide (key = lit "crawl-delay") then
          if negb (state =? 0)%Z then
            if isdigit (strip value) then
              d ← py_int value;
              Ok (p,
                  mkEntry (useragents entry) (rulelines entry) (Some d)
                          (req_rate entry),
                  2%Z)
            else Ok (p, entry, 2%Z)
          else Ok (p, entry, state)
        else if bool_decide (key = lit "request-rate") then
          if negb (state =? 0)%Z then
            match split "/" value with
            | [n0; n1] =>
                if isdigit (strip n0) && isdigit (strip n1) then
                  a ← py_int n0;
                  b ← py_int n1;
                  Ok (p,
                      mkEntry (useragents entry) (rulelines entry)
                              (delay entry) (Some (mkRequestRate a b)),
                      2%Z)
                else Ok (p, entry, 2%Z)
            | _ => Ok (p, entry, 2%Z)
            end
          else Ok (p, entry, state)
        else if bool_decide (key = lit "sitemap") then
          Ok (mkParser (entries p) (sitemaps p ++ [value]) (default_entry p)
                       (disallow_all p) (allow_all p) (last_checked p),
              entry, state)
        else Ok (p, entry, state)
    end.

Fixpoint parse_lines (st : parse_state) (lines : list str)
    : result parse_state :=
  match lines with
  | [] => Ok st
  | line :: rest => st' ← parse_line st line; parse_lines st' rest
  end.

(** [RobotFileParser.parse]: [modified()] first, then the lines. *)
Definition parse (p : RobotFileParser) (lines : list str)
    : result RobotFileParser :=
  let p := mkParser (entries p) (sitemaps p) (default_entry p)
                    (disallow_all p) (allow_all p) true in
  st ← parse_lines (p, new_entry, 0%Z) lines;
  let '(p, entry, state) := st in
  Ok (if (state =? 2)%Z then _add_entry p entry else p).

(** [RobotFileParser.can_fetch] *)
Definition can_fetch (p : RobotFileParser) (useragent url : str)
    : result bool :=
  if disallow_all p then Ok false
  else if allow_all p then Ok true
  else if negb (last_checked p) then Ok false
  else
    parsed_url ← urllib_parse.urlparse (unquote url);
    let url :=
      quote (urllib_parse.urlunparse [] []
               (urllib_parse.path parsed_url) (urllib_parse.params parsed_url)
               (urllib_parse.query parsed_url)
               (urllib_parse.fragment parsed_url)) in
    let url := if urllib_parse.nonempty url then url else lit "/" in
    match List.find (fun e => entry_applies_to e useragent) (entries p) with
    | Some e => Ok (entry_allowance e url)
    | None =>
        match default_entry p with
        | Some e => Ok (entry_allowance e url)
        | None => Ok true
        end
    end.

End Quoting.

End robotparser.

(** ** [robots_manager.py] *)

Module robots_manager.
Import pystr.

Record RobotsInfo : Type := mkRobotsInfo {
  url : str;
  parser : robotparser.RobotFileParser;
  raw_text : str;
  crawl_delay : number.number
}.

Record RobotsManager : Type := mkManager {
  _user_agent : str;
  _cache : gmap str RobotsInfo
}.

(** What [self._client.get(robots_url)] does: it raises, or it returns a
    response with a status code and a body. *)
Inductive http_outcome : Type :=
| NetworkError
| Response (status_code : Z) (text : str).

(** [x or 0.0] *)
Definition or_zero (x : option number.number) : number.number :=
  match x with
  | Some n => if number.truth n then n else number.Float float64.zero
  | None => number.Float float64.zero
  end.

(** [RobotsManager._extract_delay]: the delay and the counts of the rate
    are the [int]s the parser read; the division of the rate raises
    [OverflowError] when its result is beyond the floats. *)
Definition _extract_delay (user_agent : str)
    (p : robotparser.RobotFileParser) : result number.number :=
  let delay := robotparser.crawl_delay p user_agent in
  let delay :=
    match delay with
    | None => robotparser.crawl_delay p (lit "*")
    | Some _ => delay
    end in
  let rate := robotparser.request_rate p user_agent in
  let rate :=
    match rate with
    | None => robotparser.request_rate p (lit "*")
    | Some _ => rate
    end in
  rate_delay ←
    match rate with
    | Some r =>
        if negb (robotparser.requests r =? 0)%Z then
          float64.int_truediv (robotparser.seconds r)
                              (Z.max (robotparser.requests r) 1)
        else Ok float64.zero
    | None => Ok float64.zero
    end;
  Ok (number.max (or_zero (number.Int <$> delay))
                 (or_zero (Some (number.Float rate_delay)))).

(** [RobotsManager._build_robots_url] *)
Definition _build_robots_url (origin : str) : result str :=
  parsed ← urllib_parse.urlparse origin;
  let scheme :=
    if urllib_parse.nonempty (urllib_parse.scheme parsed)
    then urllib_parse.scheme parsed else lit "https" in
  Ok (urllib_parse.urlunparse scheme (urllib_parse.netloc parsed)
                              (lit "/robots.txt") [] [] []).

Section Quoting.

Variable unquote : str -> str.
Variable quote : str -> str.

(** [RobotsInfo.can_fetch]; a parser object is always true. *)
Definition can_fetch (info : RobotsInfo) (user_agent target_url : str)
    : result bool :=
  robotparser.can_fetch unquote quote (parser info) user_agent target_url.

(** [RobotsManager._download] *)
Definition _download (user_agent : str) (outcome : http_outcome)
    (robots_url : str) : result RobotsInfo :=
  let text :=
    match outcome with
    | Response status body => if (status =? 200)%Z then body else []
    | NetworkError => []
    end in
  _ ← urllib_parse.urlparse robots_url;
  parser ←
    (if urllib_parse.nonempty text
     then robotparser.parse unquote quote robotparser.new_parser
                            (robotparser.splitlines text)
     else robotparser.parse unquote quote robotparser.new_parser []);
  delay ← _extract_delay user_agent parser;
  Ok (mkRobotsInfo robots_url parser text delay).

(** [RobotsManager._get_info]; [outcome] is what the HTTP client does if it
    is asked. *)
Definition _get_info (outcome : http_outcome) (target : str)
    (m : RobotsManager) : result (option RobotsInfo) * RobotsManager :=
  match utils.domain_key target with
  | Raise e => (Raise e, m)
  | Ok origin =>
      match _cache m !! origin with
      | Some info => (Ok (Some info), m)
      | None =>
          match (robots_url ← _build_robots_url origin;
                 _download (_user_agent m) outcome robots_url) with
          | Raise e => (Raise e, m)
          | Ok info =>
              (Ok (Some info),
               mkManager (_user_agent m) (<[origin := info]> (_cache m)))
          end
      end
  end.

(** [RobotsManager.allowed] *)
Definition allowed (outcome : http_outcome) (target : str) (m : RobotsManager)
    : result (bool * RobotsInfo) * RobotsManager :=
  match _get_info outcome target m with
  | (Raise e, m') => (Raise e, m')
  | (Ok None, m') =>
      (Ok (true, mkRobotsInfo [] robotparser.new_parser []
                              (number.Float float64.zero)), m')
  | (Ok (Some info), m') =>
      match can_fetch info (_user_agent m) target with
      | Raise e => (Raise e, m')
      | Ok b => (Ok (b, info), m')
      end
  end.

End Quoting.

End robots_manager.

(** ** [tab_traversal.py]: formatting and merging of tab blocks *)

Module tab_traversal.
Import pystr.

Record TabMarkdownBlock : Type := mkBlock {
  group_title : str;
  tab_label : str;
  markdown_text : str;
  index : Z;
  group_index : Z;
  links : list str
}.

(** Python's [sorted] with the key [(group_index, index)]: a stable
    insertion sort on the lexicographic order of the pairs. *)
Definition key_le (a b : TabMarkdownBlock) : bool :=
  ((group_index a <? group_index b)
   || ((group_index a =? group_index b) && (index a <=? index b)))%Z.

Fixpoint insert_block (b : TabMarkdownBlock) (l : list TabMarkdownBlock)
    : list TabMarkdownBlock :=
  match l with
  | [] => [b]
  | x :: l' => if key_le b x then b :: l else x :: insert_block b l'
  end.

Definition sorted (blocks : list TabMarkdownBlock) : list TabMarkdownBlock :=
  foldr insert_block [] blocks.

(** [grouped.setdefault(k, []).append(b)] on a dictionary kept in insertion
    order. *)
Fixpoint setdefault_append (k : Z) (b : TabMarkdownBlock)
    (d : list (Z * list TabMarkdownBlock)) : list (Z * list TabMarkdownBlock) :=
  match d with
  | [] => [(k, [b])]
  | (k', v) :: d' =>
      if (k' =? k)%Z then (k', v ++ [b]) :: d'
      else (k', v) :: setdefault_append k b d'
  end.

Definition grouped (blocks : list TabMarkdownBlock)
    : list (Z * list TabMarkdownBlock) :=
  foldl (fun d b => setdefault_append (group_index b) b d) [] (sorted blocks).

Definition newlines : str := [chr 10; chr 10].

(** [TabCapture]; its fields are read through the module, those of the
    blocks being in scope. *)
Module capture.
Record TabCapture : Type := mkCapture {
  group_title : str;
  tab_label : str;
  html : str;
  index : Z;
  group_index : Z;
  text_digest : str
}.
End capture.

(** What [_html_fragment_to_markdown] returns for a fragment: the markdown,
    if any, and the links. *)
Definition conversion : Type := (option str * list str)%type.

(** The part of the loop of [collect_markdown_blocks] that follows the
    conversion: the block appended, if one is. *)
Definition block_of (c : capture.TabCapture) (converted : conversion)
    : option TabMarkdownBlock :=
  let '(markdown, links) := converted in
  let markdown := default [] markdown in
  if negb (urllib_parse.nonempty markdown) && bool_decide (links = [])
  then None
  else
    let markdown := strip markdown in
    if negb (urllib_parse.nonempty markdown) && bool_decide (links = [])
    then None
    else Some (mkBlock (capture.group_title c) (capture.tab_label c) markdown
                       (capture.index c) (capture.group_index c) links).

Definition digest_key (c : capture.TabCapture) : str :=
  capture.group_title c ++ capture.tab_label c ++ capture.text_digest c.

(** The loop of [collect_markdown_blocks]. Each capture comes with what the
    conversion of its fragment gives when it is asked for; it is asked only
    for a capture whose digest key is new. *)
Fixpoint collect_loop (captures : list (capture.TabCapture * conversion))
    (seen : gset str) (blocks : list TabMarkdownBlock)
    : list TabMarkdownBlock :=
  match captures with
  | [] => blocks
  | (c, converted) :: rest =>
      if bool_decide (digest_key c ∈ seen) then collect_loop rest seen blocks
      else
        let seen := seen ∪ {[digest_key c]} in
        match block_of c converted with
        | None => collect_loop rest seen blocks
        | Some b => collect_loop rest seen (blocks ++ [b])
        end
  end.

(** [collect_markdown_blocks]: [page] is [None] when no page could be
    attached to the session, and otherwise holds the captures that
    [_collect_tab_content] returns. *)
Definition collect_markdown_blocks (enabled : bool) (session_id : option str)
    (page : option (list (capture.TabCapture * conversion)))
    : list TabMarkdownBlock :=
  if negb enabled || negb (urllib_parse.nonempty (default [] session_id))
  then []
  else
    match page with
    | None => []
    | Some captures =>
        if bool_decide (captures = []) then []
        else collect_loop captures ∅ []
    end.

(** The hrefs a list of link dictionaries gives: [(link.get("href") or
    "").strip()], kept when not empty. *)
Definition hrefs_of (links : list (gmap str str)) : list str :=
  omap (fun link =>
          let href := strip (default [] (link !! lit "href")) in
          if urllib_parse.nonempty href then Some href else None)
       links.

(** [_collect_links]; the argument is the [links] attribute of the result,
    if it has one. *)
Definition _collect_links (links : option (gmap str (list (gmap str str))))
    : list str :=
  let link_groups := default ∅ links in
  hrefs_of (default [] (link_groups !! lit "internal"))
    ++ hrefs_of (default [] (link_groups !! lit "external")).

(** [_wrap_fragment] *)
Definition _wrap_fragment (html_fragment : option str) : str :=
  let snippet := strip (default [] html_fragment) in
  if negb (urllib_parse.nonempty snippet) then []
  else
    let lowered := lower snippet in
    if contains (lit "<html") lowered && contains (lit "</html") lowered
    then snippet
    else lit "<html><body>" ++ snippet ++ lit "</body></html>".

Section Formatting.

(** [template.format(group=..., label=..., index=..., group_index=...)]:
    [None] when the call raises. *)
Variable format : str -> str -> str -> Z -> Z -> option str.

(** [self._settings.heading_template] *)
Variable heading_template : str.

Definition _heading_for (block : TabMarkdownBlock) : str :=
  let template :=
    if urllib_parse.nonempty heading_template then heading_template
    else lit "#### [Tab: {label}]" in
  let group :=
    if urllib_parse.nonempty (group_title block) then group_title block
    else lit "Tabs" in
  let label :=
    if urllib_parse.nonempty (tab_label block) then tab_label block
    else lit "Tab" in
  match format template group label (index block + 1)%Z
               (group_index block + 1)%Z with
  | Some h => strip h
  | None => lit "#### [Tab: " ++ group ++ lit " - " ++ label ++ lit "]"
  end.

Definition format_block (block : TabMarkdownBlock) : str :=
  _heading_for block ++ newlines ++ strip (markdown_text block).

(** The body of the loop over the groups. *)
Definition merge_group (text : str) (group_blocks : list TabMarkdownBlock)
    : str :=
  let anchor := List.find (fun b => (index b =? 0)%Z) group_blocks in
  let extras := filter (fun b => (0 < index b)%Z) group_blocks in
  if bool_decide (extras = []) then text
  else
    let insertion := join newlines (format_block <$> extras) in
    let appended :=
      if urllib_parse.nonempty text then rstrip text ++ newlines ++ insertion
      else insertion in
    match anchor with
    | Some a =>
        let anchor_text := strip (markdown_text a) in
        if urllib_parse.nonempty anchor_text then
          match find_sub anchor_text text with
          | Some pos =>
              let insert_pos := pos + length anchor_text in
              take insert_pos text ++ newlines ++ insertion
                ++ drop insert_pos text
          | None => appended
          end
        else appended
    | None => appended
    end.

Definition merge_into_markdown (base_markdown : str)
    (blocks : list TabMarkdownBlock) : str :=
  foldl merge_group (strip base_markdown) ((grouped blocks).*2).

End Formatting.

End tab_traversal.

(** ** [crawler_runner.py]: the crawl loop *)

Module crawl_loop.
Import pystr.

(** [_extract_links]: the links of the result, then those of the tab
    blocks. *)
Definition _extract_links (links : option (gmap str (list (gmap str str))))
    (tab_blocks : option (list tab_traversal.TabMarkdownBlock)) : list str :=
  let link_groups := default ∅ links in
  tab_traversal.hrefs_of (default [] (link_groups !! lit "internal"))
    ++ tab_traversal.hrefs_of (default [] (link_groups !! lit "external"))
    ++ (block ← default [] tab_blocks;
        filter (fun href => href ≠ []) (strip <$> tab_traversal.links block)).

(** What [asyncio.gather] holds for one URL of a batch: an exception, the
    links discovered, or something else. *)
Inductive crawl_outcome : Type :=
| Failed
| Discovered (page_url : str) (hrefs : list str)
| Other.

(** The loop of [_drain_queue] over the outcomes of a batch, on the
    queue. An exception of [extend] ends it. *)
Fixpoint absorb (outcomes : list crawl_outcome) (q : crawl_queue.CrawlQueue)
    : result unit * crawl_queue.CrawlQueue :=
  match outcomes with
  | [] => (Ok tt, q)
  | Discovered page_url hrefs :: rest =>
      match crawl_queue.extend hrefs (Some page_url) q with
      | (Raise e, q') => (Raise e, q')
      | (Ok _, q') => absorb rest q'
      end
  | _ :: rest => absorb rest q
  end.

(** [_drain_queue], on the queue and the counter of attempted pages, which
    alone decide how the loop runs; [crawl round url] is what
    [_crawl_single] gives for [url] in the batch of that round. The result
    is [None] when [fuel] rounds were not enough, and otherwise the outcome,
    the queue, the counter, and the URLs crawled in order. *)
Fixpoint _drain_queue (fuel : nat) (crawl : nat -> str -> crawl_outcome)
    (round : nat) (max_pages concurrency : Z) (q : crawl_queue.CrawlQueue)
    (attempted : Z)
    : option (result unit * crawl_queue.CrawlQueue * Z * list str) :=
  match fuel with
  | 0 => None
  | S fuel' =>
      if negb (crawl_queue.pending q =? 0)%Z && (attempted <? max_pages)%Z
      then
        let remaining := (max_pages - attempted)%Z in
        let batch_size := Z.min concurrency remaining in
        let '(urls, q1) := crawl_queue.next_batch batch_size q in
        if bool_decide (urls = []) then Some (Ok tt, q1, attempted, [])
        else
          let attempted := (attempted + Z.of_nat (length urls))%Z in
          match absorb (crawl round <$> urls) q1 with
          | (Raise e, q2) => Some (Raise e, q2, attempted, urls)
          | (Ok _, q2) =>
              match _drain_queue fuel' crawl (S round) max_pages concurrency
                                 q2 attempted with
              | Some (r, q3, attempted', crawled) =>
                  Some (r, q3, attempted', urls ++ crawled)
              | None => None
              end
          end
      else Some (Ok tt, q, attempted, [])
  end.

End crawl_loop.

(** ** Vocabulary of the statements *)

Module spec.
Import pystr.

(** Characters [urlsplit] removes wherever they stand. *)
Definition is_unsafe (c : ascii) : bool :=
  ((ord c =? 9) || (ord c =? 13) || (ord c =? 10))%N.

Definition clean (s : str) : Prop := ∀ c, c ∈ s → is_unsafe c = false.

(** Characters that end a network location. *)
Definition is_delim (c : ascii) : bool := mem_char c (lit "/?#").

Definition no_delims (s : str) : Prop := ∀ c, c ∈ s → is_delim c = false.

(** Where the network location ends: the first delimiter, or the end. *)
Definition delim_index (rest : str) : nat :=
  let f c d := match find_char c rest with
               | Some w => Nat.min d w
               | None => d
               end in
  f "#"%char (f "?"%char (f "/"%char (length rest))).

(** Either nothing, or something that starts with a delimiter. *)
Definition delimited (tail : str) : Prop :=
  match tail with
  | [] => True
  | c :: _ => is_delim c = true
  end.

(** What [urlsplit] does once the scheme is set aside: network location,
    bracket check, fragment, query. *)
Definition urlsplit_rest (sch url : str) : result urllib_parse.ParseResult :=
  let '(nl, url) :=
    if startswith (lit "//") url then urllib_parse._splitnetloc url 2
    else ([], url) in
  if urllib_parse.unbalanced_brackets nl then Raise ValueError
  else
    let '(url, frag) :=
      match cut "#" url with Some p => p | None => (url, []) end in
    let '(url, q) :=
      match cut "?" url with Some p => p | None => (url, []) end in
    Ok (urllib_parse.mkParse sch nl url [] q frag).

(** A scheme as [urlsplit] returns it: a lower-case letter followed by
    scheme characters, none of them upper case. *)
Definition scheme_char_lower (c : ascii) : bool :=
  urllib_parse.is_scheme_char c && negb (is_upper c).

Definition valid_scheme (sch : str) : Prop :=
  match sch with
  | [] => False
  | c0 :: _ => is_lower c0 = true ∧ forallb scheme_char_lower sch = true
  end.

(** The part of a path after its last slash. *)
Definition last_segment (s : str) : str := List.last (split "/" s) [].

(** A path segment that [normpath] keeps. *)
Definition proper_segment (c : str) : Prop :=
  c ≠ [] ∧ c ≠ lit "." ∧ c ≠ lit ".." ∧ "/"%char ∉ c.

(** The shape of a normalized path: one or two slashes, proper segments
    joined by slashes, and a trailing slash only after a segment. *)
Definition normal_path (k : nat) (comps : list str) (trailing : bool)
    : str :=
  concat (replicate k (lit "/")) ++ join (lit "/") comps
    ++ (if trailing then lit "/" else []).

Definition is_normal_path (s : str) : Prop :=
  ∃ k comps trailing,
    s = normal_path k comps trailing
    ∧ (k = 1 ∨ k = 2)
    ∧ Forall proper_segment comps
    ∧ (comps = [] → trailing = false).

(** What [urlsplit] guarantees of the components it returns. *)
Definition parsed_wf (p : urllib_parse.ParseResult) : Prop :=
  (urllib_parse.scheme p = [] ∨ valid_scheme (urllib_parse.scheme p))
  ∧ clean (urllib_parse.netloc p)
  ∧ no_delims (urllib_parse.netloc p)
  ∧ urllib_parse.unbalanced_brackets (urllib_parse.netloc p) = false
  ∧ clean (urllib_parse.path p)
  ∧ "?"%char ∉ urllib_parse.path p
  ∧ "#"%char ∉ urllib_parse.path p
  ∧ clean (urllib_parse.query p)
  ∧ "#"%char ∉ urllib_parse.query p.

(** The sanitization of a segment as the specification words it: runs of
    characters outside [A-Za-z0-9_.-] become a hyphen, leading and trailing
    separators are trimmed, and what is empty becomes "index". *)
Definition sanitize_as_specified (segment : str) : str :=
  let s := strip_chars (lit "-._") (utils._SANITIZE_RE_sub segment) in
  if urllib_parse.nonempty s then s else lit "index".

(** The eight characters appended for a query. *)
Definition query_digest (query : str) : str :=
  take 8 (hashlib.md5_hexdigest (hashlib.encode_utf8 query)).

(** The components the output path adds below the base directory, for a
    given sanitization: the host, every path segment but the last, and the
    file name made of the last segment (or "index"), the digest of the
    query if there is one, and the extension. *)
Definition markdown_parts (slug : str → str) (host path query : str)
    : list str :=
  let segments := filter (fun seg => seg ≠ []) (split "/" path) in
  (slug <$> host :: removelast segments)
    ++ [slug (List.last segments (lit "index"))
        ++ (if urllib_parse.nonempty query
            then lit "-" ++ query_digest query else [])
        ++ lit ".md"].

(** The separators [_slugify] trims from both ends. *)
Definition is_separator (c : ascii) : bool := mem_char c (lit "-._").

(** The characters a sanitized name is made of. *)
Definition is_name_char (c : ascii) : bool :=
  is_lower c || is_digit c || is_separator c.

Definition is_hex_char (c : ascii) : bool :=
  is_digit c || in_range 97 102 c.

(** A name that adds exactly one component to a path. *)
Definition safe_name (s : str) : Prop :=
  s ≠ [] ∧ s ≠ lit "." ∧ "/"%char ∉ s.

(** The frontier is consistent: nothing is pending twice, [_queued] mirrors
    [_pending], and nothing queued has been handed out. *)
Definition queue_inv (q : crawl_queue.CrawlQueue) : Prop :=
  NoDup (crawl_queue._pending q)
  ∧ (∀ u, u ∈ crawl_queue._queued q ↔ u ∈ crawl_queue._pending q)
  ∧ crawl_queue._queued q ## crawl_queue._seen q.

(** The robots delay a call is given, as a float: zero when there is none
    or when it is zero, and no float when it is an integer beyond their
    range. *)
Definition robots_value (robots_delay : option number.number)
    : result float64.float :=
  match robots_delay with
  | None => Ok float64.zero
  | Some (number.Int z) => float64.of_int z
  | Some (number.Float f) =>
      Ok (if float64.eqb f float64.zero then float64.zero else f)
  end.




(** A number that is not negative. *)
Definition nonneg (n : number.number) : Prop :=
  match n with
  | number.Int z => (0 ≤ z)%Z
  | number.Float f => float64.leb float64.zero f = true
  end.

(** [a <= b] between an [int] and a [float], by value. *)
Definition number_le (a b : number.number) : Prop :=
  match a, b with
  | number.Int x, number.Int y => (x ≤ y)%Z
  | number.Float x, number.Float y => float64.leb x y = true
  | number.Int x, number.Float y =>
      float64.compare_int x y = Some Lt ∨ float64.compare_int x y = Some Eq
  | number.Float x, number.Int y =>
      float64.compare_int y x = Some Gt ∨ float64.compare_int y x = Some Eq
  end.

(** [v] is the greater of [a] and [b]. *)
Definition is_maximum (a b v : number.number) : Prop :=
  (v = a ∨ v = b) ∧ number_le a v ∧ number_le b v.

(** The download of robots.txt gives nothing: the client raised, or the
    status is not 200, or the body is empty. *)
Definition download_failed (outcome : robots_manager.http_outcome) : Prop :=
  match outcome with
  | robots_manager.NetworkError => True
  | robots_manager.Response status body => status ≠ 200%Z ∨ body = []
  end.

(** The name a section is matched against: what precedes the first slash
    of the agent, in lower case. *)
Definition agent_name (useragent : str) : str :=
  lower (hd [] (split "/" useragent)).

(** A section applies to an agent when one of its User-agent values is the
    wildcard or occurs, case apart, in the name of the agent; the empty
    value occurs in every name. *)
Definition applies (e : robotparser.Entry) (useragent : str) : Prop :=
  ∃ a, a ∈ robotparser.useragents e
       ∧ (a = lit "*"
          ∨ ∃ pre post, agent_name useragent = pre ++ lower a ++ post).

(** The section an agent is answered from: the first section that applies
    to it among those that do not name the wildcard, and the wildcard
    section when none does. *)
Inductive section_for (p : robotparser.RobotFileParser) (useragent : str)
    : option robotparser.Entry → Prop :=
| section_own (before after : list robotparser.Entry)
    (e : robotparser.Entry) :
    robotparser.entries p = before ++ e :: after →
    Forall (fun e' => ¬ applies e' useragent) before →
    applies e useragent →
    section_for p useragent (Some e)
| section_wildcard :
    Forall (fun e' => ¬ applies e' useragent) (robotparser.entries p) →
    section_for p useragent (robotparser.default_entry p).

(** The caller's own value when present, otherwise the wildcard's. *)
Definition with_fallback {A : Type} (own wildcard : option A) : option A :=
  match own with
  | Some v => Some v
  | None => wildcard
  end.

(** An explicit crawl delay in seconds; a missing one, or one of zero,
    counts as [0.0]. *)
Definition delay_seconds (d : option Z) : number.number :=
  match d with
  | Some z => if (z =? 0)%Z then number.Float float64.zero else number.Int z
  | None => number.Float float64.zero
  end.

(** The delay a request rate asks for, seconds divided by requests; a
    missing rate, or one of no requests, counts as [0.0], and so does a
    quotient that rounds to zero. No float when the quotient is beyond
    their range. *)
Definition rate_seconds (r : option robotparser.RequestRate)
    : result float64.float :=
  match r with
  | Some r =>
      if (robotparser.requests r =? 0)%Z then Ok float64.zero
      else
        q ← float64.int_truediv (robotparser.seconds r)
                                (robotparser.requests r);
        Ok (if float64.eqb q float64.zero then float64.zero else q)
  | None => Ok float64.zero
  end.

(** What parsing guarantees of an entry: counts are not negative. *)
Definition entry_wf (e : robotparser.Entry) : Prop :=
  ∀ r, robotparser.req_rate e = Some r →
       (0 ≤ robotparser.requests r)%Z ∧ (0 ≤ robotparser.seconds r)%Z.

Definition parser_wf (p : robotparser.RobotFileParser) : Prop :=
  robotparser.last_checked p = true
  ∧ Forall entry_wf (robotparser.entries p)
  ∧ (∀ e, robotparser.default_entry p = Some e → entry_wf e).

(** [needle] occurs in [hay] between [pre] and [post], and nowhere
    further left. *)
Definition first_occurrence (needle hay pre post : str) : Prop :=
  hay = pre ++ needle ++ post
  ∧ ∀ pre' post', hay = pre' ++ needle ++ post' → length pre ≤ length pre'.

Definition occurs (needle hay : str) : Prop :=
  ∃ pre post, hay = pre ++ needle ++ post.

Section Merge.

Variable format : str → str → str → Z → Z → option str.
Variable heading_template : str.

(** The anchor of a group, its extras, and the text the extras become. *)
Definition anchor_of (g : list tab_traversal.TabMarkdownBlock)
    : option tab_traversal.TabMarkdownBlock :=
  List.find (fun b => (tab_traversal.index b =? 0)%Z) g.

Definition extras_of (g : list tab_traversal.TabMarkdownBlock)
    : list tab_traversal.TabMarkdownBlock :=
  filter (fun b => (0 < tab_traversal.index b)%Z) g.

Definition insertion_of (g : list tab_traversal.TabMarkdownBlock) : str :=
  join tab_traversal.newlines
       (tab_traversal.format_block format heading_template <$> extras_of g).

Definition anchor_text (a : tab_traversal.TabMarkdownBlock) : str :=
  strip (tab_traversal.markdown_text a).

(** What one group does to the document as it stands. *)
Inductive group_effect (text : str)
    (g : list tab_traversal.TabMarkdownBlock) : str → Prop :=
| effect_none :
    extras_of g = [] →
    group_effect text g text
| effect_insert (a : tab_traversal.TabMarkdownBlock) (pre post : str) :
    extras_of g ≠ [] →
    anchor_of g = Some a →
    anchor_text a ≠ [] →
    first_occurrence (anchor_text a) text pre post →
    group_effect text g
      (pre ++ anchor_text a ++ tab_traversal.newlines ++ insertion_of g
           ++ post)
| effect_append :
    extras_of g ≠ [] →
    (∀ a, anchor_of g = Some a →
          anchor_text a = [] ∨ ¬ occurs (anchor_text a) text) →
    group_effect text g
      (if bool_decide (text = []) then insertion_of g
       else rstrip text ++ tab_traversal.newlines ++ insertion_of g).

(** The groups take effect one after the other. *)
Inductive merge_trace
    : str → list (list tab_traversal.TabMarkdownBlock) → str → Prop :=
| trace_nil (text : str) : merge_trace text [] text
| trace_cons (text text' text'' : str)
    (g : list tab_traversal.TabMarkdownBlock)
    (gs : list (list tab_traversal.TabMarkdownBlock)) :
    group_effect text g text' →
    merge_trace text' gs text'' →
    merge_trace text (g :: gs) text''.

End Merge.

(** What [template.format] returns for the default template
    ["#### [Tab: {group} - {label}]"]. *)
Definition default_heading : str → str → str → Z → Z → option str :=
  fun _ group label _ _ =>
    Some (lit "#### [Tab: " ++ group ++ lit " - " ++ label ++ lit "]").

(** The groups in the order they are merged. *)
Definition groups_of (blocks : list tab_traversal.TabMarkdownBlock)
    : list (list tab_traversal.TabMarkdownBlock) :=
  (tab_traversal.grouped blocks).*2.

Definition has_key (k i : Z) (b : tab_traversal.TabMarkdownBlock) : Prop :=
  tab_traversal.group_index b = k ∧ tab_traversal.index b = i.

(** [ordered] is [blocks] in ascending order of (group index, tab index),
    blocks of equal indices keeping their order. *)
Definition stable_order (blocks ordered : list tab_traversal.TabMarkdownBlock)
    : Prop :=
  ordered ≡ₚ blocks
  ∧ StronglySorted (fun a b => tab_traversal.key_le a b = true) ordered
  ∧ ∀ k i, filter (has_key k i) ordered = filter (has_key k i) blocks.

(** The dictionary built so far holds, under each group index met among
    [processed], the blocks of that index. *)
Definition grouped_upto (processed : list tab_traversal.TabMarkdownBlock)
    (d : list (Z * list tab_traversal.TabMarkdownBlock)) : Prop :=
  NoDup d.*1
  ∧ (∀ b, b ∈ processed → tab_traversal.group_index b ∈ d.*1)
  ∧ Forall
      (fun kv =>
         kv.2 ≠ []
         ∧ kv.2 = filter (fun b => tab_traversal.group_index b = kv.1)
                         processed)
      d.

(** [groups] partitions [blocks]: one group per group index that occurs,
    in ascending order of the index, each with its blocks in stable
    order. *)
Definition is_grouping (blocks : list tab_traversal.TabMarkdownBlock)
    (groups : list (list tab_traversal.TabMarkdownBlock)) : Prop :=
  ∃ (keys : list Z) (ordered : list tab_traversal.TabMarkdownBlock),
    stable_order blocks ordered
    ∧ StronglySorted Z.lt keys
    ∧ (∀ b, b ∈ blocks → tab_traversal.group_index b ∈ keys)
    ∧ Forall2
        (fun k g =>
           g ≠ []
           ∧ g = filter (fun b => tab_traversal.group_index b = k) ordered)
        keys groups.

(** The path of the parent URL, as [derive_parent_url] computes it from a
    normalized path. *)
Definition parent_path (path : str) : str :=
  let parent_path := posixpath.dirname (rstrip_chars (lit "/") path) in
  let parent_path :=
    if negb (startswith (lit "/") parent_path)
    then lit "/" ++ parent_path else parent_path in
  if negb (bool_decide (parent_path = lit "/"))
  then parent_path ++ lit "/" else parent_path.

(** No cached robots entry asks for a negative delay. *)
Definition cache_nonneg (m : robots_manager.RobotsManager) : Prop :=
  ∀ origin info,
    robots_manager._cache m !! origin = Some info →
    nonneg (robots_manager.crawl_delay info).

(** *** Binary64 rounding *)

(** [y] holds the mantissa of [x] moved [k] bits to the right, and its two
    flags are off when [x] had them off and no bit was lost. *)
Definition shifted (k : Z) (x y : shr_record) : Prop :=
  (shr_m y = shr_m x / 2 ^ k)%Z
  ∧ ((shr_m x mod 2 ^ k = 0)%Z → shr_r x = false → shr_s x = false →
     shr_r y = false ∧ shr_s y = false).




(** A result that carries the sign [s]. *)
Definition signed (s : bool) (r : spec_float) : Prop :=
  match r with
  | S754_zero s' | S754_finite s' _ _ | S754_infinity s' => s' = s
  | S754_nan => False
  end.

(** The comparison of two floats comes down to comparing exponents and
    mantissas. *)
Ltac cmp_cases :=
  repeat match goal with
  | H : context [Pos.compare_cont Eq ?a ?b] |- _ =>
      change (Pos.compare_cont Eq a b) with (Pos.compare a b) in H
  | |- context [Pos.compare_cont Eq ?a ?b] =>
      change (Pos.compare_cont Eq a b) with (Pos.compare a b)
  end;
  repeat match goal with
  | H : context [Z.compare ?a ?b] |- _ =>
      destruct (Z.compare_spec a b); simpl in H; try done; try lia
  | H : context [Pos.compare ?a ?b] |- _ =>
      destruct (Pos.compare_spec a b); simpl in H; try done; try lia
  | |- context [Z.compare ?a ?b] =>
      destruct (Z.compare_spec a b); simpl; try done; try lia
  | |- context [Pos.compare ?a ?b] =>
      destruct (Pos.compare_spec a b); simpl; try done; try lia
  end.

(** A statement about one character is settled by going through all of
    them. *)
Ltac all_chars c :=
  destruct c as [[] [] [] [] [] [] [] []]; vm_compute; try done.

End spec.

(* ===================================================================== *)
(** * Properties *)
(* ===================================================================== *)

(** ** Exceptions *)

Lemma bind_Ok {A B : Type} (a : A) (k : A → result B) :
  (Ok a ≫= k) = k a.
Proof. reflexivity. Qed.

Lemma bind_Raise {A B : Type} (e : exn) (k : A → result B) :
  (Raise e ≫= k) = Raise e.
Proof. reflexivity. Qed.

Lemma bind_Ok_inv {A B : Type} (m : result A) (k : A → result B) (b : B) :
  (m ≫= k) = Ok b → ∃ a, m = Ok a ∧ k a = Ok b.
Proof. destruct m as [a|e]; [by exists a|done]. Qed.

(** ** Strings *)

Module pystr_facts.
Import pystr.

Lemma eqb_eq (a b : ascii) : Ascii.eqb a b = true ↔ a = b.
Proof. apply Ascii.eqb_eq. Qed.

Lemma eqb_refl (a : ascii) : Ascii.eqb a a = true.
Proof. by apply Ascii.eqb_eq. Qed.

Lemma nonempty_true (s : str) : urllib_parse.nonempty s = true ↔ s ≠ [].
Proof. by destruct s. Qed.

Lemma nonempty_false (s : str) : urllib_parse.nonempty s = false ↔ s = [].
Proof. by destruct s. Qed.

Lemma startswith_app (p t : str) : startswith p (p ++ t) = true.
Proof.
  induction p as [|a p IH]; simpl; [done|]. by rewrite eqb_refl, IH.
Qed.

Lemma startswith_true (p s : str) :
  startswith p s = true ↔ ∃ t, s = p ++ t.
Proof.
  split.
  - revert s. induction p as [|a p IH]; intros s H; simpl in *.
    + by exists s.
    + destruct s as [|b s]; [done|].
      apply andb_true_iff in H as [Hab H]. apply eqb_eq in Hab as ->.
      destruct (IH s H) as [t ->]. by exists t.
  - intros [t ->]. apply startswith_app.
Qed.

(** [find_sub] returns the leftmost occurrence. *)
Lemma find_sub_Some (sub s : str) (n : nat) :
  find_sub sub s = Some n →
  ∃ pre post,
    s = pre ++ sub ++ post ∧ length pre = n
    ∧ ∀ pre' post', s = pre' ++ sub ++ post' → n ≤ length pre'.
Proof.
  revert n. induction s as [|c s IH]; intros n; simpl.
  - destruct (startswith sub []) eqn:Hs; [|done].
    intros [= <-]. apply startswith_true in Hs as [t Ht].
    exists [], t. split; [done|]. split; [done|]. intros; lia.
  - destruct (startswith sub (c :: s)) eqn:Hs.
    + intros [= <-]. apply startswith_true in Hs as [t Ht].
      exists [], t. split; [done|]. split; [done|]. intros; lia.
    + destruct (find_sub sub s) as [m|] eqn:Hm; [|done].
      simpl. intros [= <-].
      destruct (IH m eq_refl) as (pre & post & H1 & H2 & H3).
      exists (c :: pre), post. split; [by rewrite H1|].
      split; [by rewrite <- H2|].
      intros [|c' pre'] post' Hpre.
      * exfalso. simpl in Hpre.
        assert (startswith sub (c :: s) = true) as Hst
          by (rewrite Hpre; apply startswith_app).
        congruence.
      * simpl in *. injection Hpre as -> Hpre.
        specialize (H3 pre' post' Hpre). lia.
Qed.

Lemma find_sub_None (sub s : str) :
  find_sub sub s = None → ∀ pre post, s ≠ pre ++ sub ++ post.
Proof.
  induction s as [|c s IH]; simpl.
  - destruct (startswith sub []) eqn:Hs; [done|]. intros _ pre post Heq.
    symmetry in Heq. apply app_eq_nil in Heq as [-> Heq].
    apply app_eq_nil in Heq as [-> _]. done.
  - destruct (startswith sub (c :: s)) eqn:Hs; [done|].
    destruct (find_sub sub s) as [m|] eqn:Hm; [done|]. intros _.
    intros [|c' pre] post Heq.
    + simpl in Heq. rewrite Heq, startswith_app in Hs. done.
    + simpl in Heq. injection Heq as -> Heq. by apply (IH eq_refl pre post).
Qed.

End pystr_facts.

(** ** Searching, cutting, splitting *)

Module pystr_search.
Import pystr pystr_facts.

Lemma mem_char_true (c : ascii) (s : str) : mem_char c s = true ↔ c ∈ s.
Proof.
  unfold mem_char. rewrite existsb_exists. split.
  - intros (x & Hx & Heq). apply eqb_eq in Heq as ->.
    by apply list_elem_of_In.
  - intros H. exists c. split; [by apply list_elem_of_In|apply eqb_refl].
Qed.

Lemma mem_char_false (c : ascii) (s : str) : mem_char c s = false ↔ c ∉ s.
Proof.
  rewrite <- mem_char_true. destruct (mem_char c s); split; try done.
Qed.

Lemma find_char_None (c : ascii) (s : str) : find_char c s = None ↔ c ∉ s.
Proof.
  induction s as [|x s IH]; simpl.
  { split; [intros _; apply not_elem_of_nil|done]. }
  destruct (Ascii.eqb x c) eqn:Hx.
  - apply eqb_eq in Hx as ->. split; [done|].
    intros H. destruct H. apply list_elem_of_here.
  - apply Ascii.eqb_neq in Hx. rewrite not_elem_of_cons, <- IH.
    destruct (find_char c s); simpl; split; try done.
    by intros [_ ?].
Qed.

Lemma find_char_app (c : ascii) (pre post : str) :
  c ∉ pre → find_char c (pre ++ c :: post) = Some (length pre).
Proof.
  induction pre as [|x pre IH]; simpl; intros H.
  { by rewrite eqb_refl. }
  apply not_elem_of_cons in H as [Hx H].
  destruct (Ascii.eqb x c) eqn:Hxc; [by apply eqb_eq in Hxc|].
  by rewrite IH.
Qed.

Lemma find_char_Some (c : ascii) (s : str) (i : nat) :
  find_char c s = Some i →
  ∃ pre post, s = pre ++ c :: post ∧ c ∉ pre ∧ length pre = i.
Proof.
  revert i. induction s as [|x s IH]; intros i; simpl; [done|].
  destruct (Ascii.eqb x c) eqn:Hx.
  - apply eqb_eq in Hx as ->. intros [= <-]. exists [], s.
    split; [done|]. split; [apply not_elem_of_nil|done].
  - apply Ascii.eqb_neq in Hx.
    destruct (find_char c s) as [j|]; simpl; [|done]. intros [= <-].
    destruct (IH j eq_refl) as (pre & post & -> & Hpre & <-).
    exists (x :: pre), post. split; [done|]. split; [|done].
    apply not_elem_of_cons. by split.
Qed.

Lemma cut_None (c : ascii) (s : str) : cut c s = None ↔ c ∉ s.
Proof.
  unfold cut. rewrite <- find_char_None. by destruct (find_char c s).
Qed.

Lemma cut_app (c : ascii) (pre post : str) :
  c ∉ pre → cut c (pre ++ c :: post) = Some (pre, post).
Proof.
  intros H. unfold cut. rewrite find_char_app by done. simpl.
  rewrite take_app_length.
  replace (S (length pre)) with (length (pre ++ [c]))
    by (rewrite length_app; simpl; lia).
  replace (pre ++ c :: post) with ((pre ++ [c]) ++ post)
    by (by rewrite <- app_assoc).
  by rewrite drop_app_length.
Qed.

Lemma cut_Some (c : ascii) (s a b : str) :
  cut c s = Some (a, b) → s = a ++ c :: b ∧ c ∉ a.
Proof.
  unfold cut. destruct (find_char c s) as [i|] eqn:Hf; simpl; [|done].
  apply find_char_Some in Hf as (pre & post & -> & Hpre & <-).
  rewrite take_app_length.
  replace (S (length pre)) with (length (pre ++ [c]))
    by (rewrite length_app; simpl; lia).
  replace (pre ++ c :: post) with ((pre ++ [c]) ++ post)
    by (by rewrite <- app_assoc).
  rewrite drop_app_length. intros [= <- <-]. by rewrite <- app_assoc.
Qed.

Lemma remove_char_id (c : ascii) (s : str) : c ∉ s → remove_char c s = s.
Proof.
  unfold remove_char, str in *.
  induction s as [|x s IH]; intros H; [done|].
  apply not_elem_of_cons in H as [Hx H].
  rewrite filter_cons, decide_True by done. by rewrite IH.
Qed.

Lemma remove_char_elem (c x : ascii) (s : str) :
  x ∈ remove_char c s ↔ x ∈ s ∧ x ≠ c.
Proof. unfold remove_char. rewrite list_elem_of_filter. tauto. Qed.

Lemma lstrip_by_id (p : ascii → bool) (c : ascii) (s : str) :
  p c = false → lstrip_by p (c :: s) = c :: s.
Proof. intros H. simpl. by rewrite H. Qed.

Lemma lstrip_by_suffix (p : ascii → bool) (s : str) :
  ∃ pre, s = pre ++ lstrip_by p s.
Proof.
  induction s as [|c s [pre IH]]; simpl; [by exists []|].
  destruct (p c); [|by exists []].
  exists (c :: pre). simpl. by rewrite <- IH.
Qed.

Lemma elem_of_rev {A : Type} (x : A) (l : list A) : x ∈ rev l ↔ x ∈ l.
Proof. rewrite !list_elem_of_In. symmetry. apply in_rev. Qed.

(** *** [split] and [join] *)

Lemma split_nonempty (c : ascii) (s : str) : split c s ≠ [].
Proof.
  destruct s as [|x s]; simpl; [done|].
  destruct (Ascii.eqb x c); [done|]. by destruct (split c s).
Qed.

Lemma split_no_sep (c : ascii) (s : str) : c ∉ s → split c s = [s].
Proof.
  induction s as [|x s IH]; intros H; simpl; [done|].
  apply not_elem_of_cons in H as [Hx H].
  destruct (Ascii.eqb x c) eqn:Hxc; [by apply eqb_eq in Hxc|].
  by rewrite IH.
Qed.

Lemma split_cons_sep (c : ascii) (s : str) :
  split c (c :: s) = [] :: split c s.
Proof. simpl. by rewrite eqb_refl. Qed.

Lemma split_app (c : ascii) (x y : str) :
  split c (x ++ c :: y) = split c x ++ split c y.
Proof.
  induction x as [|a x IH]; simpl.
  { by rewrite eqb_refl. }
  destruct (Ascii.eqb a c); [by rewrite IH|].
  rewrite IH. pose proof (split_nonempty c x).
  by destruct (split c x).
Qed.

(** The pieces hold no separator. *)
Lemma split_pieces (c : ascii) (s : str) : Forall (fun p => c ∉ p) (split c s).
Proof.
  induction s as [|x s IH]; simpl.
  { constructor; [apply not_elem_of_nil|constructor]. }
  destruct (Ascii.eqb x c) eqn:Hx.
  - constructor; [apply not_elem_of_nil|done].
  - apply Ascii.eqb_neq in Hx.
    destruct (split c s) as [|h t]; [repeat constructor|].
    + apply not_elem_of_cons. split; [done|apply not_elem_of_nil].
    + apply Forall_cons in IH as [Hh Ht]. constructor; [|done].
      apply not_elem_of_cons. split; [done|done].
Qed.

(** The characters of the pieces are characters of the string. *)
Lemma split_elem (c : ascii) (s p : str) (x : ascii) :
  p ∈ split c s → x ∈ p → x ∈ s.
Proof.
  revert p. induction s as [|a s IH]; intros p; simpl.
  { intros Hp. apply list_elem_of_singleton in Hp as ->. done. }
  destruct (Ascii.eqb a c).
  - intros Hp Hx. apply elem_of_cons in Hp as [->|Hp].
    + by apply not_elem_of_nil in Hx.
    + apply list_elem_of_further. by eapply IH.
  - destruct (split c s) as [|h t] eqn:Hs.
    + intros Hp Hx. apply list_elem_of_singleton in Hp as ->.
      apply list_elem_of_singleton in Hx as ->. apply list_elem_of_here.
    + intros Hp Hx. apply elem_of_cons in Hp as [->|Hp].
      * apply elem_of_cons in Hx as [->|Hx]; [apply list_elem_of_here|].
        apply list_elem_of_further. apply (IH h); [apply list_elem_of_here|done].
      * apply list_elem_of_further. apply (IH p); [|done].
        by apply list_elem_of_further.
Qed.

Lemma join_cons (sep p : str) (ps : list str) :
  ps ≠ [] → join sep (p :: ps) = p ++ sep ++ join sep ps.
Proof. by destruct ps. Qed.

(** The characters of a joined string come from the parts or the
    separator. *)
Lemma join_elem (sep : str) (ps : list str) (x : ascii) :
  x ∈ join sep ps → x ∈ sep ∨ ∃ p, p ∈ ps ∧ x ∈ p.
Proof.
  induction ps as [|p ps IH]; simpl.
  { intros H. by apply not_elem_of_nil in H. }
  destruct ps as [|p' ps].
  - intros H. right. exists p. split; [apply list_elem_of_here|done].
  - rewrite !elem_of_app. intros [H|[H|H]].
    + right. exists p. split; [apply list_elem_of_here|done].
    + by left.
    + destruct (IH H) as [?|(q & Hq & Hx)]; [by left|].
      right. exists q. split; [by apply list_elem_of_further|done].
Qed.

End pystr_search.

(** ** Characters *)

Module char_facts.
Import pystr spec.

Lemma lower_char_idem (c : ascii) : lower_char (lower_char c) = lower_char c.
Proof. all_chars c. Qed.

Lemma lower_idem (s : str) : lower (lower s) = lower s.
Proof.
  unfold lower. rewrite <- list_fmap_compose. apply list_fmap_ext.
  intros i c _. apply lower_char_idem.
Qed.

(** Lower-casing neither creates nor removes the characters the parser
    looks for. *)
Lemma lower_char_unsafe (c : ascii) : is_unsafe (lower_char c) = is_unsafe c.
Proof. all_chars c. Qed.

Lemma lower_char_delim (c : ascii) : is_delim (lower_char c) = is_delim c.
Proof. all_chars c. Qed.

Lemma lower_char_eqb_open (c : ascii) :
  Ascii.eqb "["%char (lower_char c) = Ascii.eqb "["%char c.
Proof. all_chars c. Qed.

Lemma lower_char_eqb_close (c : ascii) :
  Ascii.eqb "]"%char (lower_char c) = Ascii.eqb "]"%char c.
Proof. all_chars c. Qed.

Lemma scheme_char_lower_facts (c : ascii) :
  scheme_char_lower c = true →
  lower_char c = c ∧ c ≠ ":"%char ∧ is_unsafe c = false
  ∧ urllib_parse.is_scheme_char c = true.
Proof. all_chars c. Qed.

Lemma is_lower_facts (c : ascii) :
  is_lower c = true →
  is_ascii_alpha c = true ∧ urllib_parse.is_c0_or_space c = false.
Proof. all_chars c. Qed.

Lemma lower_scheme_char (c : ascii) :
  urllib_parse.is_scheme_char c = true → scheme_char_lower (lower_char c) = true.
Proof. all_chars c. Qed.

Lemma lower_alpha (c : ascii) :
  is_ascii_alpha c = true → is_lower (lower_char c) = true.
Proof. all_chars c. Qed.

Lemma is_delim_cases (c : ascii) :
  is_delim c = false →
  Ascii.eqb c "/"%char = false ∧ Ascii.eqb c "?"%char = false
  ∧ Ascii.eqb c "#"%char = false.
Proof. all_chars c. Qed.

Lemma is_delim_true (c : ascii) :
  is_delim c = true → c = "/"%char ∨ c = "?"%char ∨ c = "#"%char.
Proof. all_chars c; tauto. Qed.

End char_facts.

(** ** Parsing URLs *)

Module urllib_facts.
Import pystr pystr_facts pystr_search char_facts urllib_parse spec.

Lemma elem_of_take_1 {A : Type} (n : nat) (l : list A) (x : A) :
  x ∈ take n l → x ∈ l.
Proof.
  intros H. rewrite <- (take_drop n l). apply elem_of_app. by left.
Qed.

Lemma elem_of_drop_1 {A : Type} (n : nat) (l : list A) (x : A) :
  x ∈ drop n l → x ∈ l.
Proof.
  intros H. rewrite <- (take_drop n l). apply elem_of_app. by right.
Qed.

Lemma clean_app (a b : str) : clean (a ++ b) ↔ clean a ∧ clean b.
Proof.
  unfold clean. split.
  - intros H. split; intros c Hc; apply H, elem_of_app; tauto.
  - intros [Ha Hb] c Hc. apply elem_of_app in Hc as [Hc|Hc]; auto.
Qed.

Lemma clean_incl (a b : str) : (∀ c, c ∈ a → c ∈ b) → clean b → clean a.
Proof. unfold clean. auto. Qed.

Lemma clean_lit_check (s : str) : forallb (fun c => negb (is_unsafe c)) s = true → clean s.
Proof.
  intros H c Hc. rewrite forallb_forall in H.
  apply list_elem_of_In in Hc. specialize (H c Hc).
  by destruct (is_unsafe c).
Qed.

Lemma remove_unsafe_clean (s : str) : clean (remove_unsafe s).
Proof.
  intros c Hc. unfold remove_unsafe in Hc.
  apply remove_char_elem in Hc as [Hc H10].
  apply remove_char_elem in Hc as [Hc H13].
  apply remove_char_elem in Hc as [Hc H9].
  unfold is_unsafe.
  destruct (ord c =? 9)%N eqn:E9.
  { apply N.eqb_eq in E9. destruct H9. unfold ord in E9.
    rewrite <- (ascii_N_embedding c), E9. done. }
  destruct (ord c =? 13)%N eqn:E13.
  { apply N.eqb_eq in E13. destruct H13. unfold ord in E13.
    rewrite <- (ascii_N_embedding c), E13. done. }
  destruct (ord c =? 10)%N eqn:E10; [|done].
  apply N.eqb_eq in E10. destruct H10. unfold ord in E10.
  rewrite <- (ascii_N_embedding c), E10. done.
Qed.

Lemma remove_unsafe_id (s : str) : clean s → remove_unsafe s = s.
Proof.
  intros H. unfold remove_unsafe.
  assert (Hn : ∀ n, (n = 9 ∨ n = 13 ∨ n = 10)%N → chr n ∉ s).
  { intros n Hn Hin. specialize (H _ Hin).
    destruct Hn as [-> | [-> | ->]]; vm_compute in H; done. }
  rewrite (remove_char_id (chr 9)) by (apply Hn; tauto).
  rewrite (remove_char_id (chr 13)) by (apply Hn; tauto).
  apply remove_char_id, Hn. tauto.
Qed.

(** *** The network location *)

Lemma delim_index_cons_delim (c : ascii) (rest : str) :
  is_delim c = true → delim_index (c :: rest) = 0.
Proof.
  intros H. apply is_delim_true in H as [-> | [-> | ->]];
    unfold delim_index; simpl;
    repeat (destruct (find_char _ rest); simpl); lia.
Qed.

Lemma delim_index_cons_other (c : ascii) (rest : str) :
  is_delim c = false → delim_index (c :: rest) = S (delim_index rest).
Proof.
  intros H. apply is_delim_cases in H as (H1 & H2 & H3).
  unfold delim_index. simpl. rewrite H1, H2, H3.
  repeat (destruct (find_char _ rest); simpl); lia.
Qed.

Lemma delim_index_spec (rest : str) :
  no_delims (take (delim_index rest) rest)
  ∧ delimited (drop (delim_index rest) rest).
Proof.
  induction rest as [|c rest [IH1 IH2]].
  { split; [|done]. intros c Hc. by apply not_elem_of_nil in Hc. }
  destruct (is_delim c) eqn:Hc.
  - rewrite delim_index_cons_delim by done. simpl. split; [|done].
    intros x Hx. by apply not_elem_of_nil in Hx.
  - rewrite delim_index_cons_other by done. simpl. split; [|done].
    intros x Hx. apply elem_of_cons in Hx as [->|Hx]; [done|by apply IH1].
Qed.

Lemma _splitnetloc_eq (rest : str) :
  _splitnetloc ("/"%char :: "/"%char :: rest) 2
  = (take (delim_index rest) rest, drop (delim_index rest) rest).
Proof.
  unfold _splitnetloc, delim_index, find_char_from.
  cbn [foldl lit list_ascii_of_string drop length].
  rewrite !drop_0.
  destruct (find_char "/" rest) as [a|], (find_char "?" rest) as [b|],
    (find_char "#" rest) as [c|]; cbn [fmap option_fmap option_map];
  match goal with
  | |- (take ?x _, drop ?y _) = (take ?d _, drop ?d _) =>
      replace x with d by lia; replace y with (S (S d)) by lia
  end; reflexivity.
Qed.

Lemma delimited_unique (a b x y : str) :
  no_delims a → no_delims b → delimited x → delimited y →
  a ++ x = b ++ y → a = b ∧ x = y.
Proof.
  revert b. induction a as [|c a IH]; intros b Ha Hb Hx Hy Heq.
  - destruct b as [|c' b]; [done|]. simpl in Heq. subst x. simpl in Hx.
    rewrite (Hb c') in Hx; [done|apply list_elem_of_here].
  - destruct b as [|c' b]; simpl in Heq.
    + subst y. simpl in Hy.
      rewrite (Ha c) in Hy; [done|apply list_elem_of_here].
    + injection Heq as <- Heq.
      destruct (IH b) as [-> ->]; try done.
      * intros z Hz. apply Ha. by apply list_elem_of_further.
      * intros z Hz. apply Hb. by apply list_elem_of_further.
Qed.

Lemma _splitnetloc_app (nl tail : str) :
  no_delims nl → delimited tail →
  _splitnetloc (lit "//" ++ nl ++ tail) 2 = (nl, tail).
Proof.
  intros Hnl Htail. simpl. rewrite _splitnetloc_eq.
  destruct (delim_index_spec (nl ++ tail)) as [H1 H2].
  destruct (delimited_unique _ nl _ tail H1 Hnl H2 Htail) as [-> ->];
    [apply take_drop|done].
Qed.

Lemma unbalanced_brackets_lower (nl : str) :
  unbalanced_brackets (lower nl) = unbalanced_brackets nl.
Proof.
  unfold unbalanced_brackets, mem_char, lower.
  assert (H1 : existsb (Ascii.eqb "[") (map lower_char nl)
               = existsb (Ascii.eqb "[") nl).
  { induction nl as [|c nl IH]; [done|]. cbn [existsb map].
    by rewrite lower_char_eqb_open, IH. }
  assert (H2 : existsb (Ascii.eqb "]") (map lower_char nl)
               = existsb (Ascii.eqb "]") nl).
  { clear H1. induction nl as [|c nl IH]; [done|]. cbn [existsb map].
    by rewrite lower_char_eqb_close, IH. }
  by rewrite H1, H2.
Qed.

Lemma clean_lower (s : str) : clean s → clean (lower s).
Proof.
  intros H c Hc. unfold lower in Hc.
  apply list_elem_of_fmap in Hc as (x & -> & Hx).
  rewrite lower_char_unsafe. by apply H.
Qed.

Lemma no_delims_lower (s : str) : no_delims s → no_delims (lower s).
Proof.
  intros H c Hc. unfold lower in Hc.
  apply list_elem_of_fmap in Hc as (x & -> & Hx).
  rewrite lower_char_delim. by apply H.
Qed.

(** *** The scheme *)

Lemma valid_scheme_chars (sch : str) :
  valid_scheme sch →
  lower sch = sch ∧ ":"%char ∉ sch ∧ clean sch
  ∧ forallb is_scheme_char sch = true.
Proof.
  destruct sch as [|c0 sch0]; [done|]. intros [_ Hall].
  set (sch := c0 :: sch0) in *. clearbody sch. clear c0 sch0.
  induction sch as [|c sch IH]; simpl in *.
  { split; [done|]. split; [apply not_elem_of_nil|]. split; [|done].
    intros c Hc. by apply not_elem_of_nil in Hc. }
  apply andb_true_iff in Hall as [Hc Hall].
  destruct (IH Hall) as (H1 & H2 & H3 & H4).
  destruct (scheme_char_lower_facts c Hc) as (Hl & Hcolon & Hu & Hs).
  split; [|split; [|split]].
  - unfold lower in *. simpl. by rewrite Hl, H1.
  - apply not_elem_of_cons. split; [done|done].
  - intros x Hx. apply elem_of_cons in Hx as [->|Hx]; [done|by apply H3].
  - by rewrite Hs, H4.
Qed.

Lemma split_scheme_valid (url : str) (sch rest : str) :
  split_scheme [] url = (sch, rest) →
  (sch = [] ∨ valid_scheme sch) ∧ (∀ c, c ∈ rest → c ∈ url).
Proof.
  unfold split_scheme.
  destruct (find_char ":" url) as [[|i]|] eqn:Hf;
    try (intros [= <- <-]; by split; [left|]).
  destruct url as [|c0 url0] eqn:Hurl;
    try (intros [= <- <-]; by split; [left|]).
  rewrite <- Hurl.
  destruct (is_ascii_alpha c0 && forallb is_scheme_char (take (S i) url))
    eqn:Hc; [|intros [= <- <-]; by split; [left|]].
  intros [= <- <-]. apply andb_true_iff in Hc as [Hc0 Hall].
  split; [|intros c; apply elem_of_drop_1].
  right. rewrite Hurl in *. simpl in *. split.
  - by apply lower_alpha.
  - apply andb_true_iff in Hall as [Hh Hall]. apply andb_true_iff. split.
    + by apply lower_scheme_char.
    + clear Hf. revert Hall. generalize (take i url0). intros l.
      induction l as [|c l IH]; simpl; [done|].
      intros H. apply andb_true_iff in H as [H1 H2].
      by rewrite lower_scheme_char, IH.
Qed.

(** A string that starts with a valid scheme and a colon parses as that
    scheme followed by the rest. *)
Lemma urlsplit_scheme (sch rest default : str) :
  valid_scheme sch → clean rest →
  urlsplit (sch ++ ":"%char :: rest) default = urlsplit_rest sch rest.
Proof.
  intros Hv Hrest.
  destruct (valid_scheme_chars sch Hv) as (Hlow & Hcolon & Hclean & Hall).
  destruct sch as [|c0 sch0]; [done|].
  destruct Hv as [Hc0 _].
  destruct (is_lower_facts c0 Hc0) as [Halpha Hspace].
  unfold urlsplit.
  assert (Hstrip : lstrip_by is_c0_or_space ((c0 :: sch0) ++ ":"%char :: rest)
                   = (c0 :: sch0) ++ ":"%char :: rest).
  { simpl. by rewrite Hspace. }
  rewrite Hstrip,
    (remove_unsafe_id ((c0 :: sch0) ++ ":"%char :: rest)).
  2:{ apply clean_app. split; [done|].
      intros c Hc. apply elem_of_cons in Hc as [->|Hc]; [done|by apply Hrest]. }
  unfold split_scheme. rewrite find_char_app by done.
  cbn [length app]. rewrite Halpha.
  change (c0 :: sch0 ++ ":"%char :: rest)
    with ((c0 :: sch0) ++ ":"%char :: rest).
  change (S (length sch0)) with (length (c0 :: sch0)).
  rewrite take_app_length, Hall. cbn [andb]. rewrite Hlow.
  replace (S (length (c0 :: sch0))) with (length ((c0 :: sch0) ++ [":"%char]))
    by (rewrite length_app; simpl; lia).
  replace ((c0 :: sch0) ++ ":"%char :: rest)
    with (((c0 :: sch0) ++ [":"%char]) ++ rest)
    by (by rewrite <- app_assoc).
  by rewrite drop_app_length.
Qed.

(** *** What the parser returns *)

Lemma urlsplit_rest_wf (sch url : str) (p : ParseResult) :
  (sch = [] ∨ valid_scheme sch) → clean url →
  urlsplit_rest sch url = Ok p →
  parsed_wf p ∧ scheme p = sch ∧ params p = [].
Proof.
  intros Hsch Hclean. unfold urlsplit_rest.
  destruct (if startswith (lit "//") url then _ else _) as [nl u2] eqn:Hnl.
  assert (Hnl' : no_delims nl ∧ (∀ c, c ∈ nl → c ∈ url)
                 ∧ (∀ c, c ∈ u2 → c ∈ url)).
  { destruct (startswith (lit "//") url) eqn:Hs.
    - apply startswith_true in Hs as [rest ->]. simpl in Hnl.
      rewrite _splitnetloc_eq in Hnl. injection Hnl as <- <-.
      split; [apply delim_index_spec|].
      split; intros c Hc; do 2 apply list_elem_of_further.
      + by eapply elem_of_take_1.
      + by eapply elem_of_drop_1.
    - injection Hnl as <- <-. split; [|split; [|done]].
      + intros c Hc. by apply not_elem_of_nil in Hc.
      + intros c Hc. by apply not_elem_of_nil in Hc. }
  destruct Hnl' as (Hnd & Hnl_in & Hu2_in).
  destruct (unbalanced_brackets nl) eqn:Hb; [done|].
  destruct (match cut "#" u2 with Some p0 => p0 | None => (u2, []) end)
    as [u3 frag] eqn:Hfrag.
  assert (Hu3 : "#"%char ∉ u3 ∧ (∀ c, c ∈ u3 → c ∈ u2)).
  { destruct (cut "#" u2) as [[a b]|] eqn:Hcut.
    - injection Hfrag as <- <-. apply cut_Some in Hcut as [-> Ha].
      split; [done|]. intros c Hc. apply elem_of_app. by left.
    - injection Hfrag as <- <-. apply cut_None in Hcut. by split. }
  destruct Hu3 as [Hu3_hash Hu3_in].
  destruct (match cut "?" u3 with Some p0 => p0 | None => (u3, []) end)
    as [pth q] eqn:Hq.
  assert (Hpq : "?"%char ∉ pth ∧ (∀ c, c ∈ pth → c ∈ u3)
                ∧ (∀ c, c ∈ q → c ∈ u3)).
  { destruct (cut "?" u3) as [[a b]|] eqn:Hcut.
    - injection Hq as <- <-. apply cut_Some in Hcut as [-> Ha].
      split; [done|]. split; intros c Hc; apply elem_of_app; [by left|].
      right. by apply list_elem_of_further.
    - injection Hq as <- <-. apply cut_None in Hcut. split; [done|].
      split; [done|]. intros c Hc. by apply not_elem_of_nil in Hc. }
  destruct Hpq as (Hp_q & Hp_in & Hq_in).
  intros [= <-]. split; [|done]. unfold parsed_wf; simpl.
  split; [done|]. split; [by eapply clean_incl|]. split; [done|].
  split; [done|]. split; [eapply clean_incl; [|exact Hclean]; auto|].
  split; [done|]. split; [auto|].
  split; [eapply clean_incl; [|exact Hclean]; auto|]. auto.
Qed.

Lemma urlsplit_wf (url : str) (p : ParseResult) :
  urlsplit url [] = Ok p → parsed_wf p ∧ params p = [].
Proof.
  unfold urlsplit.
  set (url' := remove_unsafe (lstrip_by is_c0_or_space url)).
  change (remove_unsafe (strip_by is_c0_or_space [])) with (@nil ascii).
  destruct (split_scheme [] url') as [sch rest] eqn:Hs.
  apply split_scheme_valid in Hs as [Hsch Hin].
  intros H. apply urlsplit_rest_wf in H as (H1 & _ & H2); [done|done|].
  eapply clean_incl; [exact Hin|]. apply remove_unsafe_clean.
Qed.

Lemma _splitparams_prefix (url : str) :
  ∀ c, c ∈ (_splitparams url).1 → c ∈ url.
Proof.
  intros c. unfold _splitparams.
  destruct (mem_char "/" url).
  - destruct (find_char_from _ _ _); simpl; [apply elem_of_take_1|done].
  - destruct (find_char _ _); simpl; [apply elem_of_take_1|].
    intros H.
    assert (Hne : url ≠ []).
    { intros ->. simpl in H. by apply not_elem_of_nil in H. }
    rewrite (app_removelast_last "a"%char Hne). apply elem_of_app. by left.
Qed.

(** The components [urlparse] returns are well formed. *)
Lemma urlparse_wf (url : str) (p : ParseResult) :
  urlparse url = Ok p → parsed_wf p.
Proof.
  unfold urlparse, urlparse_with. intros H.
  apply bind_Ok_inv in H as (r & Hr & H).
  apply urlsplit_wf in Hr as [Hwf _].
  destruct (bool_decide _ && mem_char ";" (path r)); [|by injection H as <-].
  pose proof (_splitparams_prefix (path r)) as Hpre.
  destruct (_splitparams (path r)) as [u par]. injection H as <-.
  destruct Hwf as (H1 & H2 & H3 & H4 & H5 & H6 & H7 & H8 & H9).
  simpl in Hpre. unfold parsed_wf; simpl.
  repeat split; try done.
  - eapply clean_incl; [exact Hpre|done].
  - intros Hin. apply H6. by apply Hpre.
  - intros Hin. apply H7. by apply Hpre.
Qed.

End urllib_facts.

(** ** Normalizing paths *)

Module posixpath_facts.
Import pystr pystr_facts pystr_search char_facts spec.

Lemma proper_head (c : str) :
  proper_segment c → ∃ x r, c = x :: r ∧ x ≠ "/"%char.
Proof.
  intros (Hne & _ & _ & Hs). destruct c as [|x r]; [done|].
  exists x, r. split; [done|]. intros ->. apply Hs, list_elem_of_here.
Qed.

Lemma norm_step_skip (k : nat) (acc : list str) (c : str) :
  c = [] ∨ c = lit "." → posixpath.norm_step k acc c = acc.
Proof. intros [->| ->]; reflexivity. Qed.

Lemma norm_step_keep (k : nat) (acc : list str) (c : str) :
  proper_segment c → posixpath.norm_step k acc c = acc ++ [c].
Proof.
  intros (H1 & H2 & H3 & _). unfold posixpath.norm_step.
  rewrite (bool_decide_eq_false_2 (c = [])) by done.
  rewrite (bool_decide_eq_false_2 (c = lit ".")) by done.
  rewrite (bool_decide_eq_false_2 (c = lit "..")) by done.
  reflexivity.
Qed.

Lemma Forall_removelast {A : Type} (P : A → Prop) (l : list A) :
  Forall P l → Forall P (removelast l).
Proof.
  induction 1 as [|x l Hx Hl IH]; simpl; [constructor|].
  destruct l; [constructor|]. by constructor.
Qed.

Lemma Forall_last {A : Type} (P : A → Prop) (l : list A) (d : A) :
  Forall P l → l ≠ [] → P (List.last l d).
Proof.
  induction 1 as [|x l Hx Hl IH]; [done|]. intros _. simpl.
  destruct l; [done|]. by apply IH.
Qed.

(** With a leading slash, the components kept are proper segments. *)
Lemma norm_step_proper (k : nat) (acc : list str) (c : str) :
  k ≠ 0 → Forall proper_segment acc → "/"%char ∉ c →
  Forall proper_segment (posixpath.norm_step k acc c).
Proof.
  intros Hk Hacc Hc. unfold posixpath.norm_step.
  destruct (bool_decide (c = [])) eqn:H1; [done|].
  destruct (bool_decide (c = lit ".")) eqn:H2; [done|].
  apply bool_decide_eq_false in H1, H2. cbn [orb].
  destruct (bool_decide (c = lit "..")) eqn:H3.
  - cbn [negb orb].
    rewrite (bool_decide_eq_false_2 (k = 0)) by done. cbn [andb orb].
    destruct (bool_decide (acc = [])) eqn:H4; cbn [negb andb].
    + by apply Forall_removelast.
    + apply bool_decide_eq_false in H4.
      pose proof (Forall_last _ _ [] Hacc H4) as (_ & _ & Hl & _).
      rewrite (bool_decide_eq_false_2 _ Hl). by apply Forall_removelast.
  - apply bool_decide_eq_false in H3. cbn [negb orb].
    apply Forall_app. split; [done|]. by repeat constructor.
Qed.

Lemma foldl_norm_step_proper (k : nat) (pieces : list str) :
  ∀ acc : list str,
    k ≠ 0 → Forall proper_segment acc →
    Forall (fun p => "/"%char ∉ p) pieces →
    Forall proper_segment (foldl (posixpath.norm_step k) acc pieces).
Proof.
  induction pieces as [|c pieces IH]; intros acc Hk Hacc Hp; simpl; [done|].
  apply Forall_cons in Hp as [Hc Hp].
  apply IH; [done| |done]. by apply norm_step_proper.
Qed.

(** The characters of the components kept are characters of the pieces. *)
Lemma foldl_norm_step_elem (k : nat) (pieces : list str) :
  ∀ (acc : list str) (c : str),
    c ∈ foldl (posixpath.norm_step k) acc pieces → c ∈ acc ∨ c ∈ pieces.
Proof.
  induction pieces as [|p pieces IH]; intros acc c; simpl; [by left|].
  intros H. apply IH in H as [H|H]; [|right; by apply list_elem_of_further].
  unfold posixpath.norm_step in H.
  destruct (_ || _) in H; [by left|].
  destruct (_ || _) in H.
  - apply elem_of_app in H as [H|H]; [by left|].
    apply list_elem_of_singleton in H as ->. right. apply list_elem_of_here.
  - left. destruct acc as [|a acc] using rev_ind; [done|].
    rewrite removelast_last in H. apply elem_of_app. by left.
Qed.

(** Splitting a normal path and folding gives its components back. *)
Lemma foldl_norm_step_join (k : nat) (comps : list str) (trailing : bool) :
  ∀ acc : list str,
    Forall proper_segment comps →
    foldl (posixpath.norm_step k) acc
          (split "/" (join (lit "/") comps
                        ++ (if trailing then lit "/" else [])))
    = acc ++ comps.
Proof.
  induction comps as [|c comps IH]; intros acc Hc.
  { rewrite app_nil_r. by destruct trailing. }
  apply Forall_cons in Hc as [Hc Hcs].
  pose proof Hc as (_ & _ & _ & Hslash).
  destruct comps as [|c' comps].
  - cbn [join]. destruct trailing.
    + change (c ++ lit "/") with (c ++ "/"%char :: []).
      rewrite split_app, split_no_sep by done. simpl.
      rewrite (norm_step_skip _ _ []) by (by left).
      by rewrite norm_step_keep.
    + rewrite app_nil_r, split_no_sep by done. simpl.
      by rewrite norm_step_keep.
  - rewrite join_cons by done. rewrite <- !app_assoc.
    change (lit "/" ++ ?x) with ("/"%char :: x).
    rewrite split_app, split_no_sep by done.
    cbn [app foldl]. rewrite norm_step_keep by done.
    rewrite IH by done. by rewrite <- app_assoc.
Qed.

Lemma endswith_snoc (c x : ascii) (s : str) :
  endswith [c] (s ++ [x]) = Ascii.eqb c x.
Proof.
  unfold endswith. rewrite rev_app_distr. simpl. by rewrite andb_true_r.
Qed.

Lemma join_proper_last (comps : list str) :
  comps ≠ [] → Forall proper_segment comps →
  ∃ s x, join (lit "/") comps = s ++ [x] ∧ x ≠ "/"%char.
Proof.
  induction comps as [|c comps IH]; [done|]. intros _ Hc.
  apply Forall_cons in Hc as [Hc Hcs].
  destruct comps as [|c' comps].
  - cbn [join]. destruct Hc as (Hne & _ & _ & Hs).
    destruct c as [|a c] using rev_ind; [done|]. exists c, a.
    split; [done|]. intros ->. apply Hs, elem_of_app. right.
    apply list_elem_of_here.
  - destruct IH as (s & x & Heq & Hx); [done|done|].
    rewrite join_cons by done. rewrite Heq.
    exists (c ++ lit "/" ++ s), x. by rewrite <- !app_assoc.
Qed.

Lemma endswith_normal_path (k : nat) (comps : list str) (trailing : bool) :
  (k = 1 ∨ k = 2) → Forall proper_segment comps →
  (comps = [] → trailing = false) →
  endswith (lit "/") (normal_path k comps trailing)
  = if bool_decide (comps = []) then true else trailing.
Proof.
  intros Hk Hc Ht. unfold normal_path.
  destruct (bool_decide (comps = [])) eqn:He.
  - apply bool_decide_eq_true in He. subst comps. rewrite (Ht eq_refl).
    by destruct Hk as [-> | ->].
  - apply bool_decide_eq_false in He. destruct trailing.
    + rewrite !app_assoc. apply endswith_snoc.
    + rewrite app_nil_r.
      destruct (join_proper_last comps He Hc) as (s & x & -> & Hx).
      rewrite app_assoc. change (lit "/") with ["/"%char].
      rewrite endswith_snoc. by apply Ascii.eqb_neq.
Qed.

(** A normal path starts with exactly [k] slashes. *)
Lemma initial_slashes_normal_path (k : nat) (comps : list str)
    (trailing : bool) :
  (k = 1 ∨ k = 2) → Forall proper_segment comps →
  (comps = [] → trailing = false) →
  startswith (lit "/") (normal_path k comps trailing) = true
  ∧ (startswith (lit "//") (normal_path k comps trailing)
     && negb (startswith (lit "///") (normal_path k comps trailing)))
    = bool_decide (k = 2).
Proof.
  intros Hk Hc Ht. unfold normal_path, str in *.
  destruct comps as [|c comps].
  { rewrite (Ht eq_refl). by destruct Hk as [-> | ->]. }
  apply Forall_cons in Hc as [Hc Hcs].
  destruct (proper_head c Hc) as (x & r & -> & Hx).
  assert (Hj : ∃ t, join (lit "/") ((x :: r) :: comps)
                    ++ (if trailing then lit "/" else []) = x :: t).
  { destruct comps; simpl; eauto. }
  destruct Hj as [t ->].
  assert (Hxe : Ascii.eqb "/" x = false).
  { apply Ascii.eqb_neq. congruence. }
  destruct Hk as [-> | ->];
    cbn [startswith lit list_ascii_of_string concat replicate app];
    rewrite Hxe, ?eqb_refl; done.
Qed.

Lemma normpath_slash (p0 : str) :
  ∃ k comps,
    posixpath.normpath ("/"%char :: p0) = normal_path k comps false
    ∧ (k = 1 ∨ k = 2)
    ∧ Forall proper_segment comps
    ∧ (∀ c x, c ∈ comps → x ∈ c → x ∈ p0).
Proof.
  unfold posixpath.normpath.
  rewrite (bool_decide_eq_false_2 ("/"%char :: p0 = [])) by done.
  change (startswith (lit "/") ("/"%char :: p0)) with true. cbv iota.
  set (k := if _ && _ then 2 else 1).
  assert (Hk : k = 1 ∨ k = 2).
  { subst k. destruct (_ && _); auto. }
  rewrite split_cons_sep. cbn [foldl].
  rewrite norm_step_skip by (by left).
  set (comps := foldl _ _ _).
  exists k, comps. unfold normal_path. rewrite app_nil_r.
  split.
  { rewrite bool_decide_eq_false_2; [done|].
    destruct Hk as [-> | ->]; done. }
  split; [done|]. split.
  - apply foldl_norm_step_proper.
    + destruct Hk as [-> | ->]; done.
    + constructor.
    + apply split_pieces.
  - intros c x Hc Hx. apply foldl_norm_step_elem in Hc as [Hc|Hc].
    + by apply not_elem_of_nil in Hc.
    + by eapply split_elem.
Qed.

Lemma normal_path_elem (k : nat) (comps : list str) (trailing : bool)
    (x : ascii) :
  x ∈ normal_path k comps trailing →
  x = "/"%char ∨ ∃ c, c ∈ comps ∧ x ∈ c.
Proof.
  unfold normal_path. rewrite !elem_of_app. intros [H|[H|H]].
  - left. revert H. induction k as [|k IH]; simpl.
    + intros H. by apply not_elem_of_nil in H.
    + intros H. apply elem_of_cons in H as [->|H]; [done|by apply IH].
  - apply join_elem in H as [H|H]; [|by right].
    left. by apply list_elem_of_singleton in H.
  - left. destruct trailing; [|by apply not_elem_of_nil in H].
    by apply list_elem_of_singleton in H.
Qed.

(** [_normalized_path] returns a normal path made of characters of its
    argument and slashes. *)
Lemma _normalized_path_normal (p : str) :
  is_normal_path (utils._normalized_path p)
  ∧ ∀ x, x ∈ utils._normalized_path p → x = "/"%char ∨ x ∈ p.
Proof.
  unfold utils._normalized_path.
  destruct (urllib_parse.nonempty p) eqn:Hne; cbn [negb].
  2:{ split.
      - exists 1, [], false. repeat split; auto.
      - intros x Hx. left. by apply list_elem_of_singleton in Hx. }
  set (p' := if negb (startswith (lit "/") p) then lit "/" ++ p else p).
  assert (Hp' : ∃ p0, p' = "/"%char :: p0 ∧ ∀ x, x ∈ p0 → x ∈ p).
  { subst p'. destruct (startswith (lit "/") p) eqn:Hs; cbn [negb].
    - apply startswith_true in Hs as [t ->]. exists t. split; [done|].
      intros x Hx. by apply list_elem_of_further.
    - by exists p. }
  destruct Hp' as (p0 & Hp0 & Hin). rewrite Hp0.
  destruct (normpath_slash p0) as (k & comps & -> & Hk & Hc & Hel).
  rewrite <- Hp0.
  rewrite (endswith_normal_path k comps false) by done.
  set (trailing := endswith (lit "/") p' && negb (if bool_decide (comps = []) then true else false)).
  assert (Hn : (if trailing then normal_path k comps false ++ lit "/"
                else normal_path k comps false)
               = normal_path k comps trailing).
  { unfold normal_path. destruct trailing; [|done].
    by rewrite !app_nil_r, <- app_assoc. }
  rewrite Hn.
  assert (Ht : comps = [] → trailing = false).
  { intros ->. subst trailing. simpl. apply andb_false_r. }
  destruct (initial_slashes_normal_path k comps trailing Hk Hc Ht) as [Hs _].
  rewrite Hs. cbn [negb].
  assert (Hne' : urllib_parse.nonempty (normal_path k comps trailing) = true).
  { apply startswith_true in Hs as [t ->]. done. }
  rewrite Hne'. split.
  - by exists k, comps, trailing.
  - intros x Hx. apply normal_path_elem in Hx as [Hx|(c & Hc' & Hx)];
      [by left|]. right. apply Hin. by eapply Hel.
Qed.

(** On a normal path [normpath] only drops the trailing slash. *)
Lemma normpath_normal_path (k : nat) (comps : list str) (trailing : bool) :
  (k = 1 ∨ k = 2) → Forall proper_segment comps →
  (comps = [] → trailing = false) →
  posixpath.normpath (normal_path k comps trailing) = normal_path k comps false.
Proof.
  intros Hk Hc Ht.
  destruct (initial_slashes_normal_path k comps trailing Hk Hc Ht) as [Hs Hk2].
  unfold posixpath.normpath.
  assert (Hne : normal_path k comps trailing ≠ []).
  { apply startswith_true in Hs as [t ->]. done. }
  rewrite (bool_decide_eq_false_2 _ Hne), Hs, Hk2.
  assert (Hk' : (if bool_decide (k = 2) then 2 else 1) = k).
  { destruct Hk as [-> | ->]; done. }
  rewrite Hk'.
  assert (Hfold : foldl (posixpath.norm_step k) []
                        (split "/" (normal_path k comps trailing)) = comps).
  { unfold normal_path.
    destruct Hk as [-> | ->]; simpl;
      rewrite ?split_cons_sep; cbn [foldl];
      rewrite ?norm_step_skip by (by left);
      cbn [foldl]; rewrite ?norm_step_skip by (by left);
      by rewrite foldl_norm_step_join. }
  rewrite Hfold. unfold normal_path. rewrite app_nil_r.
  rewrite bool_decide_eq_false_2; [done|].
  destruct Hk as [-> | ->]; done.
Qed.

(** [_normalized_path] leaves a normal path as it is. *)
Lemma _normalized_path_fixed (s : str) :
  is_normal_path s → utils._normalized_path s = s.
Proof.
  intros (k & comps & trailing & -> & Hk & Hc & Ht).
  destruct (initial_slashes_normal_path k comps trailing Hk Hc Ht) as [Hs _].
  unfold utils._normalized_path.
  assert (Hne : urllib_parse.nonempty (normal_path k comps trailing) = true).
  { apply startswith_true in Hs as [t ->]. done. }
  rewrite Hne, Hs. cbn [negb].
  rewrite normpath_normal_path by done.
  rewrite (endswith_normal_path k comps trailing) by done.
  rewrite (endswith_normal_path k comps false) by done.
  assert (Hn : (if (if bool_decide (comps = []) then true else trailing)
                   && negb (if bool_decide (comps = []) then true else false)
                then normal_path k comps false ++ lit "/"
                else normal_path k comps false)
               = normal_path k comps trailing).
  { destruct (bool_decide (comps = [])) eqn:He.
    - apply bool_decide_eq_true in He. by rewrite (Ht He).
    - destruct trailing; cbn [andb negb]; [|done].
      unfold normal_path. by rewrite !app_nil_r, <- app_assoc. }
  rewrite Hn, Hs. cbn [negb]. by rewrite ?Hne.
Qed.

Lemma _normalized_path_idem (p : str) :
  utils._normalized_path (utils._normalized_path p) = utils._normalized_path p.
Proof. apply _normalized_path_fixed, _normalized_path_normal. Qed.

End posixpath_facts.

(** ** Binary64 comparisons *)

Module float64_facts.
Import float64 spec.
Local Open Scope Z_scope.

(** *** The order of the comparisons *)

Lemma ltb_leb (a b : float) : ltb a b = true → leb a b = true.
Proof.
  unfold ltb, leb, SFltb, SFleb. by destruct (SFcompare a b) as [[]|].
Qed.

Lemma leb_refl (a : float) : is_nan a = false → leb a a = true.
Proof.
  unfold leb, SFleb, SFcompare.
  destruct a as [[]|[]| |[] m e]; simpl; try done; intros _;
    rewrite Z.compare_refl; change (Pos.compare_cont Eq m m) with (Pos.compare m m);
    by rewrite Pos.compare_refl.
Qed.


(** Of two numbers one is below the other. *)
Lemma ltb_false_leb (a b : float) :
  ltb a b = false → is_nan a = false → is_nan b = false → leb b a = true.
Proof.
  unfold ltb, leb, SFltb, SFleb, SFcompare.
  destruct a as [[]|[]| |[] m1 e1], b as [[]|[]| |[] m2 e2]; simpl; try done;
    intros H _ _; cmp_cases.
Qed.


End float64_facts.

(** ** Binary64 rounding *)

Module rounding_facts.
Import float64.
Local Open Scope Z_scope.



(** *** The number of bits *)








End rounding_facts.

(** ** Shifting a mantissa *)

Module shift_facts.
Import float64 spec rounding_facts.
Local Open Scope Z_scope.

Lemma shifted_compose (j k : Z) (x y z : shr_record) :
  0 ≤ j → 0 ≤ k → 0 ≤ shr_m x →
  shifted j x y → shifted k y z → shifted (j + k) x z.
Proof.
  intros Hj Hk Hx [Hy Hyf] [Hz Hzf].
  assert (H2j : 0 < 2 ^ j) by (apply Z.pow_pos_nonneg; lia).
  assert (H2k : 0 < 2 ^ k) by (apply Z.pow_pos_nonneg; lia).
  split.
  - rewrite Hz, Hy, Z.pow_add_r, Z.div_div by lia. done.
  - rewrite Z.pow_add_r by lia. intros Hmod Hr Hs.
    assert (Hdiv : shr_m x = 2 ^ j * 2 ^ k * (shr_m x / (2 ^ j * 2 ^ k))).
    { apply Z.div_exact; [lia|done]. }
    set (q := shr_m x / (2 ^ j * 2 ^ k)) in Hdiv.
    assert (Hxj : shr_m x mod 2 ^ j = 0).
    { rewrite Hdiv. replace (2 ^ j * 2 ^ k * q) with ((2 ^ k * q) * 2 ^ j) by lia.
      apply Z.mod_mul. lia. }
    destruct (Hyf Hxj Hr Hs) as [Hyr Hys].
    apply Hzf; [|done|done].
    rewrite Hy, Hdiv.
    replace (2 ^ j * 2 ^ k * q) with ((2 ^ k * q) * 2 ^ j) by lia.
    rewrite Z.div_mul by lia.
    replace (2 ^ k * q) with (q * 2 ^ k) by lia. apply Z.mod_mul. lia.
Qed.

Lemma shifted_nonneg (k : Z) (x y : shr_record) :
  0 ≤ k → 0 ≤ shr_m x → shifted k x y → 0 ≤ shr_m y.
Proof.
  intros Hk Hx [-> _]. apply Z.div_pos; [done|]. apply Z.pow_pos_nonneg; lia.
Qed.

Lemma shr_1_shifted (x : shr_record) : 0 ≤ shr_m x → shifted 1 x (shr_1 x).
Proof.
  destruct x as [m r s]. cbn [shr_m]. intros H. unfold shifted.
  change (2 ^ 1) with 2.
  destruct m as [|p|p]; [| |done]; [|destruct p as [p|p|]];
    cbn [shr_1 shr_m shr_r shr_s].
  - split; [done|]. by intros _ -> ->.
  - rewrite (Pos2Z.inj_xI p). split.
    + Z.div_mod_to_equations. lia.
    + intros Hmod. exfalso. Z.div_mod_to_equations. lia.
  - rewrite (Pos2Z.inj_xO p). split.
    + Z.div_mod_to_equations. lia.
    + by intros _ -> ->.
  - split; [done|]. by intros Hmod.
Qed.

Lemma iter_pos_shifted (p : positive) :
  ∀ x : shr_record,
    0 ≤ shr_m x → shifted (Z.pos p) x (SpecFloat.iter_pos shr_1 p x).
Proof.
  assert (H01 : 0 ≤ 1) by lia.
  induction p as [p IH|p IH|]; intros x Hx; cbn [SpecFloat.iter_pos].
  - assert (Hp : 0 ≤ Z.pos p) by lia.
    pose proof (shr_1_shifted x Hx) as H1.
    pose proof (shifted_nonneg 1 _ _ H01 Hx H1) as Hx1.
    pose proof (IH _ Hx1) as H2.
    pose proof (shifted_nonneg _ _ _ Hp Hx1 H2) as Hx2.
    pose proof (IH _ Hx2) as H3.
    pose proof (shifted_compose _ _ _ _ _ H01 Hp Hx H1 H2) as H12.
    assert (Hp1 : 0 ≤ 1 + Z.pos p) by lia.
    pose proof (shifted_compose _ _ _ _ _ Hp1 Hp Hx H12 H3) as H.
    by replace (Z.pos p~1) with (1 + Z.pos p + Z.pos p) by lia.
  - assert (Hp : 0 ≤ Z.pos p) by lia.
    pose proof (IH _ Hx) as H1.
    pose proof (shifted_nonneg _ _ _ Hp Hx H1) as Hx1.
    pose proof (IH _ Hx1) as H2.
    pose proof (shifted_compose _ _ _ _ _ Hp Hp Hx H1 H2) as H.
    by replace (Z.pos p~0) with (Z.pos p + Z.pos p) by lia.
  - by apply shr_1_shifted.
Qed.


Lemma round_nearest_even_bounds (m : Z) (l : location) :
  m ≤ round_nearest_even m l ≤ m + 1
  ∧ (l = loc_Exact → round_nearest_even m l = m).
Proof.
  unfold round_nearest_even.
  destruct l as [|[]]; try destruct (Z.even m); split; try done; lia.
Qed.


End shift_facts.

(** ** Rounding to the format *)

Module round_facts.
Import float64 spec rounding_facts shift_facts.
Local Open Scope Z_scope.



Lemma iter_xO (m d : positive) :
  Z.pos (Pos.iter xO m d) = Z.pos m * 2 ^ Z.pos d.
Proof.
  induction d as [|d IH] using Pos.peano_ind.
  - simpl. lia.
  - rewrite Pos.iter_succ, Pos2Z.inj_xO, IH, Pos2Z.inj_succ, Z.pow_succ_r by lia.
    lia.
Qed.

(** [binary_round] first brings the mantissa down to the exponent of the
    format when that is lower, then rounds. *)
Lemma binary_round_unfold (s : bool) (M : positive) (ez : Z) :
  let e0 := fexp prec emax (Z.pos (digits2_pos M) + ez) in
  binary_round prec emax s M ez
  = binary_round_aux prec emax s (Z.pos M * 2 ^ (ez - Z.min ez e0))
                     (Z.min ez e0) loc_Exact.
Proof.
  intros e0. unfold binary_round, shl_align. fold e0.
  destruct (e0 - ez) as [|d|d] eqn:Hd.
  - replace (Z.min ez e0) with ez by lia. by rewrite Z.sub_diag, Z.mul_1_r.
  - replace (Z.min ez e0) with ez by lia. by rewrite Z.sub_diag, Z.mul_1_r.
  - replace (Z.min ez e0) with e0 by lia. rewrite iter_xO.
    by replace (ez - e0) with (Z.pos d) by lia.
Qed.




End round_facts.

(** ** The operations *)

Module arith_facts.
Import float64 spec float64_facts rounding_facts shift_facts round_facts.
Local Open Scope Z_scope.

(** *** Signs *)

Lemma shr_m_record (m : Z) (l : location) : shr_m (shr_record_of_loc m l) = m.
Proof. by destruct l as [|[]]. Qed.

Lemma shr_nonneg (x : shr_record) (e n : Z) :
  0 ≤ shr_m x → 0 ≤ shr_m (shr x e n).1.
Proof.
  intros Hx. unfold shr. destruct n as [|p|p]; try done. cbn [fst].
  apply (shifted_nonneg (Z.pos p) x); [lia|done|by apply iter_pos_shifted].
Qed.

(** Rounding keeps the sign it is given and never answers a nan. *)
Lemma binary_round_aux_signed (s : bool) (m e : Z) (l : location) :
  0 ≤ m → signed s (binary_round_aux prec emax s m e l).
Proof.
  intros Hm. unfold binary_round_aux, shr_fexp.
  set (n1 := fexp prec emax (Zdigits2 m + e) - e).
  pose proof (shr_nonneg (shr_record_of_loc m l) e n1) as H1.
  rewrite shr_m_record in H1. specialize (H1 Hm).
  destruct (shr (shr_record_of_loc m l) e n1) as [mrs' e']. cbn [fst] in H1.
  set (m2 := round_nearest_even (shr_m mrs') (loc_of_shr_record mrs')).
  assert (Hm2 : 0 ≤ m2).
  { pose proof (round_nearest_even_bounds (shr_m mrs') (loc_of_shr_record mrs')).
    fold m2 in H. lia. }
  set (n2 := fexp prec emax (Zdigits2 m2 + e') - e').
  pose proof (shr_nonneg (shr_record_of_loc m2 loc_Exact) e' n2) as H2.
  rewrite shr_m_record in H2. specialize (H2 Hm2).
  destruct (shr (shr_record_of_loc m2 loc_Exact) e' n2) as [mrs'' e''].
  cbn [fst] in H2.
  destruct (shr_m mrs'') as [|m3|m3]; [done| |lia].
  by destruct (e'' <=? emax - prec).
Qed.

Lemma binary_round_signed (s : bool) (M : positive) (e : Z) :
  signed s (binary_round prec emax s M e).
Proof.
  rewrite binary_round_unfold. apply binary_round_aux_signed.
  assert (0 < 2 ^ (e - Z.min e (fexp prec emax (Z.pos (digits2_pos M) + e))))
    by (apply Z.pow_pos_nonneg; lia).
  lia.
Qed.

Lemma signed_nonneg (r : float) : signed false r → leb zero r = true.
Proof. destruct r as [[]|[]| |[] ? ?]; simpl; done. Qed.

Lemma nonneg_cases (y : float) :
  leb zero y = true →
  (∃ s, y = S754_zero s) ∨ y = S754_infinity false
  ∨ ∃ m e, y = S754_finite false m e.
Proof.
  destruct y as [s|[]| |[] m e]; simpl; try done; intros _; eauto.
Qed.

(** *** Aligned mantissas *)







(** *** Addition *)


(** *** Subtraction *)

Lemma ltb_irrefl (a : float) : ltb a a = false.
Proof.
  unfold ltb, SFltb, SFcompare.
  destruct a as [[]|[]| |[] m e]; simpl; try done;
    rewrite Z.compare_refl;
    change (Pos.compare_cont Eq m m) with (Pos.compare m m);
    by rewrite Pos.compare_refl.
Qed.


(** *** Multiplication *)


(** *** Conversions *)

Lemma of_Z_signed (z : Z) : 0 ≤ z → leb zero (of_Z z) = true.
Proof.
  intros Hz. unfold of_Z. destruct z as [|p|p]; [done| |lia].
  cbn [binary_normalize]. apply signed_nonneg, binary_round_signed.
Qed.

Lemma of_int_nonneg (z : Z) (f : float) :
  0 ≤ z → of_int z = Ok f → leb zero f = true.
Proof.
  intros Hz. unfold of_int. pose proof (of_Z_signed z Hz) as H.
  destruct (of_Z z); try done; by intros [= <-].
Qed.

(** The quotient of two integers is a number with the sign of the
    quotient. *)
Lemma int_truediv_signed (a b : Z) (f : float) :
  int_truediv a b = Ok f → signed (xorb (a <? 0) (b <? 0)) f.
Proof.
  unfold int_truediv. destruct (Z.eqb_spec b 0) as [|Hb0]; [done|].
  destruct (SFdiv_core_binary prec emax (Z.abs a) 0 (Z.abs b) 0)
    as [[q e] l] eqn:Hq.
  assert (Hq0 : 0 ≤ q).
  { unfold SFdiv_core_binary in Hq.
    set (m' := match _ - _ with Z.pos _ => _ | _ => _ end) in Hq.
    assert (Hm' : 0 ≤ m').
    { subst m'. destruct (_ - _); try lia. rewrite Z.shiftl_mul_pow2 by lia.
      assert (0 < 2 ^ Z.pos p) by (apply Z.pow_pos_nonneg; lia). nia. }
    pose proof (Z.div_eucl_eq m' (Z.abs b) ltac:(lia)) as Hd.
    pose proof (Z.mod_pos_bound m' (Z.abs b) ltac:(lia)) as Hr.
    unfold Z.modulo in Hr.
    destruct (Z.div_eucl m' (Z.abs b)) as [q' r'].
    injection Hq as <- _ _. nia. }
  pose proof (binary_round_aux_signed (xorb (a <? 0) (b <? 0)) q e l Hq0) as H.
  destruct (binary_round_aux prec emax (xorb (a <? 0) (b <? 0)) q e l);
    try done; by intros [= <-].
Qed.

Lemma int_truediv_nonneg (a b : Z) (f : float) :
  0 ≤ a → 0 < b → int_truediv a b = Ok f → leb zero f = true.
Proof.
  intros Ha Hb H. apply int_truediv_signed in H.
  rewrite (proj2 (Z.ltb_ge a 0)), (proj2 (Z.ltb_ge b 0)) in H by lia.
  by apply signed_nonneg.
Qed.

End arith_facts.
(** ** Construction of the orchestrator *)

Module crawler_runner_facts.
Import pystr crawler_runner.

Lemma CrawlQueue_call_parent_url (parent : str) (rp : bool) :
  CrawlQueue_call [("parent_url"%string, VStr parent);
                   ("respect_parent"%string, VBool rp)]
  = Ok (crawl_queue.init parent rp).
Proof. reflexivity. Qed.

Lemma CrawlQueue_call_scope_url (scope : str) (rp : bool) :
  CrawlQueue_call [("scope_url"%string, VStr scope);
                   ("respect_parent"%string, VBool rp)]
  = Raise TypeError.
Proof. reflexivity. Qed.

(** C2. For every settings bundle the constructor of [CrawlOrchestrator]
    raises: either the scope URL cannot be computed, or the call of
    [CrawlQueue] with the keyword [scope_url] is a [TypeError], the
    parameter being declared as [parent_url]. Whatever [run] would do, it
    is never reached. *)
Theorem orchestrator_construction_raises
    (s : config_loader.CrawlSettingsBundle) :
  (∃ e, CrawlOrchestrator_init s = Raise e)
  ∧ (∀ (Stats : Type) (run : CrawlOrchestrator → result Stats),
       ∃ e, run_async run s = Raise e).
Proof.
  assert (H : ∃ e, CrawlOrchestrator_init s = Raise e).
  { unfold CrawlOrchestrator_init.
    destruct (config_loader.scope_url _) as [scope|e]; simpl.
    - exists TypeError. reflexivity.
    - exists e. reflexivity. }
  split; [exact H|].
  intros Stats run. destruct H as [e He]. exists e.
  unfold run_async. rewrite He. reflexivity.
Qed.

End crawler_runner_facts.

(** ** The frontier *)

Module crawl_queue_facts.
Import pystr crawl_queue spec.

Lemma init_inv (parent : str) (respect : bool) : queue_inv (init parent respect).
Proof.
  unfold queue_inv, init; simpl. split; [constructor|].
  split; [|set_solver]. intros u. split; [set_solver|].
  intros H. inversion H.
Qed.

(** What [add] can do to a queue: nothing, or append one fresh URL. *)
Lemma add_cases (url : str) (base : option str) (q : CrawlQueue) :
  (add url base q).2 = q
  ∨ ∃ n, utils.normalize_url url base = Ok (Some n)
         ∧ n ∉ _queued q ∧ n ∉ _seen q
         ∧ (add url base q).1 = Ok true
         ∧ (add url base q).2
           = mkQueue (_parent_url q) (_respect_parent q) (_pending q ++ [n])
                     (_queued q ∪ {[n]}) (_seen q).
Proof.
  unfold add.
  destruct (utils.normalize_url url base) as [[n|]|e]; simpl; auto.
  destruct (urllib_parse.nonempty n); simpl; auto.
  destruct (if _respect_parent q then _ else _) as [[|]|e]; simpl; auto.
  destruct (bool_decide (n ∈ _queued q)) eqn:Hq; simpl; auto.
  destruct (bool_decide (n ∈ _seen q)) eqn:Hs; simpl; auto.
  apply bool_decide_eq_false in Hq, Hs.
  right. exists n. auto.
Qed.

Lemma add_inv (url : str) (base : option str) (q : CrawlQueue) :
  queue_inv q → queue_inv (add url base q).2.
Proof.
  intros (Hnd & Hmirror & Hdisj).
  destruct (add_cases url base q) as [->|(n & _ & Hq & Hs & _ & ->)].
  { done. }
  unfold queue_inv; simpl. split; [|split].
  - apply NoDup_app. split; [done|]. split; [|apply NoDup_singleton].
    intros u Hu Hn. apply list_elem_of_singleton in Hn as ->.
    apply Hq, Hmirror, Hu.
  - intros u. rewrite elem_of_union, elem_of_app, elem_of_singleton,
      list_elem_of_singleton, Hmirror. tauto.
  - set_solver.
Qed.

Lemma add_seen (url : str) (base : option str) (q : CrawlQueue) :
  _seen (add url base q).2 = _seen q.
Proof.
  destruct (add_cases url base q) as [->|(n & _ & _ & _ & _ & ->)]; done.
Qed.

Lemma extend_from_inv (urls : list str) (base : option str) :
  ∀ (added : Z) (q : CrawlQueue),
    queue_inv q →
    queue_inv (extend_from added urls base q).2
    ∧ _seen (extend_from added urls base q).2 = _seen q.
Proof.
  induction urls as [|u urls IH]; intros added q Hq; simpl; [done|].
  pose proof (add_inv u base q Hq) as Hq'.
  pose proof (add_seen u base q) as Hs.
  destruct (add u base q) as [[b|e] q']; simpl in *; [|done].
  destruct (IH (if b then (added + 1)%Z else added) q' Hq') as [H1 H2].
  split; [done|]. by rewrite H2.
Qed.

(** The loop of [next_batch] moves a prefix of what is pending. *)
Lemma next_batch_loop_spec (size : Z) (pending : list str) :
  ∀ (queued seen : gset str) (batch : list str),
    ∃ taken rest,
      pending = taken ++ rest
      ∧ next_batch_loop size pending queued seen batch
        = (batch ++ taken,
           (rest, queued ∖ list_to_set taken, seen ∪ list_to_set taken)).
Proof.
  induction pending as [|u pending IH]; intros queued seen batch; simpl.
  { exists [], []. split; [done|]. rewrite app_nil_r. simpl.
    by rewrite difference_empty_L, union_empty_r_L. }
  destruct (_ <? _)%Z.
  - destruct (IH (queued ∖ {[u]}) (seen ∪ {[u]}) (batch ++ [u]))
      as (taken & rest & -> & ->).
    exists (u :: taken), rest. split; [done|].
    rewrite <- app_assoc. simpl.
    replace (queued ∖ {[u]} ∖ list_to_set taken)
      with (queued ∖ ({[u]} ∪ list_to_set taken)) by set_solver.
    replace (seen ∪ {[u]} ∪ list_to_set taken)
      with (seen ∪ ({[u]} ∪ list_to_set taken)) by set_solver.
    done.
  - exists [], (u :: pending). split; [done|]. rewrite app_nil_r. simpl.
    by rewrite difference_empty_L, union_empty_r_L.
Qed.

Lemma next_batch_spec (size : Z) (q : CrawlQueue) :
  ∃ taken rest,
    _pending q = taken ++ rest
    ∧ next_batch size q
      = (taken,
         mkQueue (_parent_url q) (_respect_parent q) rest
                 (_queued q ∖ list_to_set taken)
                 (_seen q ∪ list_to_set taken)).
Proof.
  unfold next_batch.
  destruct (next_batch_loop_spec size (_pending q) (_queued q) (_seen q) [])
    as (taken & rest & Hp & ->).
  exists taken, rest. done.
Qed.

(** One call keeps the frontier consistent, hands out only URLs that were
    not handed out before, without repetition, and records them. *)
Lemma step_inv (c : call) (q : CrawlQueue) :
  queue_inv q →
  queue_inv (step c q).2
  ∧ NoDup (step c q).1
  ∧ (∀ u, u ∈ (step c q).1 → u ∉ _seen q)
  ∧ (∀ u, u ∈ _seen (step c q).2 ↔ u ∈ _seen q ∨ u ∈ (step c q).1).
Proof.
  intros Hq. destruct c as [url base|urls base|size]; simpl.
  - split; [by apply add_inv|]. split; [constructor|].
    split; [by intros u Hu; inversion Hu|].
    intros u. rewrite add_seen. split; [tauto|].
    intros [H|H]; [done|inversion H].
  - destruct (extend_from_inv urls base 0 q Hq) as [H1 H2].
    split; [done|]. split; [constructor|].
    split; [by intros u Hu; inversion Hu|].
    intros u. unfold extend. rewrite H2. split; [tauto|].
    intros [H|H]; [done|inversion H].
  - destruct (next_batch_spec size q) as (taken & rest & Hp & ->); simpl.
    destruct Hq as (Hnd & Hmirror & Hdisj).
    rewrite Hp in Hnd. apply NoDup_app in Hnd as (Hnd1 & Hnd12 & Hnd2).
    split; [|split; [done|split]].
    + unfold queue_inv; simpl. split; [done|]. split.
      * intros u. rewrite elem_of_difference, elem_of_list_to_set, Hmirror, Hp,
          elem_of_app. split; [tauto|]. intros H. split; [tauto|].
        intros H'. by apply (Hnd12 u).
      * intros u. rewrite elem_of_difference, elem_of_union,
          !elem_of_list_to_set. intros [H1 H2] [H3|H3]; [|done].
        by apply (Hdisj u).
    + intros u Hu Hs. apply (Hdisj u); [|done].
      apply Hmirror. rewrite Hp. apply elem_of_app. tauto.
    + intros u. by rewrite elem_of_union, elem_of_list_to_set.
Qed.

Lemma run_inv (cs : list call) :
  ∀ q : CrawlQueue,
    queue_inv q →
    queue_inv (run cs q).2
    ∧ NoDup (run cs q).1
    ∧ (∀ u, u ∈ (run cs q).1 → u ∉ _seen q).
Proof.
  induction cs as [|c cs IH]; intros q Hq; simpl.
  { split; [done|]. split; [constructor|]. by intros u Hu; inversion Hu. }
  destruct (step_inv c q Hq) as (Hq1 & Hnd1 & Hfresh1 & Hseen1).
  destruct (step c q) as [out q1]; simpl in *.
  destruct (IH q1 Hq1) as (Hq2 & Hnd2 & Hfresh2).
  destruct (run cs q1) as [outs q2]; simpl in *.
  split; [done|]. split.
  - apply NoDup_app. split; [done|]. split; [|done].
    intros u Hu Hu'. apply (Hfresh2 u Hu'). apply Hseen1. tauto.
  - intros u Hu. apply elem_of_app in Hu as [Hu|Hu]; [by apply Hfresh1|].
    intros Hs. apply (Hfresh2 u Hu). apply Hseen1. tauto.
Qed.

(** Two submissions of one normalized URL lengthen the pending list by at
    most one. *)
Lemma add_twice_pending (u1 u2 : str) (b1 b2 : option str) (q : CrawlQueue) :
  utils.normalize_url u1 b1 = utils.normalize_url u2 b2 →
  (pending (add u2 b2 (add u1 b1 q).2).2 ≤ pending q + 1)%Z.
Proof.
  intros Heq. unfold pending.
  destruct (add_cases u1 b1 q) as [->|(n & Hn & _ & _ & _ & ->)].
  - destruct (add_cases u2 b2 q) as [->|(n & _ & _ & _ & _ & ->)]; simpl.
    + lia.
    + rewrite length_app. simpl. lia.
  - set (q1 := mkQueue _ _ _ _ _).
    destruct (add_cases u2 b2 q1) as [->|(n' & Hn' & Hq' & _)]; simpl.
    + rewrite length_app. simpl. lia.
    + rewrite <- Heq, Hn in Hn'. injection Hn' as <-.
      exfalso. apply Hq'. subst q1; simpl. set_solver.
Qed.

(** C5. Over any sequence of calls made on a fresh queue, the queued set
    and the seen set stay disjoint, and no URL is handed out by
    [next_batch] twice, whatever is submitted again in between; and for any
    queue, two submissions that normalize to the same URL make the pending
    count grow by at most one. *)
Theorem frontier_dedup_and_exhaustion
    (parent : str) (respect : bool) (cs : list call) :
  _queued (run cs (init parent respect)).2
    ∩ _seen (run cs (init parent respect)).2 = ∅
  ∧ NoDup (run cs (init parent respect)).1
  ∧ (∀ (u1 u2 : str) (b1 b2 : option str) (q : CrawlQueue),
       utils.normalize_url u1 b1 = utils.normalize_url u2 b2 →
       (pending (add u2 b2 (add u1 b1 q).2).2 ≤ pending q + 1)%Z).
Proof.
  destruct (run_inv cs (init parent respect) (init_inv parent respect))
    as ((_ & _ & Hdisj) & Hnd & _).
  split; [|split; [done|]].
  - apply disjoint_intersection_L, Hdisj.
  - intros. by apply add_twice_pending.
Qed.

(** The same page under two spellings, with and without a fragment: the
    second submission is refused and one URL is pending. *)
Lemma frontier_dedup_fragment_witness :
  let q := init (lit "https://ex.com/docs/") true in
  let u1 := lit "https://ex.com/docs/a" in
  let u2 := lit "https://ex.com/docs/a#top" in
  (add u1 None q).1 = Ok true
  ∧ (add u2 None (add u1 None q).2).1 = Ok false
  ∧ pending (add u2 None (add u1 None q).2).2 = 1%Z
  ∧ (pending (add u2 None (add u1 None q).2).2 ≤ pending q + 1)%Z.
Proof.
  split; [vm_compute; reflexivity|].
  split; [vm_compute; reflexivity|].
  split; [vm_compute; reflexivity|].
  apply (proj2 (proj2 (frontier_dedup_and_exhaustion [] false []))).
  vm_compute. reflexivity.
Defined.

End crawl_queue_facts.

(** ** The throttle *)

Module throttle_facts.
Import pystr float64 throttle spec float64_facts arith_facts.

(** *** What the operations of a call preserve *)








Lemma robots_or_zero_value (rd : option number.number) :
  robots_or_zero rd = robots_value rd.
Proof.
  unfold robots_or_zero, robots_value.
  destruct rd as [[z|f]|]; cbn [number.truth number.to_float]; [| |done].
  - destruct (Z.eqb_spec z 0) as [->|Hz]; done.
  - unfold truth. by destruct (eqb f zero).
Qed.


(** *** One call *)


(** A call that cannot turn its robots delay into a float raises and
    leaves the controller as it was. *)
Lemma wait_for_turn_overflow (rnd now : float) (url : str)
    (rd : option number.number) (t : ThrottleController) (e : exn) :
  robots_value rd = Raise e →
  wait_for_turn rnd now url rd t = (Raise e, t).
Proof.
  intros Hr. unfold wait_for_turn. by rewrite robots_or_zero_value, Hr.
Qed.




(** *** Sequences of calls *)






End throttle_facts.
(** ** Robots directives *)

Module robotparser_facts.
Import pystr robotparser spec.

Lemma decimal_nonneg_from (s : str) :
  ∀ n : Z, (0 ≤ n)%Z → forallb is_digit s = true →
           (0 ≤ foldl (fun n c => 10 * n + (Z.of_N (ord c) - 48))%Z n s)%Z.
Proof.
  induction s as [|c s IH]; intros n Hn Hs; simpl in *; [done|].
  apply andb_true_iff in Hs as [Hc Hs]. apply IH; [|done].
  unfold is_digit, in_range in Hc. apply andb_true_iff in Hc as [Hc _].
  apply N.leb_le in Hc. lia.
Qed.

Lemma py_int_nonneg (s : str) (n : Z) : py_int s = Ok n → (0 ≤ n)%Z.
Proof.
  unfold py_int.
  destruct (urllib_parse.nonempty (strip s) && forallb is_digit (strip s))
    eqn:H; [|done].
  intros [= <-]. apply andb_true_iff in H as [_ H].
  by apply decimal_nonneg_from.
Qed.

Lemma new_entry_wf : entry_wf new_entry.
Proof. intros r H. discriminate. Qed.

Lemma _add_entry_wf (p : RobotFileParser) (e : Entry) :
  parser_wf p → entry_wf e → parser_wf (_add_entry p e).
Proof.
  intros Hp Hwf. pose proof Hp as (Hl & He & Hd). unfold _add_entry.
  destruct (bool_decide _).
  - destruct (default_entry p) eqn:Hdef.
    + exact Hp.
    + split; [done|]. split; [done|]. simpl. by intros e' [= <-].
  - split; [done|]. split; [|done]. simpl.
    apply Forall_app. split; [done|]. by constructor.
Qed.

Section Quoting.

Variable unquote : str → str.
Variable quote : str → str.

Lemma parse_line_wf (p : RobotFileParser) (entry : Entry) (state : Z)
    (line : str) (p' : RobotFileParser) (entry' : Entry) (state' : Z) :
  parser_wf p → entry_wf entry →
  parse_line unquote quote (p, entry, state) line = Ok (p', entry', state') →
  parser_wf p' ∧ entry_wf entry'.
Proof.
  intros Hp He. unfold parse_line.
  pose proof new_entry_wf as Hnew.
  pose proof (_add_entry_wf p entry Hp He) as Hadd.
  destruct (negb (urllib_parse.nonempty line)).
  all: repeat
    (match goal with
     | |- context [if ?b then _ else _] => destruct b eqn:?
     | |- context [match cut ?c ?s with _ => _ end] =>
         destruct (cut c s) as [[? ?]|] eqn:?
     | |- context [match split ?c ?s with _ => _ end] =>
         destruct (split c s) as [|? [|? [|? ?]]] eqn:?
     | |- context [new_rule ?q ?v ?a] => destruct (new_rule q v a) eqn:?
     | |- context [py_int ?s] => destruct (py_int s) eqn:?
     end; simpl).
  all: intros [= <- <- <-] || (intros H; discriminate H).
  all: try (split; [assumption|assumption]).
  all: try (split; [assumption|]).
  all: try (intros r Hr; simpl in Hr; first [discriminate Hr | by apply He | by apply Hnew]).
  all: try (destruct Hp as (Hl & Hes & Hd); split; [done|by split]).
  all: try (intros r [= <-]; simpl; split; by eapply py_int_nonneg).
Qed.

Lemma parse_lines_wf (lines : list str) :
  ∀ (p : RobotFileParser) (entry : Entry) (state : Z)
    (p' : RobotFileParser) (entry' : Entry) (state' : Z),
    parser_wf p → entry_wf entry →
    parse_lines unquote quote (p, entry, state) lines
    = Ok (p', entry', state') →
    parser_wf p' ∧ entry_wf entry'.
Proof.
  induction lines as [|line lines IH]; intros p entry state p' entry' state'
    Hp He; simpl.
  { by intros [= <- <- <-]. }
  intros H. apply bind_Ok_inv in H as ([[p1 e1] s1] & Hline & H).
  destruct (parse_line_wf _ _ _ _ _ _ _ Hp He Hline) as [Hp1 He1].
  by eapply IH.
Qed.

(** Whatever text is parsed, the parser that results is well formed. *)
Lemma parse_wf (lines : list str) (p : RobotFileParser) :
  parse unquote quote new_parser lines = Ok p → parser_wf p.
Proof.
  unfold parse. intros H.
  apply bind_Ok_inv in H as ([[p1 e1] s1] & Hl & H). revert H.
  apply parse_lines_wf in Hl as [Hp1 He1].
  - intros [= <-]. destruct (s1 =? 2)%Z; [by apply _add_entry_wf|done].
  - split; [done|]. split; [constructor|]. simpl. done.
  - apply new_entry_wf.
Qed.

End Quoting.

End robotparser_facts.

Module robots_manager_facts.
Import pystr robots_manager spec float64_facts arith_facts.

(** *** The section an agent is answered from *)

Lemma entry_applies_to_applies (e : robotparser.Entry) (useragent : str) :
  robotparser.entry_applies_to e useragent = true ↔ applies e useragent.
Proof.
  unfold robotparser.entry_applies_to, applies. fold (agent_name useragent).
  induction (robotparser.useragents e) as [|a agents IH].
  { split; [done|]. intros (a & Ha & _). by apply not_elem_of_nil in Ha. }
  case_bool_decide as Hstar.
  { split; [|done]. intros _. exists a. split; [apply list_elem_of_here|by left]. }
  case_bool_decide as Hsub.
  { split; [|done]. intros _. exists a. split; [apply list_elem_of_here|].
    right. destruct Hsub as [n Hn].
    apply pystr_facts.find_sub_Some in Hn as (pre & post & Heq & _).
    by exists pre, post. }
  rewrite IH. split.
  - intros (a' & Ha' & H). exists a'. split; [by apply list_elem_of_further|done].
  - intros (a' & Ha' & H). apply elem_of_cons in Ha' as [->|Ha'].
    + destruct H as [H|(pre & post & H)]; [done|]. exfalso.
      destruct (find_sub (lower a) (agent_name useragent)) as [n|] eqn:Hf.
      * by apply Hsub.
      * exact (pystr_facts.find_sub_None _ _ Hf pre post H).
    + by exists a'.
Qed.

Lemma find_first {A : Type} (f : A → bool) (l : list A) (x : A) :
  List.find f l = Some x →
  ∃ before after,
    l = before ++ x :: after ∧ Forall (fun y => f y = false) before
    ∧ f x = true.
Proof.
  induction l as [|y l IH]; [done|]. cbn [List.find].
  destruct (f y) eqn:Hy.
  - intros [= <-]. by exists [], l.
  - intros H. destruct (IH H) as (before & after & -> & Hb & Hx).
    exists (y :: before), after. split; [done|]. split; [by constructor|done].
Qed.

Lemma find_none_all {A : Type} (f : A → bool) (l : list A) :
  List.find f l = None → Forall (fun y => f y = false) l.
Proof.
  induction l as [|y l IH]; [constructor|]. cbn [List.find].
  destruct (f y) eqn:Hy; [done|]. intros H. constructor; [done|by apply IH].
Qed.

(** The entry the parser answers from is the section the rule names. *)
Lemma entry_for_section (p : robotparser.RobotFileParser) (useragent : str) :
  section_for p useragent (robotparser.entry_for p useragent).
Proof.
  unfold robotparser.entry_for.
  assert (Hno : ∀ l, Forall (fun y => robotparser.entry_applies_to y useragent
                                      = false) l →
                     Forall (fun e' => ¬ applies e' useragent) l).
  { intros l Hl. eapply Forall_impl; [exact Hl|]. cbv beta. intros y Hy Ha.
    apply entry_applies_to_applies in Ha. congruence. }
  destruct (List.find _ _) as [e|] eqn:Hf.
  - apply find_first in Hf as (before & after & Heq & Hb & He).
    eapply section_own; [exact Heq|by apply Hno|].
    by apply entry_applies_to_applies.
  - apply section_wildcard. by apply Hno, find_none_all.
Qed.

Lemma with_fallback_match {A : Type} (own wildcard : option A) :
  match own with Some _ => own | None => wildcard end
  = with_fallback own wildcard.
Proof. by destruct own. Qed.

Lemma section_rate_wf (p : robotparser.RobotFileParser) (agent : str)
    (r : robotparser.RequestRate) :
  parser_wf p →
  robotparser.entry_for p agent ≫= robotparser.req_rate = Some r →
  (0 ≤ robotparser.requests r)%Z ∧ (0 ≤ robotparser.seconds r)%Z.
Proof.
  intros (_ & Hes & Hd). unfold robotparser.entry_for.
  destruct (List.find _ _) as [e|] eqn:Hf; simpl.
  - apply find_some in Hf as [Hin _]. intros Hr.
    rewrite Forall_forall in Hes. apply list_elem_of_In in Hin.
    by apply (Hes e Hin r).
  - destruct (robotparser.default_entry p) as [e|] eqn:He; simpl; [|done].
    intros Hr. by apply (Hd e eq_refl r).
Qed.

(** *** The greater of two numbers *)

Lemma compare_int_not_nan (z : Z) (f : float64.float) :
  float64.is_nan f = false → ∃ c, float64.compare_int z f = Some c.
Proof. destruct f; try done; intros _; eexists; reflexivity. Qed.

Lemma number_max_is_maximum (a b : number.number) :
  (∀ f, a = number.Float f → float64.is_nan f = false) →
  (∀ f, b = number.Float f → float64.is_nan f = false) →
  is_maximum a b (number.max a b).
Proof.
  intros Ha Hb. unfold is_maximum, number.max.
  destruct a as [x|x], b as [y|y]; cbn [number.ltb].
  - destruct (Z.ltb_spec x y); (split; [auto|]); cbn [number_le]; lia.
  - destruct (compare_int_not_nan x y (Hb y eq_refl)) as [c Hc]. rewrite Hc.
    destruct c; (split; [auto|]); cbn [number_le]; rewrite ?Hc.
    + split; [lia|auto].
    + split; [auto|]. apply leb_refl. by apply Hb.
    + split; [lia|auto].
  - destruct (compare_int_not_nan y x (Ha x eq_refl)) as [c Hc]. rewrite Hc.
    destruct c; (split; [auto|]); cbn [number_le]; rewrite ?Hc.
    + split; [|auto]. apply leb_refl. by apply Ha.
    + split; [|auto]. apply leb_refl. by apply Ha.
    + split; [auto|lia].
  - specialize (Ha x eq_refl). specialize (Hb y eq_refl).
    destruct (float64.ltb x y) eqn:Hlt; (split; [auto|]); cbn [number_le].
    + split; [by apply ltb_leb|by apply leb_refl].
    + split; [by apply leb_refl|by apply ltb_false_leb].
Qed.

Lemma int_truediv_not_nan (a b : Z) (f : float64.float) :
  float64.int_truediv a b = Ok f → float64.is_nan f = false.
Proof. intros H%int_truediv_signed. by destruct f. Qed.

(** *** The delay resolved *)

(** On a well-formed parser the code resolves the delay as specified. *)
Lemma _extract_delay_resolved (user_agent : str)
    (p : robotparser.RobotFileParser) :
  parser_wf p →
  let own := robotparser.entry_for p user_agent in
  let wildcard := robotparser.entry_for p (lit "*") in
  let delay :=
    with_fallback (own ≫= robotparser.delay) (wildcard ≫= robotparser.delay) in
  let rate :=
    with_fallback (own ≫= robotparser.req_rate)
                  (wildcard ≫= robotparser.req_rate) in
  _extract_delay user_agent p
  = (r ← rate_seconds rate;
     Ok (number.max (delay_seconds delay) (number.Float r))).
Proof.
  intros Hwf own wildcard delay rate. pose proof Hwf as (Hl & _ & _).
  unfold _extract_delay, robotparser.crawl_delay, robotparser.request_rate.
  rewrite Hl. cbn [negb]. fold own wildcard.
  rewrite !with_fallback_match.
  change (with_fallback (own ≫= (λ e, robotparser.delay e))
                        (wildcard ≫= (λ e, robotparser.delay e))) with delay.
  change (with_fallback (own ≫= (λ e, robotparser.req_rate e))
                        (wildcard ≫= (λ e, robotparser.req_rate e))) with rate.
  assert (Hreq : ∀ x, rate = Some x → (0 ≤ robotparser.requests x)%Z).
  { intros x Hx. subst rate. unfold with_fallback in Hx.
    destruct (own ≫= robotparser.req_rate) eqn:Hown.
    - injection Hx as ->.
      by destruct (section_rate_wf p user_agent x Hwf Hown).
    - by destruct (section_rate_wf p (lit "*") x Hwf Hx). }
  assert (Hd : or_zero (number.Int <$> delay) = delay_seconds delay).
  { destruct delay as [z|]; [|done]. cbn [fmap option_fmap option_map or_zero
      number.truth delay_seconds]. by destruct (z =? 0)%Z. }
  rewrite Hd.
  assert (Hf : ∀ q, or_zero (Some (number.Float q))
                    = number.Float (if float64.eqb q float64.zero
                                    then float64.zero else q)).
  { intros q. cbn [or_zero number.truth]. unfold float64.truth.
    by destruct (float64.eqb q float64.zero). }
  destruct rate as [x|]; cbn [rate_seconds].
  - specialize (Hreq x eq_refl).
    destruct (Z.eqb_spec (robotparser.requests x) 0) as [Hz|Hz]; cbn [negb].
    + rewrite !bind_Ok. by rewrite Hf.
    + rewrite Z.max_l by lia.
      destruct (float64.int_truediv _ _) as [q|e]; [|done].
      rewrite !bind_Ok. by rewrite Hf.
  - rewrite !bind_Ok. by rewrite Hf.
Qed.

(** C7. For every robots text that parses, the explicit crawl delay and
    the request rate are each read from the section that applies to the
    caller's agent (the first whose User-agent value occurs in the name of
    the agent, the empty value occurring in every name, and the wildcard
    section when there is none) when that section carries the value, and
    from the section that applies to the wildcard otherwise. When the
    delay the rate asks for, seconds divided by requests, is a float, the
    delay resolved is the greater of the explicit delay and of it, a
    missing value counting as zero; when the quotient is beyond the floats
    the resolution raises. *)
Theorem extract_delay_is_max (unquote quote : str → str) (lines : list str)
    (p : robotparser.RobotFileParser) (user_agent : str) :
  robotparser.parse unquote quote robotparser.new_parser lines = Ok p →
  ∃ own wildcard : option robotparser.Entry,
    section_for p user_agent own
    ∧ section_for p (lit "*") wildcard
    ∧ let delay :=
        with_fallback (own ≫= robotparser.delay)
                      (wildcard ≫= robotparser.delay) in
      let rate :=
        with_fallback (own ≫= robotparser.req_rate)
                      (wildcard ≫= robotparser.req_rate) in
      match rate_seconds rate with
      | Ok r =>
          ∃ v, _extract_delay user_agent p = Ok v
               ∧ is_maximum (delay_seconds delay) (number.Float r) v
      | Raise e => _extract_delay user_agent p = Raise e
      end.
Proof.
  intros Hp. apply robotparser_facts.parse_wf in Hp.
  exists (robotparser.entry_for p user_agent),
         (robotparser.entry_for p (lit "*")).
  split; [apply entry_for_section|]. split; [apply entry_for_section|].
  cbv zeta. rewrite (_extract_delay_resolved user_agent p Hp). cbv zeta.
  set (delay := with_fallback (_ ≫= robotparser.delay) _).
  set (rate := with_fallback (_ ≫= robotparser.req_rate) _).
  destruct (rate_seconds rate) as [r|e] eqn:Hr; [|done].
  rewrite bind_Ok. eexists. split; [reflexivity|].
  apply number_max_is_maximum.
  - unfold delay_seconds. intros f.
    destruct delay as [z|]; [destruct (z =? 0)%Z|]; by intros [= <-].
  - intros f [= <-]. unfold rate_seconds in Hr.
    destruct rate as [x|]; [|by injection Hr as <-].
    destruct (robotparser.requests x =? 0)%Z; [by injection Hr as <-|].
    destruct (float64.int_truediv _ _) as [q|] eqn:Hq; [|done].
    rewrite bind_Ok in Hr. injection Hr as <-.
    apply int_truediv_not_nan in Hq.
    by destruct (float64.eqb q float64.zero).
Qed.

(** A robots text whose own section gives a rate and whose wildcard section
    gives a delay: the rate asks for 5/2 seconds, the delay for 2. *)
Lemma extract_delay_is_max_witness :
  let lines := [lit "User-agent: docbot"; lit "Request-rate: 2/5"; lit "";
                lit "User-agent: *"; lit "Crawl-delay: 2"] in
  ∃ p v,
    robotparser.parse id id robotparser.new_parser lines = Ok p
    ∧ _extract_delay (lit "DocBot/1.0") p = Ok v
    ∧ v = number.Float (float64.decimal 5 2)
    ∧ is_maximum (number.Int 2) (number.Float (float64.decimal 5 2)) v.
Proof.
  intros lines.
  destruct (robotparser.parse id id robotparser.new_parser lines) as [p|e]
    eqn:Hp; [|vm_compute in Hp; discriminate Hp].
  destruct (extract_delay_is_max id id lines p (lit "DocBot/1.0") Hp)
    as (own & wildcard & _ & _ & H).
  assert (Hv : _extract_delay (lit "DocBot/1.0") p
               = Ok (number.Float (float64.decimal 5 2))).
  { vm_compute in Hp. injection Hp as <-. vm_compute. reflexivity. }
  exists p, (number.Float (float64.decimal 5 2)).
  split; [done|]. split; [done|]. split; [done|].
  cbv zeta in H. destruct (rate_seconds _) as [r|e]; [|congruence].
  destruct H as (v & Hv' & Hmax). rewrite Hv in Hv'. injection Hv' as <-.
  destruct Hmax as (Hv' & Hle & _). split; [by right|].
  split; [|by apply leb_refl]. cbn. left. vm_compute. reflexivity.
Defined.

(** A rate of one request in [10^400] seconds is parsed, and the delay it
    asks for is beyond the floats: no delay is resolved. *)
Lemma extract_delay_overflows :
  let lines := [lit "User-agent: *";
                lit "Request-rate: 1/1" ++ replicate 400 "0"%char] in
  ∃ p, robotparser.parse id id robotparser.new_parser lines = Ok p
       ∧ _extract_delay (lit "DocBot/1.0") p = Raise OverflowError.
Proof.
  intros lines. eexists. split; vm_compute; reflexivity.
Qed.

(** A section whose User-agent value is empty applies to every agent, and
    comes before the wildcard section. *)
Example extract_delay_empty_agent :
  let lines := [lit "User-agent:"; lit "Crawl-delay: 9"; lit "";
                lit "User-agent: *"; lit "Crawl-delay: 2"] in
  ∃ p, robotparser.parse id id robotparser.new_parser lines = Ok p
       ∧ _extract_delay (lit "DocBot/1.0") p = Ok (number.Int 9).
Proof.
  intros lines. eexists. split; vm_compute; reflexivity.
Qed.

End robots_manager_facts.
(** ** Merging tab blocks *)

Module tab_traversal_facts.
Import pystr tab_traversal spec.

Lemma key_le_total (a b : TabMarkdownBlock) :
  key_le a b = false → key_le b a = true.
Proof.
  unfold key_le. intros H.
  apply orb_false_iff in H as [H1 H2]. apply Z.ltb_ge in H1.
  apply andb_false_iff in H2.
  apply orb_true_iff.
  destruct (Z.eq_dec (group_index a) (group_index b)) as [He|He].
  - right. destruct H2 as [H2|H2]; [apply Z.eqb_neq in H2; done|].
    apply Z.leb_gt in H2. apply andb_true_iff. split; [apply Z.eqb_eq|apply Z.leb_le]; lia.
  - left. apply Z.ltb_lt. lia.
Qed.

Lemma key_le_trans (a b c : TabMarkdownBlock) :
  key_le a b = true → key_le b c = true → key_le a c = true.
Proof.
  unfold key_le. rewrite !orb_true_iff, !andb_true_iff, !Z.ltb_lt,
    !Z.eqb_eq, !Z.leb_le. lia.
Qed.

Lemma key_le_false_key (b x : TabMarkdownBlock) (k i : Z) :
  key_le b x = false → has_key k i b → ¬ has_key k i x.
Proof.
  unfold key_le, has_key. intros H [<- <-] [Hk Hi].
  apply orb_false_iff in H as [_ H]. apply andb_false_iff in H as [H|H].
  - apply Z.eqb_neq in H. done.
  - apply Z.leb_gt in H. lia.
Qed.

Lemma insert_block_perm (b : TabMarkdownBlock) (l : list TabMarkdownBlock) :
  insert_block b l ≡ₚ b :: l.
Proof.
  induction l as [|x l IH]; simpl; [done|].
  destruct (key_le b x); [done|].
  rewrite IH. apply Permutation_swap.
Qed.

Lemma insert_block_sorted (b : TabMarkdownBlock) (l : list TabMarkdownBlock) :
  StronglySorted (fun a b => key_le a b = true) l →
  StronglySorted (fun a b => key_le a b = true) (insert_block b l).
Proof.
  induction 1 as [|x l Hs IH Hx]; simpl.
  { repeat constructor. }
  destruct (key_le b x) eqn:Hbx.
  - constructor; [by constructor|]. constructor; [done|].
    eapply Forall_impl; [exact Hx|]. simpl. intros y Hy.
    by eapply key_le_trans.
  - constructor; [done|].
    rewrite insert_block_perm. constructor; [|done].
    by apply key_le_total.
Qed.

Lemma insert_block_filter (b : TabMarkdownBlock) (l : list TabMarkdownBlock)
    (k i : Z) :
  filter (has_key k i) (insert_block b l) = filter (has_key k i) (b :: l).
Proof.
  induction l as [|x l IH]; simpl; [done|].
  destruct (key_le b x) eqn:Hbx; [done|].
  rewrite filter_cons, IH, !filter_cons.
  destruct (decide (has_key k i b)) as [Hb|Hb]; [|done].
  destruct (decide (has_key k i x)) as [Hx|Hx]; [|done].
  by destruct (key_le_false_key b x k i Hbx Hb).
Qed.

Lemma sorted_stable_order (blocks : list TabMarkdownBlock) :
  stable_order blocks (sorted blocks).
Proof.
  unfold stable_order, sorted.
  induction blocks as [|b blocks (IH1 & IH2 & IH3)]; simpl.
  { split; [done|]. split; [constructor|done]. }
  split; [|split].
  - by rewrite insert_block_perm, IH1.
  - by apply insert_block_sorted.
  - intros k i. by rewrite insert_block_filter, !filter_cons, IH3.
Qed.

Lemma filter_none {A : Type} (P : A → Prop) `{∀ x, Decision (P x)}
    (l : list A) :
  (∀ x, x ∈ l → ¬ P x) → filter P l = [].
Proof.
  induction l as [|x l IH]; intros Hl; [done|].
  rewrite filter_cons, decide_False.
  - apply IH. intros y Hy. apply Hl. by apply list_elem_of_further.
  - apply Hl, list_elem_of_here.
Qed.

Lemma setdefault_append_keys (k : Z) (b : TabMarkdownBlock)
    (d : list (Z * list TabMarkdownBlock)) :
  (setdefault_append k b d).*1
  = if bool_decide (k ∈ d.*1) then d.*1 else d.*1 ++ [k].
Proof.
  induction d as [|[k' v] d IH].
  { cbn [setdefault_append fmap list_fmap fst].
    rewrite bool_decide_eq_false_2; [done|]. apply not_elem_of_nil. }
  cbn [setdefault_append].
  destruct (k' =? k)%Z eqn:Hk.
  - apply Z.eqb_eq in Hk as ->. rewrite !fmap_cons. cbn [fst].
    rewrite bool_decide_eq_true_2; [done|]. apply list_elem_of_here.
  - apply Z.eqb_neq in Hk. rewrite !fmap_cons. cbn [fst]. rewrite IH.
    destruct (bool_decide (k ∈ d.*1)) eqn:Hin.
    + apply bool_decide_eq_true in Hin.
      rewrite bool_decide_eq_true_2; [done|]. by apply list_elem_of_further.
    + apply bool_decide_eq_false in Hin.
      rewrite bool_decide_eq_false_2; [done|].
      rewrite elem_of_cons. intros [?|?]; done.
Qed.

Lemma setdefault_append_values (b : TabMarkdownBlock)
    (processed : list TabMarkdownBlock)
    (d : list (Z * list TabMarkdownBlock)) :
  NoDup d.*1 →
  (group_index b ∉ d.*1 →
   filter (fun b' => group_index b' = group_index b) processed = []) →
  Forall (fun kv => kv.2 ≠ []
                    ∧ kv.2 = filter (fun b' => group_index b' = kv.1) processed)
         d →
  Forall (fun kv => kv.2 ≠ []
                    ∧ kv.2 = filter (fun b' => group_index b' = kv.1)
                                    (processed ++ [b]))
         (setdefault_append (group_index b) b d).
Proof.
  assert (Hother : ∀ kv : Z * list TabMarkdownBlock,
            kv.1 ≠ group_index b →
            kv.2 ≠ [] ∧ kv.2 = filter (fun b' => group_index b' = kv.1) processed →
            kv.2 ≠ []
            ∧ kv.2 = filter (fun b' => group_index b' = kv.1) (processed ++ [b])).
  { intros kv Hk [H1 H2]. split; [done|].
    rewrite filter_app, filter_cons, decide_False by done.
    by rewrite filter_nil, app_nil_r. }
  induction d as [|[k' v] d IH]; simpl; intros Hnd Hfresh Hall.
  - constructor; [|constructor]. simpl. split; [done|].
    rewrite filter_app, filter_cons, decide_True, filter_nil by done.
    rewrite Hfresh; [done|]. apply not_elem_of_nil.
  - apply NoDup_cons in Hnd as [Hk' Hnd].
    apply Forall_cons in Hall as [[Hv1 Hv2] Hall]. simpl in *.
    destruct (k' =? group_index b)%Z eqn:Hk.
    + apply Z.eqb_eq in Hk as ->. constructor; simpl.
      * split; [by destruct v|].
        rewrite filter_app, filter_cons, decide_True, filter_nil by done.
        by rewrite <- Hv2.
      * rewrite Forall_forall in Hall. apply Forall_forall.
        intros kv Hkv. apply Hother; [|by apply Hall].
        intros Heq. apply Hk'. rewrite <- Heq.
        apply list_elem_of_fmap. by exists kv.
    + apply Z.eqb_neq in Hk. constructor; simpl.
      * by apply (Hother (k', v)).
      * apply IH; [done| |done]. intros Hnot. apply Hfresh.
        rewrite elem_of_cons. intros [?|?]; done.
Qed.

Lemma setdefault_append_upto (b : TabMarkdownBlock)
    (processed : list TabMarkdownBlock)
    (d : list (Z * list TabMarkdownBlock)) :
  grouped_upto processed d →
  grouped_upto (processed ++ [b]) (setdefault_append (group_index b) b d).
Proof.
  intros (Hnd & Hcover & Hall). split; [|split].
  - rewrite setdefault_append_keys. case_bool_decide as Hin; [done|].
    apply NoDup_app. split; [done|]. split; [|apply NoDup_singleton].
    intros k Hk Hk'. apply list_elem_of_singleton in Hk' as ->. done.
  - intros b' Hb'. rewrite setdefault_append_keys.
    apply elem_of_app in Hb' as [Hb'|Hb'].
    + specialize (Hcover b' Hb'). case_bool_decide; [done|].
      apply elem_of_app. by left.
    + apply list_elem_of_singleton in Hb' as ->.
      case_bool_decide as Hin; [done|]. apply elem_of_app. right.
      apply list_elem_of_here.
  - apply setdefault_append_values; [done| |done].
    intros Hnot. apply filter_none.
    intros b' Hb' Heq. apply Hnot. rewrite <- Heq. by apply Hcover.
Qed.

Lemma key_le_group (a b : TabMarkdownBlock) :
  key_le a b = true → (group_index a ≤ group_index b)%Z.
Proof.
  unfold key_le. rewrite orb_true_iff, andb_true_iff, Z.ltb_lt, Z.eqb_eq. lia.
Qed.

Lemma grouped_upto_key (processed : list TabMarkdownBlock)
    (d : list (Z * list TabMarkdownBlock)) (k : Z) :
  grouped_upto processed d → k ∈ d.*1 →
  ∃ b, b ∈ processed ∧ group_index b = k.
Proof.
  intros (_ & _ & Hall) Hk.
  apply list_elem_of_fmap in Hk as ([k' v] & -> & Hkv). simpl.
  rewrite Forall_forall in Hall. destruct (Hall _ Hkv) as [Hne Hv].
  simpl in *. destruct v as [|b v]; [done|]. exists b.
  assert (Hb : b ∈ filter (fun b' => group_index b' = k') processed).
  { rewrite <- Hv. apply list_elem_of_here. }
  apply list_elem_of_filter in Hb. tauto.
Qed.

Lemma foldl_grouped (l : list TabMarkdownBlock) :
  ∀ (processed : list TabMarkdownBlock) (d : list (Z * list TabMarkdownBlock)),
    StronglySorted (fun a b => key_le a b = true) (processed ++ l) →
    grouped_upto processed d → StronglySorted Z.lt d.*1 →
    grouped_upto (processed ++ l)
      (foldl (fun d b => setdefault_append (group_index b) b d) d l)
    ∧ StronglySorted Z.lt
        (foldl (fun d b => setdefault_append (group_index b) b d) d l).*1.
Proof.
  induction l as [|b l IH]; intros processed d Hs Hd Hk; simpl.
  { by rewrite app_nil_r. }
  replace (processed ++ b :: l) with ((processed ++ [b]) ++ l) in *
    by (by rewrite <- app_assoc).
  apply IH; [done|by apply setdefault_append_upto|].
  rewrite setdefault_append_keys. case_bool_decide as Hin; [done|].
  apply StronglySorted_app. split; [|split; [done|repeat constructor]].
  intros k k' Hkin Hk'. apply list_elem_of_singleton in Hk' as ->.
  destruct (grouped_upto_key _ _ _ Hd Hkin) as (b' & Hb' & <-).
  apply StronglySorted_app_1_l in Hs.
  assert (Hle : key_le b' b = true).
  { apply (StronglySorted_app_1_elem_of
             (fun a b => key_le a b = true) processed [b] b' b Hs Hb').
    apply list_elem_of_here. }
  apply key_le_group in Hle.
  assert (group_index b' ≠ group_index b); [|lia].
  intros Heq. apply Hin. by rewrite <- Heq.
Qed.

(** The groups that are merged partition the blocks. *)
Lemma groups_of_grouping (blocks : list TabMarkdownBlock) :
  is_grouping blocks (groups_of blocks).
Proof.
  pose proof (sorted_stable_order blocks) as Hst.
  exists (grouped blocks).*1, (sorted blocks). split; [done|].
  destruct Hst as (Hperm & Hsorted & _).
  destruct (foldl_grouped (sorted blocks) [] []) as [(Hnd & Hcover & Hall) Hk].
  { done. }
  { split; [constructor|]. split; [|constructor].
    intros b Hb. inversion Hb. }
  { constructor. }
  simpl in *. fold (grouped blocks) in *.
  split; [done|]. split.
  - intros b Hb. apply Hcover. by rewrite Hperm.
  - unfold groups_of. apply Forall2_fmap, Forall_Forall2_diag.
    exact Hall.
Qed.

Section Formatting.

Variable format : str → str → str → Z → Z → option str.
Variable heading_template : str.

(** The body of the loop has one of the three effects. *)
Lemma merge_group_effect (text : str) (g : list TabMarkdownBlock) :
  group_effect format heading_template text g
               (merge_group format heading_template text g).
Proof.
  unfold merge_group.
  fold (extras_of g). fold (anchor_of g).
  destruct (bool_decide (extras_of g = [])) eqn:He.
  { apply bool_decide_eq_true in He. by constructor. }
  apply bool_decide_eq_false in He.
  fold (insertion_of format heading_template g).
  assert (Happ : (if urllib_parse.nonempty text
                  then rstrip text ++ newlines
                       ++ insertion_of format heading_template g
                  else insertion_of format heading_template g)
                 = (if bool_decide (text = [])
                    then insertion_of format heading_template g
                    else rstrip text ++ newlines
                         ++ insertion_of format heading_template g)).
  { by destruct text. }
  rewrite Happ.
  destruct (anchor_of g) as [a|] eqn:Ha.
  - fold (anchor_text a).
    destruct (urllib_parse.nonempty (anchor_text a)) eqn:Hne.
    + apply pystr_facts.nonempty_true in Hne.
      destruct (find_sub (anchor_text a) text) as [pos|] eqn:Hf.
      * apply pystr_facts.find_sub_Some in Hf
          as (pre & post & Heq & Hlen & Hmin).
        assert (Htake : take (pos + length (anchor_text a)) text
                        = pre ++ anchor_text a).
        { rewrite Heq, app_assoc, <- Hlen, <- length_app.
          apply take_app_length. }
        assert (Hdrop : drop (pos + length (anchor_text a)) text = post).
        { rewrite Heq, app_assoc, <- Hlen, <- length_app.
          apply drop_app_length. }
        rewrite Htake, Hdrop, <- app_assoc.
        apply effect_insert; [done|done|done|].
        split; [done|]. rewrite Hlen. exact Hmin.
      * apply effect_append; [done|].
        intros a' Ha'. rewrite Ha in Ha'. injection Ha' as <-.
        right. intros (pre & post & Heq).
        by apply (pystr_facts.find_sub_None _ _ Hf pre post).
    + apply pystr_facts.nonempty_false in Hne.
      apply effect_append; [done|]. intros a' Ha'.
      rewrite Ha in Ha'. injection Ha' as <-. by left.
  - apply effect_append; [done|]. intros a' Ha'. by rewrite Ha in Ha'.
Qed.

Lemma foldl_merge_trace (gs : list (list TabMarkdownBlock)) :
  ∀ text : str,
    merge_trace format heading_template text gs
                (foldl (merge_group format heading_template) text gs).
Proof.
  induction gs as [|g gs IH]; intros text; simpl.
  - constructor.
  - econstructor; [apply merge_group_effect|apply IH].
Qed.

Lemma first_occurrence_unique (needle hay pre post pre' post' : str) :
  first_occurrence needle hay pre post →
  first_occurrence needle hay pre' post' →
  pre = pre' ∧ post = post'.
Proof.
  intros [H1 H2] [H1' H2'].
  pose proof (H2 pre' post' H1') as Hle. pose proof (H2' pre post H1) as Hge.
  assert (Hlen : length pre = length pre') by lia.
  rewrite H1 in H1'. apply app_inj_1 in H1' as [-> Hrest]; [|done].
  split; [done|]. by apply app_inv_head in Hrest.
Qed.

(** The effect of a group is determined by the document and the group. *)
Lemma group_effect_functional (text : str) (g : list TabMarkdownBlock)
    (t1 t2 : str) :
  group_effect format heading_template text g t1 →
  group_effect format heading_template text g t2 →
  t1 = t2.
Proof.
  intros H1 H2.
  destruct H1 as [He|a pre post He Ha Hne Hocc|He Hno];
    destruct H2 as [He'|a' pre' post' He' Ha' Hne' Hocc'|He' Hno'];
    try done.
  - rewrite Ha in Ha'. injection Ha' as <-.
    by destruct (first_occurrence_unique _ _ _ _ _ _ Hocc Hocc') as [-> ->].
  - destruct (Hno' a Ha) as [H|H]; [done|].
    exfalso. apply H. destruct Hocc as [Hocc _]. by exists pre, post.
  - destruct (Hno a' Ha') as [H|H]; [done|].
    exfalso. apply H. destruct Hocc' as [Hocc' _]. by exists pre', post'.
Qed.

Lemma merge_trace_functional (gs : list (list TabMarkdownBlock)) :
  ∀ text t1 t2 : str,
    merge_trace format heading_template text gs t1 →
    merge_trace format heading_template text gs t2 →
    t1 = t2.
Proof.
  induction gs as [|g gs IH]; intros text t1 t2 H1 H2;
    inversion H1; inversion H2; subst; [done|].
  match goal with
  | Ha : group_effect _ _ text g ?x, Hb : group_effect _ _ text g ?y |- _ =>
      pose proof (group_effect_functional _ _ _ _ Ha Hb) as ->
  end.
  by eapply IH.
Qed.

(** C3, amended. [merge_into_markdown] is a function of its arguments, and
    its result is reached from the stripped base markdown by letting the
    groups take effect one after the other, in ascending order of the group
    index, each on the document as the groups before it left it: a group
    without a block of index above 0 changes nothing; if the group has an
    anchor whose stripped text is not empty and occurs in the document, the
    heading-prefixed extras are inserted right after the first occurrence
    of that text; otherwise they are appended at the end. *)
Theorem merge_into_markdown_by_groups (base : str)
    (blocks : list TabMarkdownBlock) :
  is_grouping blocks (groups_of blocks)
  ∧ merge_trace format heading_template (strip base) (groups_of blocks)
                (merge_into_markdown format heading_template base blocks)
  ∧ ∀ result,
      merge_trace format heading_template (strip base) (groups_of blocks)
                  result →
      result = merge_into_markdown format heading_template base blocks.
Proof.
  split; [apply groups_of_grouping|].
  assert (H : merge_trace format heading_template (strip base)
                (groups_of blocks)
                (merge_into_markdown format heading_template base blocks)).
  { apply foldl_merge_trace. }
  split; [exact H|].
  intros result Hr. by eapply merge_trace_functional.
Qed.

End Formatting.

(** An anchor whose markdown is empty occurs, as the empty text, at the
    very start of the document; the extras are not inserted there but
    appended at the end. *)
Lemma merge_empty_anchor_appends :
  let tpl := lit "#### [Tab: {group} - {label}]" in
  let a := mkBlock (lit "Install") (lit "pip") [] 0 0 [] in
  let x := mkBlock (lit "Install") (lit "uv") (lit "uv add crawl") 1 0 [] in
  let base := lit "hello" in
  groups_of [a; x] = [[a; x]]
  ∧ anchor_of [a; x] = Some a
  ∧ extras_of [a; x] = [x]
  ∧ first_occurrence (anchor_text a) (strip base) [] (lit "hello")
  ∧ merge_into_markdown default_heading tpl base [a; x]
    = lit "hello" ++ newlines ++ lit "#### [Tab: Install - uv]" ++ newlines
        ++ lit "uv add crawl"
  ∧ merge_into_markdown default_heading tpl base [a; x]
    ≠ [] ++ anchor_text a ++ newlines
         ++ insertion_of default_heading tpl [a; x] ++ lit "hello".
Proof.
  intros tpl a x base.
  split; [reflexivity|]. split; [reflexivity|]. split; [reflexivity|].
  split.
  { split; [reflexivity|]. intros pre' post' _. simpl. lia. }
  split; [vm_compute; reflexivity|].
  vm_compute. discriminate.
Qed.

(** Scenario C of the specification: the extra of the first group goes
    right after its anchor, the second group has no extras. *)
Example merge_scenario_C :
  let tpl := lit "#### [Tab: {group} - {label}]" in
  let pip := mkBlock (lit "Install") (lit "pip") (lit "pip install x") 0 0 [] in
  let uv := mkBlock (lit "Install") (lit "uv") (lit "uv add x") 1 0 [] in
  let linux := mkBlock (lit "OS") (lit "Linux") (lit "apt") 0 1 [] in
  merge_into_markdown default_heading tpl
    (lit "Intro" ++ newlines ++ lit "pip install x" ++ newlines ++ lit "Outro")
    [linux; uv; pip]
  = lit "Intro" ++ newlines ++ lit "pip install x" ++ newlines
      ++ lit "#### [Tab: Install - uv]" ++ newlines ++ lit "uv add x"
      ++ newlines ++ lit "Outro".
Proof. vm_compute. reflexivity. Qed.

End tab_traversal_facts.

(** ** Normalizing URLs *)

Module utils_facts.
Import pystr pystr_facts pystr_search char_facts urllib_parse urllib_facts spec.

Lemma last_app_nonempty {A : Type} (l1 l2 : list A) (d : A) :
  l2 ≠ [] → List.last (l1 ++ l2) d = List.last l2 d.
Proof.
  intros H. induction l1 as [|x l1 IH]; [done|].
  simpl. destruct (l1 ++ l2) eqn:E; [|done].
  apply app_eq_nil in E as [_ ->]. done.
Qed.

(** Without a semicolon in the last segment no parameters are split off. *)
Lemma _splitparams_none (url : str) :
  "/"%char ∈ url → ";"%char ∉ last_segment url →
  _splitparams url = (url, []).
Proof.
  intros Hslash Hsemi. unfold _splitparams.
  rewrite (proj2 (mem_char_true "/" url) Hslash).
  assert (Hrev : "/"%char ∈ rev url) by (by apply elem_of_rev).
  destruct (find_char "/" (rev url)) as [i|] eqn:Hf.
  2:{ apply find_char_None in Hf. done. }
  apply find_char_Some in Hf as (a & b & Hab & Ha & Hlen).
  assert (Hurl : url = rev b ++ "/"%char :: rev a).
  { rewrite <- (rev_involutive url), Hab, rev_app_distr. simpl.
    by rewrite <- app_assoc. }
  unfold rfind_char.
  assert (Hfind : find_char "/" (rev url) = Some i).
  { rewrite Hab, <- Hlen. by apply find_char_app. }
  rewrite Hfind. simpl.
  assert (Hidx : length url - 1 - i = length (rev b)).
  { rewrite Hurl, length_app. simpl. rewrite !List.length_rev. lia. }
  rewrite Hidx. unfold find_char_from.
  rewrite Hurl at 1. rewrite drop_app_length.
  assert (Hlast : last_segment url = rev a).
  { unfold last_segment. rewrite Hurl, split_app.
    rewrite last_app_nonempty by apply split_nonempty.
    rewrite split_no_sep; [done|]. by rewrite elem_of_rev. }
  rewrite Hlast in Hsemi. apply find_char_None in Hsemi.
  simpl. by rewrite Hsemi.
Qed.

Lemma urlsplit_rest_netloc (sch nl pth q : str) :
  no_delims nl → unbalanced_brackets nl = false →
  delimited pth →
  "?"%char ∉ pth → "#"%char ∉ pth → "#"%char ∉ q →
  urlsplit_rest sch
    (lit "//" ++ nl ++ pth ++ (if nonempty q then lit "?" ++ q else []))
  = Ok (mkParse sch nl pth [] q []).
Proof.
  intros Hnl Hb Hs Hq1 Hh1 Hh2. unfold urlsplit_rest.
  change (startswith (lit "//") (lit "//" ++ ?x)) with true. cbv iota.
  rewrite _splitnetloc_app; [|done|].
  2:{ destruct pth; [by destruct q|done]. }
  rewrite Hb.
  destruct q as [|c q]; cbn [nonempty].
  - rewrite app_nil_r.
    rewrite (proj2 (cut_None "#" pth) Hh1), (proj2 (cut_None "?" pth) Hq1).
    done.
  - assert (Hcut : cut "#" (pth ++ lit "?" ++ c :: q) = None).
    { apply cut_None. rewrite !elem_of_app. intros [H|[H|H]]; [done| |done].
      by apply list_elem_of_singleton in H. }
    rewrite Hcut. change (pth ++ lit "?" ++ c :: q)
      with (pth ++ "?"%char :: c :: q).
    by rewrite cut_app.
Qed.

Lemma startswith_delimited (pth : str) :
  startswith (lit "/") pth = true → delimited pth.
Proof. intros H. apply startswith_true in H as [t ->]. done. Qed.

Lemma urlunparse_netloc (sch nl pth q : str) :
  sch ≠ [] → nl ≠ [] → startswith (lit "/") pth = true →
  urlunparse sch nl pth [] q []
  = sch ++ ":"%char :: lit "//" ++ nl ++ pth
      ++ (if nonempty q then lit "?" ++ q else []).
Proof.
  intros Hsch Hnl Hs. unfold urlunparse, urlunsplit. cbn [nonempty].
  rewrite (proj2 (nonempty_true nl) Hnl), (proj2 (nonempty_true sch) Hsch), Hs.
  cbn [orb negb andb]. rewrite andb_false_r.
  destruct (nonempty q); [|by rewrite app_nil_r].
  by rewrite <- !app_assoc.
Qed.

Lemma lower_nonempty (s : str) : s ≠ [] → lower s ≠ [].
Proof. by destruct s. Qed.

(** What [normalize_url] builds from a parsed URL with a network location
    is a fixed point, unless the last segment of its path holds a
    semicolon. *)
Lemma normalize_parsed_fixed (p : ParseResult) (v : str) :
  parsed_wf p → netloc p ≠ [] →
  utils.normalize_parsed p = Some v →
  ";"%char ∉ last_segment (utils._normalized_path (path p)) →
  utils.normalize_url v None = Ok (Some v).
Proof.
  intros (Hsch & Hnc & Hnd & Hnb & Hpc & Hpq & Hph & Hqc & Hqh) Hnl.
  unfold utils.normalize_parsed.
  destruct (bool_decide (lower (scheme p) ∈ [lit "http"; lit "https"]))
    eqn:Hs; [|done].
  apply bool_decide_eq_true in Hs. intros [= <-] Hsemi.
  set (sch := lower (scheme p)) in *.
  set (nl := lower (netloc p)) in *.
  set (np := utils._normalized_path (path p)) in *.
  set (q := query p) in *.
  destruct (posixpath_facts._normalized_path_normal (path p))
    as [Hnorm Hchars]. fold np in Hnorm, Hchars.
  assert (Hstart : startswith (lit "/") np = true).
  { destruct Hnorm as (k & comps & t & -> & Hk & Hc & Ht).
    by destruct (posixpath_facts.initial_slashes_normal_path k comps t). }
  assert (Hvalid : valid_scheme sch ∧ sch ≠ []
                   ∧ bool_decide (sch ∈ uses_params) = true
                   ∧ bool_decide (lower sch ∈ [lit "http"; lit "https"])
                     = true).
  { apply elem_of_cons in Hs as [-> | Hs];
      [|apply list_elem_of_singleton in Hs as ->]; by vm_compute. }
  destruct Hvalid as (Hvalid & Hsne & Hup & Hlow).
  assert (Hnl' : nl ≠ []) by (by apply lower_nonempty).
  assert (Hnpq : "?"%char ∉ np).
  { intros H. by destruct (Hchars _ H). }
  assert (Hnph : "#"%char ∉ np).
  { intros H. by destruct (Hchars _ H). }
  assert (Hnpc : clean np).
  { intros c Hc. destruct (Hchars _ Hc) as [-> | H]; [done|by apply Hpc]. }
  rewrite urlunparse_netloc by done.
  set (rest := lit "//" ++ nl ++ np ++ (if nonempty q then lit "?" ++ q else [])).
  assert (Hrest : clean rest).
  { subst rest. rewrite !clean_app. split; [by apply clean_lit_check|].
    split; [by apply clean_lower|]. split; [done|].
    destruct (nonempty q); [|by intros c Hc; apply not_elem_of_nil in Hc].
    apply clean_app. split; [by apply clean_lit_check|done]. }
  assert (Hparse : urlparse (sch ++ ":"%char :: rest)
                   = Ok (mkParse sch nl np [] q [])).
  { unfold urlparse, urlparse_with.
    rewrite urlsplit_scheme by done. subst rest.
    rewrite urlsplit_rest_netloc;
      [ | by apply no_delims_lower
        | subst nl; by rewrite unbalanced_brackets_lower
        | by apply startswith_delimited | done | done | done ].
    rewrite bind_Ok. cbn [scheme path]. rewrite Hup. cbn [andb].
    destruct (mem_char ";" np) eqn:Hm; [|done].
    rewrite _splitparams_none; [done| |done].
    apply startswith_true in Hstart as [t ->]. apply list_elem_of_here. }
  unfold utils.normalize_url.
  assert (Hne : nonempty (sch ++ ":"%char :: rest) = true).
  { by destruct sch. }
  rewrite Hne, Hparse. cbn [negb]. rewrite bind_Ok. cbn [scheme].
  rewrite (proj2 (nonempty_true sch) Hsne). cbn [negb].
  unfold utils.normalize_parsed. cbn [scheme netloc path query].
  rewrite Hlow.
  assert (Hsl : lower sch = sch) by apply lower_idem.
  assert (Hnll : lower nl = nl) by apply lower_idem.
  rewrite Hsl, Hnll.
  subst np. rewrite posixpath_facts._normalized_path_idem.
  by rewrite urlunparse_netloc.
Qed.

(** C9. [normalize_url] is idempotent on every absolute http or https URL
    with a network location whose normalized path has no semicolon in its
    last segment: normalizing the result again returns the same string. *)
Theorem normalize_url_idempotent (u v : str) (p : ParseResult) :
  urlparse u = Ok p → netloc p ≠ [] →
  utils.normalize_url u None = Ok (Some v) →
  ";"%char ∉ last_segment (utils._normalized_path (path p)) →
  utils.normalize_url v None = Ok (Some v).
Proof.
  intros Hp Hnl Hn Hsemi. unfold utils.normalize_url in Hn.
  destruct (nonempty u); cbn [negb] in Hn; [|done].
  rewrite Hp, bind_Ok in Hn.
  destruct (nonempty (scheme p)); cbn [negb] in Hn; [|done].
  injection Hn as Hn.
  apply (normalize_parsed_fixed p v); try done.
  by eapply urlparse_wf.
Qed.

(** A URL with redundant path segments, a query and a fragment. *)
Lemma normalize_url_idempotent_witness :
  let u := lit "HTTPS://Ex.com/docs/../Guide/./intro/?x=1#top" in
  let v := lit "https://ex.com/Guide/intro/?x=1" in
  utils.normalize_url u None = Ok (Some v)
  ∧ utils.normalize_url v None = Ok (Some v).
Proof.
  intros u v. split; [vm_compute; reflexivity|].
  apply (normalize_url_idempotent u v
           (mkParse (lit "https") (lit "Ex.com")
                    (lit "/docs/../Guide/./intro/") [] (lit "x=1")
                    (lit "top"))).
  - vm_compute; reflexivity.
  - discriminate.
  - vm_compute; reflexivity.
  - apply mem_char_false. vm_compute. reflexivity.
Defined.

(** A semicolon that ends up in the last segment is read as the start of
    the parameters the second time, and dropped. *)
Lemma normalize_url_not_idempotent :
  let u := lit "http://a/x;y/." in
  utils.normalize_url u None = Ok (Some (lit "http://a/x;y"))
  ∧ utils.normalize_url (lit "http://a/x;y") None = Ok (Some (lit "http://a/x"))
  ∧ utils.normalize_url (lit "http://a/x;y") None
    ≠ utils.normalize_url u None.
Proof.
  intros u. split; [vm_compute; reflexivity|].
  split; [vm_compute; reflexivity|]. vm_compute. discriminate.
Qed.

End utils_facts.

(** ** Robots policy when the download fails *)

Module robots_allowed_facts.
Import pystr pystr_facts pystr_search char_facts urllib_parse urllib_facts spec.
Import utils_facts robots_manager.

Lemma urlparse_of_urlsplit (url : str) (r : ParseResult) :
  urlsplit url [] = Ok r →
  ∃ r', urlparse url = Ok r' ∧ scheme r' = scheme r ∧ netloc r' = netloc r.
Proof.
  intros H. unfold urlparse, urlparse_with. rewrite H, bind_Ok.
  destruct (_ && _); [|by exists r].
  destruct (_splitparams (path r)) as [u par]. by eexists.
Qed.

Lemma urlsplit_rest_no_netloc (sch url : str) :
  startswith (lit "//") url = false →
  ∃ r, urlsplit_rest sch url = Ok r ∧ scheme r = sch ∧ netloc r = [].
Proof.
  intros H. unfold urlsplit_rest. rewrite H.
  change (unbalanced_brackets []) with false. cbv iota.
  destruct (match cut "#" url with Some p0 => p0 | None => _ end) as [u3 fr].
  destruct (match cut "?" u3 with Some p0 => p0 | None => _ end) as [pt q].
  by eexists.
Qed.

(** The origin computed from a URL that parses can itself be parsed, and
    so can the robots URL built from it. *)
Lemma robots_url_parses (target origin : str) :
  utils.domain_key target = Ok origin →
  ∃ robots_url r,
    _build_robots_url origin = Ok robots_url
    ∧ urlparse robots_url = Ok r.
Proof.
  unfold utils.domain_key. intros H.
  apply bind_Ok_inv in H as (p & Hp & H). injection H as <-.
  apply urlparse_wf in Hp as (Hsch & Hnc & Hnd & Hnb & _).
  set (nl := lower (netloc p)).
  assert (Hnlc : clean nl) by (by apply clean_lower).
  assert (Hnld : no_delims nl) by (by apply no_delims_lower).
  assert (Hnlb : unbalanced_brackets nl = false)
    by (subst nl; by rewrite unbalanced_brackets_lower).
  unfold _build_robots_url.
  destruct Hsch as [Hsch|Hsch].
  - rewrite Hsch. change (lower []) with (@nil ascii).
    assert (Ho : ∃ r, urlsplit ([] ++ lit "://" ++ nl) [] = Ok r
                      ∧ scheme r = [] ∧ netloc r = []).
    { unfold urlsplit. cbn [app lit list_ascii_of_string lstrip_by].
      change (is_c0_or_space ":") with false. cbv iota.
      change (remove_unsafe (strip_by is_c0_or_space [])) with (@nil ascii).
      rewrite remove_unsafe_id.
      2:{ intros c Hc. do 3 (apply elem_of_cons in Hc as [-> | Hc]; [done|]).
          by apply Hnlc. }
      unfold split_scheme. cbn [find_char]. change (Ascii.eqb ":" ":") with true.
      cbv iota. by apply urlsplit_rest_no_netloc. }
    destruct Ho as (r & Hr & Hrs & Hrn).
    apply urlparse_of_urlsplit in Hr as (r' & Hr' & Hs' & Hn').
    change ([] ++ lit "://" ++ nl)
      with (":"%char :: "/"%char :: "/"%char :: nl) in Hr'.
    cbn [app]. rewrite Hr', bind_Ok, Hs', Hn', Hrs, Hrn. cbn [nonempty].
    eexists _, _. split; [reflexivity|]. vm_compute. reflexivity.
  - destruct (valid_scheme_chars _ Hsch) as (Hlow & _ & _ & _).
    rewrite Hlow. set (sch := scheme p) in *.
    assert (Hne : nonempty sch = true) by (by destruct sch).
    assert (Ho : urlsplit (sch ++ lit "://" ++ nl) []
                 = Ok (mkParse sch nl [] [] [] [])).
    { change (sch ++ lit "://" ++ nl)
        with (sch ++ ":"%char :: lit "//" ++ nl).
      rewrite urlsplit_scheme; [|done|].
      2:{ apply clean_app. split; [by apply clean_lit_check|done]. }
      pose proof (urlsplit_rest_netloc sch nl [] []) as Hr.
      cbn [nonempty] in Hr. rewrite !app_nil_r in Hr.
      apply Hr; try done; apply not_elem_of_nil. }
    apply urlparse_of_urlsplit in Ho as (r' & Hr' & Hs' & Hn').
    change (sch ++ lit "://" ++ nl)
      with (sch ++ ":"%char :: "/"%char :: "/"%char :: nl) in Hr'.
    rewrite Hr', bind_Ok, Hs', Hn'. cbn [scheme netloc]. rewrite Hne.
    eexists _. 
    assert (Hparse : ∃ r, urlsplit (urlunparse sch nl (lit "/robots.txt") [] [] []) []
                          = Ok r).
    { unfold urlunparse, urlunsplit. cbn [nonempty]. rewrite Hne.
      cbn [andb].
      destruct (nonempty nl || _) eqn:Hcase.
      - cbn [startswith lit list_ascii_of_string nonempty negb andb].
        change (Ascii.eqb "/" "/") with true. cbn [andb negb app].
        rewrite urlsplit_scheme; [|done|].
        2:{ change (clean (lit "//" ++ nl ++ lit "/robots.txt")).
            rewrite !clean_app. split; [by apply clean_lit_check|].
            split; [done|by apply clean_lit_check]. }
        pose proof (urlsplit_rest_netloc sch nl (lit "/robots.txt") []) as Hr.
        cbn [nonempty] in Hr. rewrite !app_nil_r in Hr.
        eexists. apply Hr; try done.
        + apply mem_char_false. reflexivity.
        + apply mem_char_false. reflexivity.
        + apply not_elem_of_nil.
      - change (sch ++ lit ":" ++ lit "/robots.txt")
          with (sch ++ ":"%char :: lit "/robots.txt").
        rewrite urlsplit_scheme; [|done|by apply clean_lit_check].
        destruct (urlsplit_rest_no_netloc sch (lit "/robots.txt") eq_refl)
          as (r & Hr & _). by exists r. }
    destruct Hparse as [r Hr].
    apply urlparse_of_urlsplit in Hr as (r2 & Hr2 & _).
    exists r2. split; [reflexivity|]. exact Hr2.
Qed.

Section Quoting.

Variable unquote : str → str.
Variable quote : str → str.

(** X8. When no robots entry is cached for the origin of a URL and the
    download of its robots.txt fails (the client raises, the status is not
    200, or the body is empty), [allowed] returns true together with a
    [RobotsInfo] whose crawl delay is zero and whose raw text is empty, and
    caches it; it does not raise, provided the URL itself still parses
    after percent-decoding. *)
Theorem allowed_absorbs_failure (outcome : http_outcome) (target : str)
    (m : RobotsManager) (origin : str) :
  download_failed outcome →
  utils.domain_key target = Ok origin →
  _cache m !! origin = None →
  (∃ r, urlparse (unquote target) = Ok r) →
  ∃ info,
    allowed unquote quote outcome target m
    = (Ok (true, info),
       mkManager (_user_agent m) (<[origin := info]> (_cache m)))
    ∧ crawl_delay info = number.Float float64.zero
    ∧ raw_text info = [].
Proof.
  intros Hfail Hkey Hmiss [r Hr].
  destruct (robots_url_parses target origin Hkey)
    as (robots_url & r' & Hbuild & Hparse).
  unfold allowed, _get_info. rewrite Hkey, Hmiss, Hbuild, bind_Ok.
  unfold _download. rewrite Hparse, bind_Ok.
  assert (Htext : match outcome with
                  | Response status body =>
                      if (status =? 200)%Z then body else []
                  | NetworkError => []
                  end = []).
  { destruct outcome as [|status body]; [done|].
    destruct Hfail as [Hs | ->].
    - apply Z.eqb_neq in Hs. by rewrite Hs.
    - by destruct (status =? 200)%Z. }
  rewrite Htext. cbn [nonempty].
  change (robotparser.parse unquote quote robotparser.new_parser [])
    with (Ok (robotparser.mkParser [] [] None false false true)).
  rewrite bind_Ok.
  change (_extract_delay (_user_agent m)
            (robotparser.mkParser [] [] None false false true))
    with (@Ok number.number (number.Float float64.zero)).
  rewrite bind_Ok.
  unfold can_fetch, robotparser.can_fetch. cbn [parser].
  cbn [robotparser.disallow_all robotparser.allow_all
       robotparser.last_checked negb].
  rewrite Hr, bind_Ok.
  cbn [robotparser.entries robotparser.default_entry List.find].
  eexists. split; [reflexivity|]. split; reflexivity.
Qed.

(** What a successful call leaves in the cache. *)
Lemma allowed_Ok_cached (outcome : http_outcome) (target : str)
    (m m' : RobotsManager) (origin : str) (b : bool) (info : RobotsInfo) :
  utils.domain_key target = Ok origin →
  allowed unquote quote outcome target m = (Ok (b, info), m') →
  _cache m' !! origin = Some info ∧ _user_agent m' = _user_agent m.
Proof.
  intros Hkey. unfold allowed, _get_info. rewrite Hkey.
  destruct (_cache m !! origin) as [cached|] eqn:Hc.
  - destruct (can_fetch _ _ _ _ _) as [b'|e]; [|done].
    intros [= _ <- <-]. done.
  - destruct (_ ← _build_robots_url origin; _) as [fresh|e]; [|done].
    destruct (can_fetch _ _ _ _ _) as [b'|e]; [|done].
    intros [= _ <- <-]. cbn [_cache _user_agent].
    by rewrite lookup_insert_eq.
Qed.

(** X9. robots.txt is fetched once per origin: after a call of [allowed]
    that returned, every later call for a URL of the same origin returns the
    very same [RobotsInfo] and leaves the manager as it is, whatever the
    HTTP client would answer. *)
Theorem allowed_caches_per_origin (o1 o2 : http_outcome) (t1 t2 : str)
    (m m1 m2 : RobotsManager) (origin : str) (b1 b2 : bool)
    (info1 info2 : RobotsInfo) :
  utils.domain_key t1 = Ok origin →
  utils.domain_key t2 = Ok origin →
  allowed unquote quote o1 t1 m = (Ok (b1, info1), m1) →
  allowed unquote quote o2 t2 m1 = (Ok (b2, info2), m2) →
  info2 = info1 ∧ m2 = m1.
Proof.
  intros Hk1 Hk2 H1 H2.
  destruct (allowed_Ok_cached _ _ _ _ _ _ _ Hk1 H1) as [Hc _].
  unfold allowed, _get_info in H2. rewrite Hk2, Hc in H2.
  destruct (can_fetch _ _ _ _ _) as [b'|e]; [|done].
  by injection H2 as _ <- <-.
Qed.

End Quoting.

(** A 404 for a fresh origin. *)
Lemma allowed_absorbs_failure_witness :
  let m := mkManager (lit "DocBot/1.0") ∅ in
  let target := lit "https://ex.com/docs/a" in
  ∃ info,
    allowed id id (Response 404 (lit "Not Found")) target m
    = (Ok (true, info),
       mkManager (lit "DocBot/1.0") (<[lit "https://ex.com" := info]> ∅))
    ∧ crawl_delay info = number.Float float64.zero ∧ raw_text info = [].
Proof.
  intros m target.
  apply (allowed_absorbs_failure id id (Response 404 (lit "Not Found"))
           target m (lit "https://ex.com")).
  - left. done.
  - vm_compute. reflexivity.
  - reflexivity.
  - eexists. vm_compute. reflexivity.
Defined.

(** A robots.txt is served for the first URL; the client fails for the
    second URL of the same origin, and the rules of the first answer
    still apply. *)
Lemma allowed_caches_per_origin_witness :
  let m := mkManager (lit "DocBot/1.0") ∅ in
  let body := lit "User-agent: *" ++ ["010"%char] ++ lit "Disallow: /private" in
  let r1 := allowed id id (Response 200 body) (lit "https://ex.com/docs/a") m in
  let r2 := allowed id id NetworkError (lit "https://EX.com/private/x") r1.2 in
  ∃ info, r1.1 = Ok (true, info) ∧ r2.1 = Ok (false, info) ∧ r2.2 = r1.2.
Proof.
  cbv zeta.
  destruct (allowed id id (Response 200 _) (lit "https://ex.com/docs/a") _)
    as [[[b1 info1]|e1] m1] eqn:E1; [|by vm_compute in E1].
  cbn [fst snd].
  destruct (allowed id id NetworkError (lit "https://EX.com/private/x") m1)
    as [[[b2 info2]|e2] m2] eqn:E2.
  - cbn [fst snd].
    destruct (allowed_caches_per_origin id id _ _
                (lit "https://ex.com/docs/a") (lit "https://EX.com/private/x")
                _ _ _ (lit "https://ex.com") _ _ _ _
                ltac:(vm_compute; reflexivity) ltac:(vm_compute; reflexivity)
                E1 E2) as [-> ->].
    exists info1.
    vm_compute in E1. injection E1 as <- <- <-.
    vm_compute in E2. injection E2 as <-. done.
  - vm_compute in E1. injection E1 as _ _ <-. by vm_compute in E2.
Defined.

End robots_allowed_facts.

(** ** The output path *)

Module build_path_facts.
Import pystr pystr_facts pystr_search char_facts urllib_parse spec.

(** *** Stripping *)

Lemma lstrip_by_app (p : ascii → bool) (x z : str) :
  lstrip_by p (x ++ z)
  = if forallb p x then lstrip_by p z else lstrip_by p x ++ z.
Proof.
  induction x as [|c x IH]; simpl; [done|].
  destruct (p c); simpl; [done|done].
Qed.

Lemma lstrip_by_all (p : ascii → bool) (x : str) :
  forallb p x = true → lstrip_by p x = [].
Proof.
  induction x as [|c x IH]; simpl; [done|].
  intros H. apply andb_true_iff in H as [-> H]. by apply IH.
Qed.

Lemma rstrip_by_snoc (p : ascii → bool) (x : str) (d : ascii) :
  p d = true → rstrip_by p (x ++ [d]) = rstrip_by p x.
Proof.
  intros H. unfold rstrip_by. rewrite rev_app_distr. simpl. by rewrite H.
Qed.

Lemma strip_by_snoc (p : ascii → bool) (x : str) (d : ascii) :
  p d = true → strip_by p (x ++ [d]) = strip_by p x.
Proof.
  intros H. unfold strip_by. rewrite lstrip_by_app.
  destruct (forallb p x) eqn:Hx.
  - rewrite (lstrip_by_all p x Hx). simpl. by rewrite H.
  - by apply rstrip_by_snoc.
Qed.

Lemma lstrip_by_map (p : ascii → bool) (f : ascii → ascii) (s : str) :
  (∀ c, p (f c) = p c) → lstrip_by p (map f s) = map f (lstrip_by p s).
Proof.
  intros H. induction s as [|c s IH]; simpl; [done|].
  rewrite H. by destruct (p c).
Qed.

Lemma strip_by_map (p : ascii → bool) (f : ascii → ascii) (s : str) :
  (∀ c, p (f c) = p c) → strip_by p (map f s) = map f (strip_by p s).
Proof.
  intros H. unfold strip_by, rstrip_by.
  rewrite lstrip_by_map by done.
  rewrite <- map_rev, lstrip_by_map by done. by rewrite map_rev.
Qed.

Lemma lstrip_by_head (p : ascii → bool) (s : str) (c : ascii) (t : str) :
  lstrip_by p s = c :: t → p c = false.
Proof.
  induction s as [|x s IH]; simpl; [done|].
  destruct (p x) eqn:Hx; [done|]. by intros [= <- _].
Qed.

Lemma lstrip_by_elem (p : ascii → bool) (s : str) (c : ascii) :
  c ∈ lstrip_by p s → c ∈ s.
Proof.
  destruct (lstrip_by_suffix p s) as [pre Hpre]. intros H.
  rewrite Hpre. apply elem_of_app. by right.
Qed.

Lemma strip_by_elem (p : ascii → bool) (s : str) (c : ascii) :
  c ∈ strip_by p s → c ∈ s.
Proof.
  unfold strip_by, rstrip_by. rewrite elem_of_rev. intros H.
  apply lstrip_by_elem in H. rewrite elem_of_rev in H.
  by apply lstrip_by_elem in H.
Qed.

(** What is left after stripping does not end with a stripped character. *)
Lemma strip_by_last (p : ascii → bool) (s t : str) (c : ascii) :
  strip_by p s = t ++ [c] → p c = false.
Proof.
  unfold strip_by, rstrip_by. intros H.
  apply (f_equal (@rev ascii)) in H.
  rewrite rev_involutive, rev_app_distr in H. simpl in H.
  by eapply lstrip_by_head.
Qed.

(** *** Sanitizing *)

Lemma is_space_not_slug (c : ascii) :
  is_space c = true → utils.is_slug_char c = false.
Proof. all_chars c. Qed.

Lemma is_space_lower (c : ascii) : is_space (lower_char c) = is_space c.
Proof. all_chars c. Qed.

Lemma slug_char_not_slash (c : ascii) :
  utils.is_slug_char c = true → c ≠ "/"%char.
Proof. all_chars c. Qed.

Lemma sanitize_from_chars (s : str) :
  ∀ (b : bool) (c : ascii),
    c ∈ utils.sanitize_from b s → utils.is_slug_char c = true.
Proof.
  induction s as [|x s IH]; intros b c; simpl.
  { intros H. by apply not_elem_of_nil in H. }
  destruct (utils.is_slug_char x) eqn:Hx.
  - intros H. apply elem_of_cons in H as [-> | H]; [done|by eapply IH].
  - destruct b.
    + apply IH.
    + intros H. apply elem_of_cons in H as [-> | H]; [done|by eapply IH].
Qed.

(** The flag only decides whether a leading run shows as a hyphen. *)
Lemma sanitize_from_lstrip (s : str) :
  lstrip_chars (lit "-._") (utils.sanitize_from true s)
  = lstrip_chars (lit "-._") (utils.sanitize_from false s).
Proof.
  destruct s as [|c s]; simpl; [done|].
  destruct (utils.is_slug_char c); [done|]. reflexivity.
Qed.

Lemma sanitize_from_snoc (s : str) (c : ascii) :
  utils.is_slug_char c = false →
  ∀ b, utils.sanitize_from b (s ++ [c]) = utils.sanitize_from b s
       ∨ utils.sanitize_from b (s ++ [c])
         = utils.sanitize_from b s ++ ["-"%char].
Proof.
  intros Hc. induction s as [|x s IH]; intros b; simpl.
  { rewrite Hc. destruct b; [by left|by right]. }
  destruct (utils.is_slug_char x).
  - destruct (IH false) as [-> | ->]; [by left|by right].
  - destruct b.
    + apply IH.
    + destruct (IH true) as [-> | ->]; [by left|by right].
Qed.

Lemma strip_sanitize_lstrip (t : str) :
  strip_chars (lit "-._") (utils._SANITIZE_RE_sub (lstrip_by is_space t))
  = strip_chars (lit "-._") (utils._SANITIZE_RE_sub t).
Proof.
  unfold utils._SANITIZE_RE_sub.
  induction t as [|c t IH]; [done|].
  cbn [lstrip_by]. destruct (is_space c) eqn:Hc; [|done].
  rewrite IH. cbn [utils.sanitize_from].
  rewrite (is_space_not_slug c Hc).
  unfold strip_chars, strip_by.
  change (lstrip_by (fun c0 => mem_char c0 (lit "-._"))
            ("-"%char :: utils.sanitize_from true t))
    with (lstrip_chars (lit "-._") (utils.sanitize_from true t)).
  by rewrite sanitize_from_lstrip.
Qed.

Lemma strip_sanitize_rstrip (t : str) :
  strip_chars (lit "-._") (utils._SANITIZE_RE_sub (rstrip_by is_space t))
  = strip_chars (lit "-._") (utils._SANITIZE_RE_sub t).
Proof.
  unfold utils._SANITIZE_RE_sub.
  induction t as [|c t IH] using rev_ind; [done|].
  unfold rstrip_by. rewrite rev_app_distr. cbn [rev app lstrip_by].
  destruct (is_space c) eqn:Hc.
  - fold (rstrip_by is_space t). rewrite IH.
    destruct (sanitize_from_snoc t c (is_space_not_slug c Hc) false)
      as [-> | ->]; [done|].
    unfold strip_chars. by rewrite strip_by_snoc.
  - cbn [rev]. by rewrite rev_involutive.
Qed.

(** [_slugify] is the specified sanitization of the lower-cased segment:
    stripping white space first changes nothing. *)
Lemma _slugify_as_specified (segment : str) :
  utils._slugify segment = sanitize_as_specified (lower segment).
Proof.
  unfold utils._slugify, sanitize_as_specified.
  assert (H : lower (strip segment) = strip (lower segment)).
  { unfold lower, strip. symmetry. apply strip_by_map, is_space_lower. }
  rewrite H. unfold strip, strip_by.
  by rewrite strip_sanitize_rstrip, strip_sanitize_lstrip.
Qed.

Lemma sanitize_as_specified_safe (s : str) : safe_name (sanitize_as_specified s).
Proof.
  unfold sanitize_as_specified.
  set (x := strip_chars _ _).
  destruct (nonempty x) eqn:Hx; [|by repeat split; try done; vm_compute;
    intros H; apply mem_char_true in H].
  apply nonempty_true in Hx. split; [done|]. split.
  - intros Heq. subst x. unfold strip_chars in Heq.
    by pose proof (strip_by_last _ _ [] _ Heq).
  - intros Hin. subst x. unfold strip_chars in Hin.
    apply strip_by_elem, sanitize_from_chars in Hin. done.
Qed.

(** *** The digest *)

Lemma bytes_le_range (w : Z) (n : nat) :
  Forall (fun b => (0 ≤ b < 256)%Z) (hashlib.bytes_le w n).
Proof.
  unfold hashlib.bytes_le. apply Forall_fmap, Forall_forall.
  intros i _. simpl. apply Z.mod_pos_bound. lia.
Qed.

Lemma hex_byte_chars (b : Z) :
  (0 ≤ b < 256)%Z → Forall (fun c => is_hex_char c = true) (hashlib.hex_byte b).
Proof.
  intros Hb. unfold hashlib.hex_byte.
  assert (Hd : ∀ d, (0 ≤ d < 16)%Z → is_hex_char (hashlib.hex_digit d) = true).
  { intros d Hd.
    assert (d = 0 ∨ d = 1 ∨ d = 2 ∨ d = 3 ∨ d = 4 ∨ d = 5 ∨ d = 6 ∨ d = 7
            ∨ d = 8 ∨ d = 9 ∨ d = 10 ∨ d = 11 ∨ d = 12 ∨ d = 13 ∨ d = 14
            ∨ d = 15)%Z as H by lia.
    repeat (destruct H as [-> | H]; [reflexivity|]). by subst. }
  repeat constructor; apply Hd.
  - split; [apply Z.div_pos; lia|apply Z.div_lt_upper_bound; lia].
  - apply Z.mod_pos_bound. lia.
Qed.

Lemma md5_digest_bytes (msg : list Z) :
  length (hashlib.md5_digest msg) = 16
  ∧ Forall (fun b => (0 ≤ b < 256)%Z) (hashlib.md5_digest msg).
Proof.
  unfold hashlib.md5_digest.
  destruct (hashlib.md5_chunks _ _ _) as [[[a b] c] d].
  split; [reflexivity|].
  rewrite !Forall_app. repeat split; apply bytes_le_range.
Qed.

Lemma md5_hexdigest_chars (msg : list Z) :
  length (hashlib.md5_hexdigest msg) = 32
  ∧ Forall (fun c => is_hex_char c = true) (hashlib.md5_hexdigest msg).
Proof.
  unfold hashlib.md5_hexdigest.
  destruct (md5_digest_bytes msg) as [Hlen Hb].
  split.
  - revert Hlen. generalize (hashlib.md5_digest msg). intros l.
    do 17 (destruct l as [|? l]; try done).
  - clear Hlen. induction Hb as [|b l Hb Hl IH]; [constructor|].
    rewrite fmap_cons. change (concat (?x :: ?r)) with (x ++ concat r).
    apply Forall_app. split; [by apply hex_byte_chars|done].
Qed.

Lemma query_digest_chars (query : str) :
  length (query_digest query) = 8
  ∧ Forall (fun c => is_hex_char c = true) (query_digest query).
Proof.
  unfold query_digest.
  destruct (md5_hexdigest_chars (hashlib.encode_utf8 query)) as [Hlen Hc].
  split.
  - rewrite length_take, Hlen. reflexivity.
  - by apply Forall_take.
Qed.

Lemma hex_char_not_slash (c : ascii) : is_hex_char c = true → c ≠ "/"%char.
Proof. all_chars c. Qed.

(** *** Joining a safe name to a path *)

Lemma truediv_safe (d : pathlib.Path) (name : str) :
  safe_name name →
  pathlib.truediv d name
  = pathlib.mkPath (pathlib.root d) (pathlib.parts d ++ [name]).
Proof.
  intros (Hne & Hdot & Hslash). unfold pathlib.truediv, pathlib.parse.
  assert (Hs : startswith (lit "/") name = false).
  { destruct name as [|c name]; [done|].
    cbn [startswith lit list_ascii_of_string].
    destruct (Ascii.eqb "/" c) eqn:Hc; [|done].
    apply Ascii.eqb_eq in Hc as <-. destruct Hslash. apply list_elem_of_here. }
  rewrite Hs. cbn [pathlib.root pathlib.parts].
  rewrite bool_decide_eq_true_2 by done.
  rewrite split_no_sep by done.
  rewrite filter_cons, decide_True by done. done.
Qed.

Lemma foldl_truediv_safe (slug : str → str) (names : list str) :
  (∀ s, safe_name (slug s)) →
  ∀ d : pathlib.Path,
    foldl (fun d s => pathlib.truediv d (slug s)) d names
    = pathlib.mkPath (pathlib.root d) (pathlib.parts d ++ (slug <$> names)).
Proof.
  intros Hsafe. induction names as [|n names IH]; intros d; simpl.
  { rewrite app_nil_r. by destruct d. }
  rewrite IH, truediv_safe by done. simpl. by rewrite <- app_assoc.
Qed.

(** *** The layout *)

Lemma _slugify_safe (segment : str) : safe_name (utils._slugify segment).
Proof. rewrite _slugify_as_specified. apply sanitize_as_specified_safe. Qed.

Lemma sanitize_as_specified_chars (s : str) (c : ascii) :
  c ∈ sanitize_as_specified s → utils.is_slug_char c = true.
Proof.
  unfold sanitize_as_specified. set (x := strip_chars _ _).
  destruct (nonempty x) eqn:Hx.
  - subst x. unfold strip_chars. intros H.
    by apply strip_by_elem, sanitize_from_chars in H.
  - intros H. vm_compute in H.
    repeat (apply elem_of_cons in H as [-> | H]; [reflexivity|]).
    by apply not_elem_of_nil in H.
Qed.

(** The segments the code works with, against the segments of the path. *)
Lemma path_segments_cases (host : str) (segments : list str) :
  let path_segments :=
    if bool_decide (segments = []) then [lit "index"] else segments in
  (if bool_decide (length path_segments = 1) then [host]
   else [host] ++ removelast path_segments) = host :: removelast segments
  ∧ List.last path_segments [] = List.last segments (lit "index").
Proof.
  destruct segments as [|a [|b l]]; [done|done|].
  cbv zeta. rewrite bool_decide_eq_false_2 by done.
  rewrite bool_decide_eq_false_2 by done. split; [done|].
  change (a :: b :: l) with ([a] ++ (b :: l)).
  rewrite !utils_facts.last_app_nonempty by done.
  clear a. revert b. induction l as [|c l IH]; intros b; [done|].
  change (b :: c :: l) with ([b] ++ (c :: l)).
  rewrite !utils_facts.last_app_nonempty by done. apply IH.
Qed.

Lemma file_name_safe (stem suffix : str) :
  (∀ c, c ∈ stem → c ≠ "/"%char) → (∀ c, c ∈ suffix → c ≠ "/"%char) →
  safe_name (stem ++ suffix ++ lit ".md").
Proof.
  intros Hstem Hsuffix. repeat split.
  - intros H. apply (f_equal (@length ascii)) in H.
    rewrite !length_app in H. simpl in H. lia.
  - intros H. apply (f_equal (@length ascii)) in H.
    rewrite !length_app in H. simpl in H. lia.
  - rewrite !elem_of_app. intros [H | [H | H]].
    + by apply Hstem in H.
    + by apply Hsuffix in H.
    + vm_compute in H.
      repeat (apply elem_of_cons in H as [[=] | H]).
      by apply not_elem_of_nil in H.
Qed.

(** *** What a sanitized name looks like *)

Lemma rstrip_by_prefix (p : ascii → bool) (s : str) :
  ∃ suf, s = rstrip_by p s ++ suf.
Proof.
  unfold rstrip_by. destruct (lstrip_by_suffix p (rev s)) as [pre Hpre].
  exists (rev pre). rewrite <- rev_app_distr, <- Hpre. by rewrite rev_involutive.
Qed.

Lemma strip_by_head (p : ascii → bool) (s t : str) (c : ascii) :
  strip_by p s = c :: t → p c = false.
Proof.
  unfold strip_by. intros H.
  destruct (rstrip_by_prefix p (lstrip_by p s)) as [suf Hsuf].
  rewrite H in Hsuf. simpl in Hsuf. by eapply lstrip_by_head.
Qed.

Lemma lstrip_by_fixed (p : ascii → bool) (s : str) :
  (∀ c t, s = c :: t → p c = false) → lstrip_by p s = s.
Proof.
  destruct s as [|c s]; [done|]. intros H. simpl.
  by rewrite (H c s eq_refl).
Qed.

Lemma strip_by_fixed (p : ascii → bool) (s : str) :
  (∀ c t, s = c :: t → p c = false) →
  (∀ t c, s = t ++ [c] → p c = false) →
  strip_by p s = s.
Proof.
  intros Hhead Hlast. unfold strip_by, rstrip_by.
  rewrite (lstrip_by_fixed p s Hhead).
  rewrite lstrip_by_fixed; [by rewrite rev_involutive|].
  intros c t Hrev. apply (Hlast (rev t)).
  apply (f_equal (@rev ascii)) in Hrev. rewrite rev_involutive in Hrev.
  by rewrite Hrev.
Qed.

Lemma sanitize_from_elem (s : str) :
  ∀ (b : bool) (c : ascii),
    c ∈ utils.sanitize_from b s → c = "-"%char ∨ c ∈ s.
Proof.
  induction s as [|x s IH]; intros b c; simpl.
  { intros H. by apply not_elem_of_nil in H. }
  destruct (utils.is_slug_char x).
  - intros H. apply elem_of_cons in H as [-> | H].
    + right. apply list_elem_of_here.
    + destruct (IH _ _ H); [by left|right; by apply list_elem_of_further].
  - destruct b.
    + intros H. destruct (IH _ _ H); [by left|right; by apply list_elem_of_further].
    + intros H. apply elem_of_cons in H as [-> | H]; [by left|].
      destruct (IH _ _ H); [by left|right; by apply list_elem_of_further].
Qed.

Lemma sanitize_from_fixed (s : str) :
  (∀ c, c ∈ s → utils.is_slug_char c = true) →
  ∀ b, utils.sanitize_from b s = s.
Proof.
  induction s as [|x s IH]; intros H b; simpl; [done|].
  rewrite (H x) by apply list_elem_of_here.
  rewrite IH; [done|]. intros c Hc. apply H. by apply list_elem_of_further.
Qed.

Lemma name_char_of_lower (x : ascii) :
  utils.is_slug_char (lower_char x) = true → is_name_char (lower_char x) = true.
Proof. all_chars x. Qed.

Lemma name_char_facts (c : ascii) :
  is_name_char c = true →
  utils.is_slug_char c = true ∧ lower_char c = c ∧ is_space c = false.
Proof. all_chars c. Qed.

Lemma _slugify_chars (segment : str) (c : ascii) :
  c ∈ utils._slugify segment → is_name_char c = true.
Proof.
  rewrite _slugify_as_specified. unfold sanitize_as_specified.
  set (x := strip_chars _ _). destruct (nonempty x) eqn:Hx.
  - subst x. unfold strip_chars, utils._SANITIZE_RE_sub. intros H.
    apply strip_by_elem in H.
    pose proof (sanitize_from_chars _ _ _ H) as Hslug.
    apply sanitize_from_elem in H as [-> | H]; [done|].
    unfold lower in H. apply list_elem_of_fmap in H as (y & -> & _).
    by apply name_char_of_lower.
  - intros H. vm_compute in H.
    repeat (apply elem_of_cons in H as [-> | H]; [reflexivity|]).
    by apply not_elem_of_nil in H.
Qed.

Lemma _slugify_ends (segment : str) :
  (∀ c t, utils._slugify segment = c :: t → is_separator c = false)
  ∧ (∀ t c, utils._slugify segment = t ++ [c] → is_separator c = false).
Proof.
  rewrite _slugify_as_specified. unfold sanitize_as_specified.
  set (x := strip_chars _ _). destruct (nonempty x) eqn:Hx.
  - subst x. unfold strip_chars. split.
    + intros c t H. by apply strip_by_head in H.
    + intros t c H. by apply strip_by_last in H.
  - split.
    + intros c t [= <- _]. reflexivity.
    + intros t c H. change (lit "index") with (lit "inde" ++ ["x"%char]) in H.
      apply app_inj_tail in H as [_ <-]. reflexivity.
Qed.

(** X2. Whatever the segment, [_slugify] returns a name that is not empty,
    is made of lower-case letters, digits, hyphens, dots and underscores
    only, and neither starts nor ends with one of these three separators. *)
Theorem _slugify_shape (segment : str) :
  utils._slugify segment ≠ []
  ∧ Forall (fun c => is_name_char c = true) (utils._slugify segment)
  ∧ (∀ c t, utils._slugify segment = c :: t → is_separator c = false)
  ∧ (∀ t c, utils._slugify segment = t ++ [c] → is_separator c = false).
Proof.
  split; [apply _slugify_safe|]. split; [|apply _slugify_ends].
  apply Forall_forall. intros c Hc. by eapply _slugify_chars.
Qed.

(** X3. [_slugify] is idempotent: a sanitized name is its own
    sanitization. *)
Theorem _slugify_idempotent (segment : str) :
  utils._slugify (utils._slugify segment) = utils._slugify segment.
Proof.
  set (r := utils._slugify segment).
  assert (Hne : r ≠ []) by apply _slugify_safe.
  assert (Hchars : ∀ c, c ∈ r → is_name_char c = true)
    by (intros c; apply _slugify_chars).
  destruct (_slugify_ends segment) as [Hhead Hlast]. fold r in Hhead, Hlast.
  clearbody r. unfold utils._slugify.
  assert (Hstrip : strip r = r).
  { apply strip_by_fixed.
    - intros c t ->. apply name_char_facts, Hchars, list_elem_of_here.
    - intros t c ->. apply name_char_facts, Hchars.
      apply elem_of_app. right. apply list_elem_of_here. }
  assert (Hlower : lower r = r).
  { unfold lower. clear Hne Hhead Hlast Hstrip.
    induction r as [|c r IH]; [done|]. simpl. f_equal.
    - apply name_char_facts, Hchars, list_elem_of_here.
    - apply IH. intros x Hx. apply Hchars. by apply list_elem_of_further. }
  rewrite Hstrip, Hlower. unfold utils._SANITIZE_RE_sub.
  rewrite sanitize_from_fixed
    by (intros c Hc; by apply name_char_facts, Hchars).
  unfold strip_chars. rewrite strip_by_fixed by done.
  by rewrite (proj2 (nonempty_true r)).
Qed.

(** C10. For every URL that parses, [build_markdown_path] asks the file
    system for the base directory extended by the sanitized host and the
    sanitized path segments but the last; when the directory is there it
    returns, below it, a file name made of the sanitized last segment (or
    "index" when the path has none), a hyphen and the first eight
    hexadecimal digits of the MD5 of the query when there is one, and the
    extension; when the file system refuses, its exception is raised and no
    path is returned. To sanitize is to lower-case, replace the runs of
    characters outside [A-Za-z0-9_.-] by a hyphen, trim separators and fall
    back on "index". Every component added is a plain name: not empty, not
    a dot, without a slash, so the file stays below the base directory. *)
Theorem build_markdown_path_layout (mkdir : pathlib.Path → result unit)
    (base_dir : pathlib.Path) (url : str) (p : ParseResult) :
  urlparse url = Ok p →
  let slug := fun seg => sanitize_as_specified (lower seg) in
  let added := markdown_parts slug (netloc p) (path p) (query p) in
  let directory :=
    pathlib.mkPath (pathlib.root base_dir)
                   (pathlib.parts base_dir ++ removelast added) in
  let file :=
    pathlib.mkPath (pathlib.root base_dir) (pathlib.parts base_dir ++ added) in
  utils.build_markdown_path mkdir base_dir url
  = match mkdir directory with
    | Ok _ => Ok (directory, file)
    | Raise e => Raise e
    end
  ∧ Forall safe_name added
  ∧ length (query_digest (query p)) = 8
  ∧ Forall (fun c => is_hex_char c = true) (query_digest (query p)).
Proof.
  intros Hp slug added directory file. unfold str in *.
  assert (Hslug : ∀ seg, utils._slugify seg = slug seg)
    by apply _slugify_as_specified.
  assert (Hsafe : ∀ seg, safe_name (slug seg)).
  { intros seg. rewrite <- Hslug. apply _slugify_safe. }
  destruct (query_digest_chars (query p)) as [Hlen Hhex].
  set (segments := filter (fun seg : str => seg ≠ []) (split "/" (path p))).
  set (name := slug (List.last segments (lit "index"))
               ++ (if nonempty (query p)
                   then lit "-" ++ query_digest (query p) else [])
               ++ lit ".md").
  assert (Hname : safe_name name).
  { apply file_name_safe.
    - intros c Hc. by apply sanitize_as_specified_chars, slug_char_not_slash in Hc.
    - intros c Hc. destruct (nonempty (query p)); [|by apply not_elem_of_nil in Hc].
      apply elem_of_app in Hc as [Hc | Hc].
      + apply list_elem_of_singleton in Hc as ->. done.
      + rewrite Forall_forall in Hhex. by apply hex_char_not_slash, Hhex. }
  assert (Hadded : added = (slug <$> netloc p :: removelast segments) ++ [name])
    by reflexivity.
  split; [|split; [|done]].
  - unfold utils.build_markdown_path. rewrite Hp, bind_Ok.
    unfold str in *. fold segments. cbv zeta.
    destruct (path_segments_cases (lower (netloc p)) segments) as [Hd Hlast].
    cbv zeta in Hd, Hlast. unfold str in *.
    rewrite Hd, Hlast.
    rewrite (foldl_truediv_safe utils._slugify)
      by (intros seg; apply _slugify_safe).
    unfold str in *.
    assert (Hdir : utils._slugify <$> lower (netloc p) :: removelast segments
                   = slug <$> netloc p :: removelast segments).
    { rewrite !fmap_cons. f_equal.
      - rewrite Hslug. unfold slug. by rewrite lower_idem.
      - apply list_fmap_ext. intros i x _. apply Hslug. }
    unfold str in *. rewrite Hdir, Hslug.
    assert (Hfile :
      (if nonempty (query p)
       then slug (List.last segments (lit "index")) ++ lit "-"
            ++ take 8 (hashlib.md5_hexdigest (hashlib.encode_utf8 (query p)))
       else slug (List.last segments (lit "index"))) ++ lit ".md" = name).
    { unfold name, query_digest.
      destruct (nonempty (query p)); [by rewrite <- !app_assoc|done]. }
    unfold str in *. rewrite Hfile, truediv_safe by done.
    cbn [pathlib.root pathlib.parts].
    subst directory file. unfold str in *.
    rewrite Hadded, removelast_last, <- app_assoc.
    by destruct (mkdir _) as [[]|e].
  - rewrite Hadded. apply Forall_app. split; [|by apply Forall_singleton].
    apply Forall_fmap, Forall_forall. intros x _. apply Hsafe.
Qed.

(** A run on a URL with mixed case, nested segments and a query, on a file
    system that makes every directory; and a page below a name that an
    earlier page took for its file, which the file system refuses. *)
Lemma build_markdown_path_layout_witness :
  let base := pathlib.parse (lit "/out") in
  let url := lit "https://Ex.com/Docs/API Guide/Intro.html?page=2" in
  let taken := pathlib.parse (lit "/out/ex.com/x.md") in
  let mkdir := fun d : pathlib.Path =>
    if bool_decide (pathlib.to_str d = lit "/out/ex.com/x.md")
    then Raise OSError else Ok () in
  (∃ dir file,
     utils.build_markdown_path mkdir base url = Ok (dir, file)
     ∧ pathlib.to_str dir = lit "/out/ex.com/docs/api-guide"
     ∧ pathlib.to_str file
       = lit "/out/ex.com/docs/api-guide/intro.html-"
           ++ query_digest (lit "page=2") ++ lit ".md")
  ∧ (∃ dir file,
       utils.build_markdown_path mkdir base (lit "https://ex.com/x")
       = Ok (dir, file) ∧ file = taken)
  ∧ utils.build_markdown_path mkdir base (lit "https://ex.com/x.md/y")
    = Raise OSError.
Proof.
  intros base url taken mkdir.
  destruct (build_markdown_path_layout mkdir base url
              (mkParse (lit "https") (lit "Ex.com")
                       (lit "/Docs/API Guide/Intro.html") []
                       (lit "page=2") []))
    as (H & _); [vm_compute; reflexivity|].
  split; [|split].
  - eexists _, _. split; [exact H|]. split; vm_compute; reflexivity.
  - eexists _, _. split; vm_compute; reflexivity.
  - vm_compute; reflexivity.
Defined.

(** The claim's own example, and a segment with a capital: the code
    lower-cases it, which the sanitization alone does not. *)
Lemma build_markdown_path_lowers :
  let base := pathlib.parse (lit "/out") in
  let mkdir := fun _ : pathlib.Path => Ok () in
  (∃ dir file,
     utils.build_markdown_path mkdir base (lit "https://ex.com/a/b?x=1")
     = Ok (dir, file)
     ∧ pathlib.to_str file
       = lit "/out/ex.com/a/b-" ++ query_digest (lit "x=1") ++ lit ".md")
  ∧ ∃ dir file,
      utils.build_markdown_path mkdir base (lit "https://ex.com/Docs")
      = Ok (dir, file)
      ∧ pathlib.to_str file = lit "/out/ex.com/docs.md"
      ∧ pathlib.parts file
        ≠ pathlib.parts base
            ++ markdown_parts sanitize_as_specified (lit "ex.com")
                              (lit "/Docs") []
      ∧ markdown_parts sanitize_as_specified (lit "ex.com") (lit "/Docs") []
        = [lit "ex.com"; lit "Docs.md"].
Proof.
  intros base mkdir. split.
  - eexists _, _. split; vm_compute; reflexivity.
  - eexists _, _. split; [vm_compute; reflexivity|].
    split; [vm_compute; reflexivity|].
    split; [vm_compute; discriminate|vm_compute; reflexivity].
Qed.

End build_path_facts.
(** ** The shape of normalized URLs *)

Module url_shape_facts.
Import pystr pystr_facts pystr_search char_facts urllib_parse urllib_facts spec.
Import posixpath_facts utils_facts.

Lemma endswith_char_app (c : ascii) (x y : str) :
  y ≠ [] → endswith [c] (x ++ y) = endswith [c] y.
Proof.
  destruct y as [|z t] using rev_ind; [done|]. intros _.
  rewrite app_assoc, !endswith_snoc. done.
Qed.

Lemma endswith_nonempty (c : ascii) (s : str) :
  endswith [c] s = true → s ≠ [].
Proof. by destruct s. Qed.

Lemma endswith_slash_app (x y : str) :
  endswith (lit "/") y = true → endswith (lit "/") (x ++ y) = true.
Proof.
  intros H. change (lit "/") with ["/"%char] in *.
  rewrite endswith_char_app; [done|by eapply endswith_nonempty].
Qed.

Lemma _normalized_path_slash (path : str) :
  startswith (lit "/") (utils._normalized_path path) = true.
Proof.
  destruct (_normalized_path_normal path)
    as [(k & comps & trailing & -> & Hk & Hc & Ht) _].
  by apply initial_slashes_normal_path.
Qed.

Lemma _normalized_path_trailing (path : str) :
  endswith (lit "/") path = true →
  endswith (lit "/") (utils._normalized_path path) = true.
Proof.
  intros Hend. unfold utils._normalized_path.
  destruct (nonempty path) eqn:Hne; [|done]. cbn [negb]. cbv zeta.
  set (path' := if negb (startswith (lit "/") path)
                then lit "/" ++ path else path).
  assert (Hend' : endswith (lit "/") path' = true).
  { subst path'. destruct (negb (startswith (lit "/") path));
      [by apply endswith_slash_app|done]. }
  rewrite Hend'. cbn [andb].
  set (n1 := posixpath.normpath path').
  set (n2 := if negb (endswith (lit "/") n1) then n1 ++ lit "/" else n1).
  assert (Hn2 : endswith (lit "/") n2 = true).
  { subst n2. destruct (endswith (lit "/") n1) eqn:Hn1; [done|].
    cbn [negb]. by apply endswith_slash_app. }
  set (n3 := if negb (startswith (lit "/") n2) then lit "/" ++ n2 else n2).
  assert (Hn3 : endswith (lit "/") n3 = true).
  { subst n3. destruct (negb (startswith (lit "/") n2));
      [by apply endswith_slash_app|done]. }
  destruct (nonempty n3); done.
Qed.

(** X4. [_normalized_path] returns a path in normal form: one or two leading
    slashes, then segments none of which is empty, "." or "..", and a
    trailing slash only after a segment. Normalizing again changes nothing,
    and a path that ends with a slash keeps its trailing slash. *)
Theorem _normalized_path_canonical (path : str) :
  is_normal_path (utils._normalized_path path)
  ∧ utils._normalized_path (utils._normalized_path path)
    = utils._normalized_path path
  ∧ startswith (lit "/") (utils._normalized_path path) = true
  ∧ (endswith (lit "/") path = true →
     endswith (lit "/") (utils._normalized_path path) = true).
Proof.
  split; [apply _normalized_path_normal|].
  split; [apply _normalized_path_idem|].
  split; [apply _normalized_path_slash|apply _normalized_path_trailing].
Qed.

(** *** What [urlunparse] is made of *)

Lemma urlunparse_elem (sch nl url q : str) (x : ascii) :
  x ∈ urlunparse sch nl url [] q [] →
  x ∈ sch ∨ x ∈ nl ∨ x ∈ url ∨ x ∈ q ∨ x ∈ lit ":/?".
Proof.
  unfold urlunparse, urlunsplit. cbn [nonempty].
  assert (Hs : x ∈ lit "/" → x ∈ lit ":/?").
  { intros H. apply list_elem_of_singleton in H as ->. by apply mem_char_true. }
  assert (Hss : x ∈ lit "//" → x ∈ lit ":/?").
  { intros H. apply mem_char_true. apply mem_char_true in H.
    revert H. vm_compute. by destruct x as [[] [] [] [] [] [] [] []]. }
  assert (Hc : x ∈ lit ":" → x ∈ lit ":/?").
  { intros H. apply list_elem_of_singleton in H as ->. by apply mem_char_true. }
  assert (Hq : x ∈ lit "?" → x ∈ lit ":/?").
  { intros H. apply list_elem_of_singleton in H as ->. by apply mem_char_true. }
  repeat match goal with
         | |- context [if ?b then _ else _] => destruct b
         end;
    rewrite ?elem_of_app; tauto.
Qed.

Lemma urlunparse_prefix (sch nl url q : str) :
  sch ∈ uses_netloc → sch ≠ [] →
  startswith (sch ++ lit "://") (urlunparse sch nl url [] q []) = true.
Proof.
  intros Hin Hne. unfold urlunparse, urlunsplit. cbn [nonempty].
  rewrite (proj2 (nonempty_true sch) Hne), bool_decide_eq_true_2 by done.
  cbn [andb].
  assert (Hpre : ∀ body tail,
             startswith (sch ++ lit "://")
               ((sch ++ lit ":" ++ lit "//" ++ body) ++ tail) = true).
  { intros body tail. apply startswith_true.
    exists (body ++ tail). by rewrite <- !app_assoc. }
  assert (Hgoal : ∀ tail,
             startswith (sch ++ lit "://")
               ((sch ++ lit ":" ++
                 (if nonempty nl || negb (startswith (lit "//") url)
                  then lit "//" ++ nl ++
                       (if nonempty url && negb (startswith (lit "/") url)
                        then lit "/" ++ url else url)
                  else url)) ++ tail) = true).
  { intros tail. destruct (nonempty nl || _) eqn:Hc; [apply Hpre|].
    apply orb_false_iff in Hc as [_ Hc]. apply negb_false_iff in Hc.
    apply startswith_true in Hc as [t ->]. apply Hpre. }
  destruct (nonempty q).
  - apply Hgoal.
  - specialize (Hgoal []). by rewrite app_nil_r in Hgoal.
Qed.

(** Every result of [normalize_url] is the recomposition of a parsed URL. *)
Lemma normalize_url_parsed (url : str) (base_url : option str) (v : str) :
  utils.normalize_url url base_url = Ok (Some v) →
  ∃ x parsed, urlparse x = Ok parsed ∧ utils.normalize_parsed parsed = Some v.
Proof.
  unfold utils.normalize_url. destruct (negb (nonempty url)); [done|].
  destruct (urlparse url) as [parsed|e] eqn:Hp; [|by rewrite bind_Raise].
  rewrite bind_Ok. destruct (negb (nonempty (scheme parsed))).
  - destruct base_url as [base|]; [|done].
    destruct (negb (nonempty base)); [done|].
    destruct (urljoin base url) as [joined|e] eqn:Hj; [|by rewrite bind_Raise].
    rewrite bind_Ok.
    destruct (urlparse joined) as [parsed'|e] eqn:Hp'; [|by rewrite bind_Raise].
    rewrite bind_Ok. intros [= H]. by exists joined, parsed'.
  - intros [= H]. by exists url, parsed.
Qed.

(** X5. Whatever the URL and the base, a URL returned by [normalize_url]
    starts with "http://" or "https://" and holds no "#": the scheme is
    restricted and lower-cased, and the fragment is gone. *)
Theorem normalize_url_shape (url : str) (base_url : option str) (v : str) :
  utils.normalize_url url base_url = Ok (Some v) →
  (startswith (lit "http://") v = true ∨ startswith (lit "https://") v = true)
  ∧ "#"%char ∉ v.
Proof.
  intros H. apply normalize_url_parsed in H as (x & p & Hp & H).
  apply urlparse_wf in Hp
    as (_ & _ & Hnl & _ & _ & _ & Hpath & _ & Hq).
  unfold utils.normalize_parsed in H.
  destruct (bool_decide _) eqn:Hsch; [|done]. injection H as <-.
  apply bool_decide_eq_true in Hsch. split.
  - apply elem_of_cons in Hsch as [-> | Hsch].
    + left. by apply (urlunparse_prefix (lit "http")); [vm_compute; set_solver|].
    + apply list_elem_of_singleton in Hsch as ->. right.
      by apply (urlunparse_prefix (lit "https")); [vm_compute; set_solver|].
  - intros Hin. apply urlunparse_elem in Hin as [Hin | [Hin | [Hin | [Hin | Hin]]]].
    + apply elem_of_cons in Hsch as [Hs | Hs];
        [|apply list_elem_of_singleton in Hs]; rewrite Hs in Hin;
        apply mem_char_true in Hin; done.
    + apply no_delims_lower in Hnl. by specialize (Hnl _ Hin).
    + destruct (_normalized_path_normal (path p)) as [_ Hel].
      destruct (Hel _ Hin) as [? | ?]; done.
    + done.
    + by apply mem_char_true in Hin.
Qed.

Lemma normalize_url_shape_witness :
  let v := lit "https://ex.com/docs/b?x=1" in
  utils.normalize_url (lit "../b?x=1#frag") (Some (lit "HTTPS://Ex.com/docs/a/"))
  = Ok (Some v)
  ∧ startswith (lit "https://") v = true ∧ "#"%char ∉ v.
Proof.
  intros v.
  assert (H : utils.normalize_url (lit "../b?x=1#frag")
                (Some (lit "HTTPS://Ex.com/docs/a/")) = Ok (Some v))
    by (vm_compute; reflexivity).
  split; [exact H|].
  destruct (normalize_url_shape _ _ _ H) as [_ Hhash].
  split; [vm_compute; reflexivity|exact Hhash].
Defined.

(** *** The parent URL *)

Lemma urlunparse_bare_elem (sch nl url : str) (x : ascii) :
  x ∈ urlunparse sch nl url [] [] [] →
  x ∈ sch ∨ x ∈ nl ∨ x ∈ url ∨ x = ":"%char ∨ x = "/"%char.
Proof.
  unfold urlunparse, urlunsplit. cbn [nonempty].
  assert (Hs : x ∈ lit "/" → x = "/"%char)
    by (intros H; by apply list_elem_of_singleton in H).
  assert (Hss : x ∈ lit "//" → x = "/"%char).
  { intros H. apply elem_of_cons in H as [-> | H]; [done|by apply Hs]. }
  assert (Hc : x ∈ lit ":" → x = ":"%char)
    by (intros H; by apply list_elem_of_singleton in H).
  repeat match goal with
         | |- context [if ?b then _ else _] => destruct b
         end;
    rewrite ?elem_of_app; tauto.
Qed.

Lemma urlunparse_bare_ends (sch nl url : str) :
  endswith (lit "/") url = true →
  endswith (lit "/") (urlunparse sch nl url [] [] []) = true.
Proof.
  intros H. unfold urlunparse, urlunsplit. cbn [nonempty].
  repeat match goal with
         | |- context [if ?b then _ else _] => destruct b
         end;
    repeat apply endswith_slash_app; done.
Qed.

Lemma rstrip_by_elem (p : ascii → bool) (s : str) (c : ascii) :
  c ∈ rstrip_by p s → c ∈ s.
Proof.
  unfold rstrip_by. rewrite elem_of_rev. intros H.
  apply build_path_facts.lstrip_by_elem in H. by rewrite elem_of_rev in H.
Qed.

Lemma dirname_elem (p : str) (c : ascii) : c ∈ posixpath.dirname p → c ∈ p.
Proof.
  unfold posixpath.dirname. cbv zeta.
  set (i := match rfind_char "/" p with Some r => S r | None => 0 end).
  assert (Htake : c ∈ take i p → c ∈ p).
  { intros H. rewrite <- (take_drop i p). apply elem_of_app. by left. }
  destruct (_ && _); [|done]. unfold rstrip_chars. intros H.
  by apply Htake, (rstrip_by_elem _ _ _ H).
Qed.

Lemma scheme_char_plain (c : ascii) :
  is_scheme_char c = true →
  lower_char c ≠ "?"%char ∧ lower_char c ≠ "#"%char.
Proof. all_chars c. Qed.

Lemma lower_scheme_plain (p : ParseResult) (c : ascii) :
  parsed_wf p → c ∈ lower (scheme p) → c ≠ "?"%char ∧ c ≠ "#"%char.
Proof.
  intros (Hsch & _) Hc. unfold lower in Hc.
  apply list_elem_of_fmap in Hc as (x & -> & Hx).
  destruct Hsch as [Hsch | Hsch]; [rewrite Hsch in Hx; by apply not_elem_of_nil in Hx|].
  apply valid_scheme_chars in Hsch as (_ & _ & _ & Hall).
  apply scheme_char_plain. rewrite forallb_forall in Hall.
  by apply Hall, list_elem_of_In.
Qed.

(** X6. The URL [derive_parent_url] returns is a directory URL: it ends with
    a slash and carries neither a query nor a fragment. *)
Theorem derive_parent_url_directory (url r : str) :
  utils.derive_parent_url url = Ok r →
  endswith (lit "/") r = true ∧ "?"%char ∉ r ∧ "#"%char ∉ r.
Proof.
  unfold utils.derive_parent_url.
  destruct (urlparse url) as [p|e] eqn:Hp; [|by rewrite bind_Raise].
  rewrite bind_Ok. cbv zeta.
  set (np := utils._normalized_path (path p)).
  set (path1 := if nonempty np then np else lit "/").
  set (d := posixpath.dirname (rstrip_chars (lit "/") path1)).
  set (pp0 := if negb (startswith (lit "/") d) then lit "/" ++ d else d).
  set (pp := if negb (bool_decide (pp0 = lit "/")) then pp0 ++ lit "/" else pp0).
  set (pp' := if nonempty pp then pp else lit "/").
  intros [= <-].
  pose proof (urlparse_wf _ _ Hp) as Hwf.
  assert (Hends : endswith (lit "/") pp' = true).
  { subst pp' pp. destruct (bool_decide (pp0 = lit "/")) eqn:Hd.
    - apply bool_decide_eq_true in Hd. by rewrite Hd.
    - cbn [negb].
      assert (He : endswith (lit "/") (pp0 ++ lit "/") = true)
        by (by apply endswith_slash_app).
      destruct (nonempty (pp0 ++ lit "/")) eqn:Hn; [done|].
      apply nonempty_false in Hn. by destruct pp0. }
  assert (Hel : ∀ c, c ∈ pp' → c = "/"%char ∨ c ∈ path p).
  { intros c Hc.
    assert (H1 : ∀ c, c ∈ path1 → c = "/"%char ∨ c ∈ path p).
    { intros x Hx. subst path1. destruct (nonempty np).
      - by apply (proj2 (_normalized_path_normal (path p))).
      - left. by apply list_elem_of_singleton in Hx. }
    assert (Hd : ∀ c, c ∈ d → c = "/"%char ∨ c ∈ path p).
    { intros x Hx. subst d. apply dirname_elem in Hx.
      unfold rstrip_chars in Hx. apply rstrip_by_elem in Hx. by apply H1. }
    assert (H0 : ∀ c, c ∈ pp0 → c = "/"%char ∨ c ∈ path p).
    { intros x Hx. subst pp0.
      destruct (negb (startswith (lit "/") d)); [|by apply Hd].
      apply elem_of_app in Hx as [Hx | Hx]; [|by apply Hd].
      left. by apply list_elem_of_singleton in Hx. }
    assert (H2 : ∀ c, c ∈ pp → c = "/"%char ∨ c ∈ path p).
    { intros x Hx. subst pp.
      destruct (negb (bool_decide (pp0 = lit "/"))); [|by apply H0].
      apply elem_of_app in Hx as [Hx | Hx]; [by apply H0|].
      left. by apply list_elem_of_singleton in Hx. }
    subst pp'. destruct (nonempty pp); [by apply H2|].
    left. by apply list_elem_of_singleton in Hc. }
  split; [by apply urlunparse_bare_ends|].
  assert (Hfree : ∀ x, x ∈ urlunparse (lower (scheme p)) (lower (netloc p))
                             pp' [] [] [] →
                       x ≠ "?"%char ∧ x ≠ "#"%char).
  { intros x Hx.
    apply urlunparse_bare_elem in Hx as [Hx | [Hx | [Hx | [-> | ->]]]];
      [by eapply lower_scheme_plain| | |done|done].
    - destruct Hwf as (_ & _ & Hnl & _). apply no_delims_lower in Hnl.
      specialize (Hnl _ Hx). apply is_delim_cases in Hnl as (_ & H1 & H2).
      split; by apply Ascii.eqb_neq.
    - destruct Hwf as (_ & _ & _ & _ & _ & Hq & Hh & _).
      destruct (Hel _ Hx) as [-> | Hx']; [done|].
      split; intros ->; done. }
  split; intros Hin; by destruct (Hfree _ Hin).
Qed.

Lemma derive_parent_url_directory_witness :
  let r := lit "https://ex.com/docs/" in
  utils.derive_parent_url (lit "HTTPS://Ex.com/docs/guide/../intro?x=1#top")
  = Ok r
  ∧ endswith (lit "/") r = true ∧ "?"%char ∉ r ∧ "#"%char ∉ r.
Proof.
  intros r.
  assert (H : utils.derive_parent_url
                (lit "HTTPS://Ex.com/docs/guide/../intro?x=1#top") = Ok r)
    by (vm_compute; reflexivity).
  split; [exact H|]. exact (derive_parent_url_directory _ _ H).
Defined.

End url_shape_facts.
(** ** Order and counts of the frontier *)

Module frontier_facts.
Import pystr crawl_queue crawl_queue_facts spec.

Lemma next_batch_loop_take (size : Z) (pending : list str) :
  ∀ (queued seen : gset str) (batch : list str),
    let k := Z.to_nat (size - Z.of_nat (length batch)) in
    next_batch_loop size pending queued seen batch
    = (batch ++ take k pending,
       (drop k pending,
        queued ∖ list_to_set (take k pending),
        seen ∪ list_to_set (take k pending))).
Proof.
  induction pending as [|url rest IH]; intros queued seen batch k.
  { cbn [next_batch_loop]. rewrite take_nil, drop_nil, app_nil_r.
    cbn [list_to_set].
    replace (queued ∖ ∅) with queued by set_solver.
    by replace (seen ∪ ∅) with seen by set_solver. }
  cbn [next_batch_loop].
  destruct (Z.of_nat (length batch) <? size)%Z eqn:Hlt.
  - apply Z.ltb_lt in Hlt. rewrite IH. cbv zeta.
    rewrite length_app. cbn [length].
    assert (Hk : k = S (Z.to_nat (size - Z.of_nat (length batch + 1))))
      by (subst k; lia).
    rewrite Hk. cbn [take drop list_to_set].
    rewrite <- app_assoc. cbn [app].
    set (t := take _ rest).
    replace (queued ∖ {[url]} ∖ list_to_set t)
      with (queued ∖ ({[url]} ∪ list_to_set t)) by set_solver.
    by replace (seen ∪ {[url]} ∪ list_to_set t)
      with (seen ∪ ({[url]} ∪ list_to_set t)) by set_solver.
  - apply Z.ltb_ge in Hlt.
    assert (Hk : k = 0) by (subst k; lia).
    rewrite Hk. cbn [take drop list_to_set]. rewrite app_nil_r.
    replace (queued ∖ ∅) with queued by set_solver.
    by replace (seen ∪ ∅) with seen by set_solver.
Qed.

Lemma next_batch_take (size : Z) (q : CrawlQueue) :
  next_batch size q
  = (take (Z.to_nat size) (_pending q),
     mkQueue (_parent_url q) (_respect_parent q)
             (drop (Z.to_nat size) (_pending q))
             (_queued q ∖ list_to_set (take (Z.to_nat size) (_pending q)))
             (_seen q ∪ list_to_set (take (Z.to_nat size) (_pending q)))).
Proof.
  unfold next_batch. rewrite next_batch_loop_take. cbv zeta.
  cbn [length app]. by rewrite Z.sub_0_r.
Qed.

(** X10. [next_batch size] hands out the first [size] pending URLs in the
    order they were enqueued (all of them if fewer are pending, none if
    [size] is zero or negative), leaves the others pending in the same
    order, and moves exactly the URLs handed out from the queued set to the
    seen set. *)
Theorem next_batch_fifo (size : Z) (q : CrawlQueue) :
  let batch := take (Z.to_nat size) (_pending q) in
  next_batch size q
  = (batch,
     mkQueue (_parent_url q) (_respect_parent q)
             (drop (Z.to_nat size) (_pending q))
             (_queued q ∖ list_to_set batch)
             (_seen q ∪ list_to_set batch))
  ∧ (length batch = Z.to_nat size `min` length (_pending q))%nat
  ∧ _pending q = batch ++ _pending (next_batch size q).2.
Proof.
  intros batch. rewrite next_batch_take. cbn [snd _pending].
  split; [done|]. split; [apply length_take|].
  subst batch. by rewrite take_drop.
Qed.

Lemma extend_from_count (urls : list str) (base : option str) :
  ∀ (added : Z) (q q' : CrawlQueue) (n : Z),
    extend_from added urls base q = (Ok n, q') →
    ∃ new,
      _pending q' = _pending q ++ new
      ∧ (n = added + Z.of_nat (length new))%Z
      ∧ length new ≤ length urls
      ∧ _seen q' = _seen q.
Proof.
  induction urls as [|url urls IH]; intros added q q' n; cbn [extend_from].
  { intros [= <- <-]. exists []. rewrite app_nil_r. cbn [length].
    repeat split; lia. }
  destruct (add url base q) as [[b|e] q1] eqn:Hadd; [|done].
  intros H. apply IH in H as (new & Hp & Hn & Hlen & Hseen).
  pose proof (add_cases url base q) as Hcases.
  pose proof (add_seen url base q) as Hs.
  rewrite Hadd in Hcases, Hs. cbn [fst snd] in Hcases, Hs.
  destruct Hcases as [-> | (x & _ & _ & _ & [= ->] & ->)].
  - assert (Hb : b = false).
    { destruct b; [|done]. exfalso.
      unfold add in Hadd.
      destruct (utils.normalize_url url base) as [[v|]|e]; try done.
      destruct (negb (urllib_parse.nonempty v)); [done|].
      destruct (if _respect_parent q then _ else _) as [[|]|e]; try done.
      destruct (_ || _); [done|].
      injection Hadd as Hq. apply (f_equal _pending) in Hq.
      cbn [_pending] in Hq.
      apply (f_equal (@length str)) in Hq.
      rewrite length_app in Hq. cbn [length] in Hq. lia. }
    subst b. exists new. cbn [length]. repeat split; try done; lia.
  - cbn [_pending] in Hp. exists (x :: new).
    rewrite Hp, <- app_assoc. cbn [app length].
    repeat split; try done; try lia; by rewrite Hseen, Hs.
Qed.

(** X11. When [extend] returns, its result is the number of URLs it
    appended to the pending queue: the queue grows at its end by exactly
    that many entries, never more than the URLs given, and the seen set is
    untouched. *)
Theorem extend_counts_new_urls (urls : list str) (base_url : option str)
    (q q' : CrawlQueue) (n : Z) :
  extend urls base_url q = (Ok n, q') →
  ∃ new,
    _pending q' = _pending q ++ new
    ∧ n = Z.of_nat (length new)
    ∧ (pending q' = pending q + n)%Z
    ∧ (0 ≤ n ≤ Z.of_nat (length urls))%Z
    ∧ _seen q' = _seen q.
Proof.
  unfold extend. intros H.
  apply extend_from_count in H as (new & Hp & Hn & Hlen & Hseen).
  exists new. unfold pending. rewrite Hp, length_app.
  repeat split; try done; lia.
Qed.

(** Links found on a page: a relative link, the same page again through a
    fragment, a foreign scheme, and a link outside the parent. *)
Lemma extend_counts_new_urls_witness :
  let q := init (lit "https://ex.com/docs/") true in
  let urls := [lit "a"; lit "./a#top"; lit "mailto:x@ex.com"; lit "b";
               lit "/other/c"] in
  ∃ q' new,
    extend urls (Some (lit "https://ex.com/docs/index")) q = (Ok 2%Z, q')
    ∧ _pending q' = new
    ∧ new = [lit "https://ex.com/docs/a"; lit "https://ex.com/docs/b"].
Proof.
  intros q urls.
  destruct (extend urls (Some (lit "https://ex.com/docs/index")) q)
    as [[n|e] q'] eqn:E; [|by vm_compute in E].
  assert (Hn : n = 2%Z) by (vm_compute in E; by injection E as <- _).
  subst n.
  destruct (extend_counts_new_urls _ _ _ _ _ E) as (new & Hp & _).
  exists q', new. split; [done|]. split; [by rewrite Hp|].
  vm_compute in E. injection E as <-. cbn [_pending app] in Hp.
  by rewrite app_nil_l in Hp.
Defined.

End frontier_facts.
(** ** Throttling is per domain *)

Module throttle_domain_facts.
Import pystr float64 throttle throttle_facts spec.

(** X12. A turn taken for one domain does not touch the reservation of any
    other domain, so the value [wait_for_turn] returns for a URL of another
    domain, and what it does, are the same whether or not that turn took
    place before. *)
Theorem wait_for_turn_per_domain (rnd now : float) (url : str)
    (rd : option number.number)
    (rnd' now' : float) (url' : str) (rd' : option number.number)
    (t : ThrottleController) (domain other : str) :
  utils.domain_key url = Ok domain →
  utils.domain_key url' = Ok other →
  other ≠ domain →
  let t1 := (wait_for_turn rnd now url rd t).2 in
  _last_hit t1 !! other = _last_hit t !! other
  ∧ (wait_for_turn rnd' now' url' rd' t1).1
    = (wait_for_turn rnd' now' url' rd' t).1.
Proof.
  intros Hk Hk' Hne t1.
  assert (Ht1 : _last_hit t1 !! other = _last_hit t !! other
                ∧ min_seconds t1 = min_seconds t
                ∧ max_seconds t1 = max_seconds t).
  { subst t1. unfold wait_for_turn.
    destruct (robots_or_zero rd); [|done]. rewrite Hk.
    cbn [snd _last_hit min_seconds max_seconds].
    by rewrite lookup_insert_ne. }
  destruct Ht1 as (Hl & Hmin & Hmax). split; [done|].
  unfold wait_for_turn. rewrite Hmin, Hmax.
  destruct (robots_or_zero rd'); [|done]. rewrite Hk'. cbn [fst].
  by rewrite Hl.
Qed.

(** A turn for one host between two turns for another. *)
Lemma wait_for_turn_per_domain_witness :
  let t := mkThrottle (of_Z 1) (of_Z 3) {[ lit "https://b.org" := of_Z 20 ]} in
  let t1 := (wait_for_turn (decimal 1 2) (of_Z 10) (lit "https://a.com/x")
                           (Some (number.Int 5)) t).2 in
  _last_hit t1 !! lit "https://b.org" = Some (of_Z 20)
  ∧ (wait_for_turn zero (of_Z 21) (lit "https://b.org/y") None t1).1
    = (wait_for_turn zero (of_Z 21) (lit "https://b.org/y") None t).1.
Proof.
  intros t t1.
  destruct (wait_for_turn_per_domain (decimal 1 2) (of_Z 10)
              (lit "https://a.com/x") (Some (number.Int 5)) zero (of_Z 21)
              (lit "https://b.org/y") None t
              (lit "https://a.com") (lit "https://b.org"))
    as [H1 H2]; [vm_compute; reflexivity|vm_compute; reflexivity|
                 discriminate|].
  split; [|exact H2]. fold t1 in H1. rewrite H1. reflexivity.
Defined.

End throttle_domain_facts.
(** ** Capturing tabs *)

Module tab_capture_facts.
Import pystr pystr_facts pystr_search char_facts tab_traversal spec.
Import build_path_facts.

Lemma strip_by_idem (p : ascii → bool) (s : str) :
  strip_by p (strip_by p s) = strip_by p s.
Proof.
  apply strip_by_fixed.
  - intros c t H. by apply strip_by_head in H.
  - intros t c H. by apply strip_by_last in H.
Qed.

Lemma contains_app (sub pre post : str) :
  contains sub (pre ++ sub ++ post) = true.
Proof.
  unfold contains.
  destruct (find_sub sub (pre ++ sub ++ post)) eqn:H; [done|].
  by destruct (find_sub_None _ _ H pre post).
Qed.

Lemma lower_app (x y : str) : lower (x ++ y) = lower x ++ lower y.
Proof. unfold lower. apply map_app. Qed.

Lemma _wrap_fragment_document (x : str) :
  x ≠ [] → strip x = x →
  contains (lit "<html") (lower x) = true →
  contains (lit "</html") (lower x) = true →
  _wrap_fragment (Some x) = x.
Proof.
  intros Hne Hs H1 H2. unfold _wrap_fragment.
  change (default [] (Some x)) with x. rewrite Hs.
  rewrite (proj2 (nonempty_true x) Hne). cbn [negb]. cbv zeta.
  by rewrite H1, H2.
Qed.

Lemma wrapped_document (snippet : str) :
  let w := lit "<html><body>" ++ snippet ++ lit "</body></html>" in
  w ≠ [] ∧ strip w = w
  ∧ contains (lit "<html") (lower w) = true
  ∧ contains (lit "</html") (lower w) = true.
Proof.
  intros w. split; [done|]. split.
  { apply strip_by_fixed.
    - intros c t H. subst w. by injection H as <- _.
    - intros t c H. subst w.
      change (lit "</body></html>") with (lit "</body></html" ++ lit ">") in H.
      rewrite !app_assoc in H. apply app_inj_tail in H as [_ <-]. done. }
  assert (Hlow : lower w
                 = lit "<html><body>" ++ lower snippet ++ lit "</body></html>").
  { subst w. by rewrite !lower_app. }
  rewrite Hlow. split.
  - apply (contains_app (lit "<html") []).
  - change (lit "</body></html>") with (lit "</body>" ++ lit "</html" ++ lit ">").
    rewrite !app_assoc. rewrite <- (app_assoc _ (lit "</html")).
    apply contains_app.
Qed.

(** X13. [_wrap_fragment] returns the empty string for a missing or blank
    fragment and otherwise a document: a text without surrounding white
    space in which "<html" and "</html" occur, case apart. Wrapping what it
    returned changes nothing. *)
Theorem _wrap_fragment_idempotent (html_fragment : option str) :
  let wrapped := _wrap_fragment html_fragment in
  _wrap_fragment (Some wrapped) = wrapped
  ∧ (wrapped = [] ↔ strip (default [] html_fragment) = [])
  ∧ (wrapped ≠ [] →
     contains (lit "<html") (lower wrapped) = true
     ∧ contains (lit "</html") (lower wrapped) = true
     ∧ strip wrapped = wrapped).
Proof.
  intros wrapped.
  set (snippet := strip (default [] html_fragment)).
  assert (Hss : strip snippet = snippet) by apply strip_by_idem.
  assert (Hcases :
    (snippet = [] ∧ wrapped = [])
    ∨ (snippet ≠ [] ∧ wrapped ≠ [] ∧ strip wrapped = wrapped
       ∧ contains (lit "<html") (lower wrapped) = true
       ∧ contains (lit "</html") (lower wrapped) = true)).
  { subst wrapped. unfold _wrap_fragment. fold snippet. cbv zeta.
    destruct (urllib_parse.nonempty snippet) eqn:Hne; cbn [negb].
    2: { left. by apply nonempty_false in Hne. }
    apply nonempty_true in Hne. right. split; [done|].
    destruct (contains (lit "<html") (lower snippet)
              && contains (lit "</html") (lower snippet)) eqn:Htags.
    - by apply andb_true_iff in Htags as [H1 H2].
    - apply wrapped_document. }
  destruct Hcases as [[Hs ->] | (Hs & Hne & Hst & H1 & H2)].
  - split; [reflexivity|]. split; [done|done].
  - split; [by apply _wrap_fragment_document|]. split; [|done].
    split; [done|]. intros H. by destruct Hs.
Qed.

(** *** The blocks collected *)

Lemma block_of_Some (c : capture.TabCapture) (converted : conversion)
    (b : TabMarkdownBlock) :
  block_of c converted = Some b →
  (markdown_text b ≠ [] ∨ links b ≠ [])
  ∧ strip (markdown_text b) = markdown_text b
  ∧ markdown_text b = strip (default [] converted.1)
  ∧ links b = converted.2
  ∧ group_title b = capture.group_title c
  ∧ tab_label b = capture.tab_label c
  ∧ index b = capture.index c
  ∧ group_index b = capture.group_index c.
Proof.
  destruct converted as [markdown lnks]. unfold block_of. cbv zeta.
  destruct (negb (urllib_parse.nonempty (default [] markdown))
            && bool_decide (lnks = [])); [done|].
  destruct (negb (urllib_parse.nonempty (strip (default [] markdown)))
            && bool_decide (lnks = [])) eqn:H; [done|].
  intros [= <-]. cbn [markdown_text links group_title tab_label index
                      group_index fst snd].
  split; [|split; [apply strip_by_idem|done]].
  apply andb_false_iff in H as [H | H].
  - left. apply negb_false_iff in H. by apply nonempty_true.
  - right. by apply bool_decide_eq_false in H.
Qed.

Lemma collect_loop_kept (captures : list (capture.TabCapture * conversion)) :
  ∀ (seen : gset str) (blocks : list TabMarkdownBlock),
    ∃ kept new,
      collect_loop captures seen blocks = blocks ++ new
      ∧ sublist kept captures
      ∧ NoDup (digest_key <$> kept.*1)
      ∧ (∀ k, k ∈ digest_key <$> kept.*1 → k ∉ seen)
      ∧ Forall2 (fun b kc => block_of kc.1 kc.2 = Some b) new kept.
Proof.
  induction captures as [|[c converted] rest IH]; intros seen blocks.
  { exists [], []. rewrite app_nil_r. repeat split; try done.
    - constructor.
    - intros k Hk. by apply not_elem_of_nil in Hk. }
  cbn [collect_loop].
  destruct (bool_decide (digest_key c ∈ seen)) eqn:Hseen.
  - destruct (IH seen blocks) as (kept & new & Heq & Hsub & Hnd & Hfresh & Hall).
    exists kept, new. repeat split; try done. by apply sublist_cons.
  - apply bool_decide_eq_false in Hseen. cbv zeta.
    destruct (block_of c converted) as [b|] eqn:Hb.
    + destruct (IH (seen ∪ {[digest_key c]}) (blocks ++ [b]))
        as (kept & new & Heq & Hsub & Hnd & Hfresh & Hall).
      exists ((c, converted) :: kept), (b :: new).
      split; [by rewrite Heq, <- app_assoc|].
      split; [by apply sublist_skip|].
      split.
      { rewrite !fmap_cons. cbn [fst].
        apply NoDup_cons. split; [|done].
        intros Hin. apply (Hfresh _ Hin). set_solver. }
      split.
      { intros k Hk. rewrite !fmap_cons in Hk. cbn [fst] in Hk.
        apply elem_of_cons in Hk as [-> | Hk]; [done|].
        specialize (Hfresh _ Hk). set_solver. }
      by constructor.
    + destruct (IH (seen ∪ {[digest_key c]}) blocks)
        as (kept & new & Heq & Hsub & Hnd & Hfresh & Hall).
      exists kept, new. split; [done|]. split; [by apply sublist_cons|].
      split; [done|]. split; [|done].
      intros k Hk. specialize (Hfresh _ Hk). set_solver.
Qed.

(** X14. The blocks [collect_markdown_blocks] returns are those of a
    selection of the captures, in their order, in which no digest key
    occurs twice: at most one block per key. Every block has markdown or
    links, and its markdown carries no surrounding white space. Nothing is
    returned when traversal is disabled, no session is given or no page is
    attached. *)
Theorem collect_markdown_blocks_dedup (enabled : bool)
    (session_id : option str)
    (page : option (list (capture.TabCapture * conversion))) :
  let blocks := collect_markdown_blocks enabled session_id page in
  (∃ kept,
     sublist kept (default [] page)
     ∧ NoDup (digest_key <$> kept.*1)
     ∧ Forall2 (fun b kc => block_of kc.1 kc.2 = Some b) blocks kept)
  ∧ Forall (fun b => (markdown_text b ≠ [] ∨ links b ≠ [])
                     ∧ strip (markdown_text b) = markdown_text b) blocks
  ∧ (enabled = false ∨ default [] session_id = [] ∨ page = None →
     blocks = []).
Proof.
  intros blocks.
  assert (Hkept : ∃ kept,
     sublist kept (default [] page)
     ∧ NoDup (digest_key <$> kept.*1)
     ∧ Forall2 (fun b kc => block_of kc.1 kc.2 = Some b) blocks kept).
  { subst blocks. unfold collect_markdown_blocks.
    destruct (negb enabled || _).
    { exists []. repeat split; [apply sublist_nil_l|constructor|constructor]. }
    destruct page as [captures|].
    2: { exists []. repeat split; constructor. }
    destruct (bool_decide (captures = [])).
    { exists []. repeat split; [apply sublist_nil_l|constructor|constructor]. }
    destruct (collect_loop_kept captures ∅ [])
      as (kept & new & Heq & Hsub & Hnd & _ & Hall).
    exists kept. rewrite Heq. by repeat split. }
  split; [done|]. split.
  - destruct Hkept as (kept & _ & _ & Hall).
    induction Hall as [|b kc bs kcs Hb _ IH]; constructor; [|done].
    destruct kc as [c converted]. by apply block_of_Some in Hb as (? & ? & _).
  - subst blocks. unfold collect_markdown_blocks.
    intros [-> | [Hs | ->]]; [done| |by destruct (negb enabled || _)].
    rewrite Hs. cbn [urllib_parse.nonempty negb]. by rewrite orb_true_r.
Qed.

(** *** Links *)

Lemma hrefs_of_clean (lnks : list (gmap str str)) :
  Forall (fun h => h ≠ [] ∧ strip h = h) (hrefs_of lnks).
Proof.
  unfold hrefs_of. apply Forall_forall. intros h Hh.
  apply list_elem_of_omap in Hh as (link & _ & Hh).
  cbv zeta in Hh.
  destruct (urllib_parse.nonempty _) eqn:Hne; [|done].
  injection Hh as <-. split; [by apply nonempty_true|apply strip_by_idem].
Qed.

(** X15. Every link [_extract_links] returns is non-empty and carries no
    surrounding white space; the links of the page come first, internal
    before external, then those of the tab blocks, block by block. Without
    tab blocks the result is the one of [_collect_links]. *)
Theorem _extract_links_clean (lnks : option (gmap str (list (gmap str str))))
    (tab_blocks : option (list TabMarkdownBlock)) :
  Forall (fun h => h ≠ [] ∧ strip h = h)
         (crawl_loop._extract_links lnks tab_blocks)
  ∧ crawl_loop._extract_links lnks tab_blocks
    = _collect_links lnks
      ++ concat ((fun b => filter (fun h => h ≠ []) (strip <$> links b))
                 <$> default [] tab_blocks)
  ∧ crawl_loop._extract_links lnks None = _collect_links lnks.
Proof.
  assert (Heq : ∀ bs, crawl_loop._extract_links lnks bs
    = _collect_links lnks
      ++ concat ((fun b => filter (fun h => h ≠ []) (strip <$> links b))
                 <$> default [] bs)).
  { intros bs. unfold crawl_loop._extract_links, _collect_links. cbv zeta.
    rewrite <- app_assoc. do 2 f_equal.
    induction (default [] bs) as [|b l IH]; [done|].
    cbn [mbind list_bind fmap list_fmap concat]. by rewrite <- IH. }
  split; [|split; [apply Heq|]].
  - rewrite Heq. unfold _collect_links. cbv zeta.
    rewrite !Forall_app. split; [split; apply hrefs_of_clean|].
    apply Forall_concat, Forall_fmap, Forall_forall. intros b _.
    apply Forall_forall. intros h Hh.
    apply list_elem_of_filter in Hh as [Hne Hh].
    apply list_elem_of_fmap in Hh as (x & -> & _).
    split; [done|apply strip_by_idem].
  - rewrite Heq. cbn [default from_option fmap list_fmap concat].
    by rewrite app_nil_r.
Qed.

End tab_capture_facts.
(** ** The crawl loop *)

Module crawl_loop_facts.
Import pystr crawl_queue crawl_queue_facts frontier_facts crawl_loop spec.

Lemma absorb_inv (outcomes : list crawl_outcome) :
  ∀ q : CrawlQueue,
    queue_inv q →
    queue_inv (absorb outcomes q).2 ∧ _seen (absorb outcomes q).2 = _seen q.
Proof.
  induction outcomes as [|o rest IH]; intros q Hq; [done|].
  destruct o as [|page_url hrefs|]; cbn [absorb]; try by apply IH.
  pose proof (extend_from_inv hrefs (Some page_url) 0 q Hq) as [Hinv Hseen].
  fold (extend hrefs (Some page_url) q) in Hinv, Hseen.
  destruct (extend hrefs (Some page_url) q) as [[n|e] q'];
    cbn [snd] in Hinv, Hseen; [|done].
  destruct (IH q' Hinv) as [H1 H2]. split; [done|]. by rewrite H2.
Qed.

Lemma next_batch_inv (size : Z) (q : CrawlQueue) :
  queue_inv q →
  queue_inv (next_batch size q).2
  ∧ NoDup (next_batch size q).1
  ∧ (∀ u, u ∈ (next_batch size q).1 → u ∉ _seen q).
Proof.
  intros Hq. destruct (step_inv (NextBatch size) q Hq) as (H1 & H2 & H3 & _).
  done.
Qed.

Lemma take_nil_inv {A : Type} (n : nat) (l : list A) :
  take n l = [] → l ≠ [] → n = 0.
Proof. destruct n, l; done. Qed.

(** X16. [_drain_queue] ends: a number of rounds above the pages still
    allowed is enough. It never crawls a URL twice nor one handed out
    before, counts one attempt per URL crawled, and, started within the
    limit, never attempts more than [max_pages]. When it returns normally,
    nothing is pending, or the limit is reached, or the concurrency is not
    positive. *)
Theorem drain_queue_bounded (crawl : nat → str → crawl_outcome)
    (max_pages concurrency : Z) (fuel : nat) :
  ∀ (round : nat) (q : CrawlQueue) (attempted : Z),
    queue_inv q →
    Z.to_nat (max_pages - attempted) < fuel →
    ∃ r q' attempted' crawled,
      _drain_queue fuel crawl round max_pages concurrency q attempted
      = Some (r, q', attempted', crawled)
      ∧ attempted' = (attempted + Z.of_nat (length crawled))%Z
      ∧ ((attempted ≤ max_pages)%Z → (attempted' ≤ max_pages)%Z)
      ∧ NoDup crawled
      ∧ (∀ u, u ∈ crawled → u ∉ _seen q)
      ∧ _seen q' = _seen q ∪ list_to_set crawled
      ∧ queue_inv q'
      ∧ (r = Ok tt →
         pending q' = 0%Z ∨ (max_pages ≤ attempted')%Z ∨ (concurrency ≤ 0)%Z).
Proof.
  induction fuel as [|fuel IH]; intros round q attempted Hq Hfuel; [lia|].
  cbn [_drain_queue].
  destruct (negb (pending q =? 0)%Z && (attempted <? max_pages)%Z) eqn:Hcond.
  2: { exists (Ok tt), q, attempted, []. cbn [length list_to_set].
       split; [done|]. split; [lia|]. split; [done|]. split; [constructor|].
       split; [intros u Hu; by apply not_elem_of_nil in Hu|].
       split; [set_solver|]. split; [done|]. intros _.
       apply andb_false_iff in Hcond as [H | H].
       - left. apply negb_false_iff in H. by apply Z.eqb_eq.
       - right. left. by apply Z.ltb_ge. }
  apply andb_true_iff in Hcond as [Hpend Hlt].
  apply negb_true_iff, Z.eqb_neq in Hpend. apply Z.ltb_lt in Hlt.
  cbv zeta.
  set (size := Z.min concurrency (max_pages - attempted)).
  destruct (next_batch_inv size q Hq) as (Hq1 & Hnd & Hfresh).
  pose proof (next_batch_take size q) as Hfifo.
  destruct (next_batch size q) as [urls q1] eqn:Hnb.
  cbn [fst snd] in Hq1, Hnd, Hfresh.
  injection Hfifo as Hurls Hq1eq.
  assert (Hseen1 : _seen q1 = _seen q ∪ list_to_set urls).
  { rewrite Hq1eq. cbn [_seen]. by rewrite <- Hurls. }
  destruct (bool_decide (urls = [])) eqn:Hempty.
  { apply bool_decide_eq_true in Hempty.
    exists (Ok tt), q1, attempted, []. cbn [length list_to_set].
    split; [done|]. split; [lia|]. split; [done|]. split; [constructor|].
    split; [intros u Hu; by apply not_elem_of_nil in Hu|].
    split; [rewrite Hseen1, Hempty; set_solver|]. split; [done|]. intros _.
    right. right.
    assert (Hn : Z.to_nat size = 0).
    { apply (take_nil_inv _ (_pending q)); [by rewrite <- Hurls|].
      unfold pending in Hpend. by destruct (_pending q). }
    subst size. lia. }
  apply bool_decide_eq_false in Hempty.
  assert (Hlen : (1 ≤ Z.of_nat (length urls) ≤ max_pages - attempted)%Z).
  { split; [destruct urls; [done|cbn [length]; lia]|].
    rewrite Hurls, length_take. subst size. lia. }
  destruct (absorb_inv (crawl round <$> urls) q1 Hq1) as [Hq2 Hseen2].
  destruct (absorb (crawl round <$> urls) q1) as [[[]|e] q2];
    cbn [snd] in Hq2, Hseen2.
  - destruct (IH (S round) q2 (attempted + Z.of_nat (length urls))%Z Hq2)
      as (r & q3 & a' & crawled & Heq & Ha & Hmax & Hnd' & Hfresh' & Hseen3
          & Hq3 & Hexit); [lia|].
    rewrite Heq. exists r, q3, a', (urls ++ crawled).
    split; [done|]. split; [rewrite length_app; lia|]. split; [lia|].
    split.
    { apply NoDup_app. split; [done|]. split; [|done].
      intros u Hu Hu'. apply (Hfresh' _ Hu').
      rewrite Hseen2, Hseen1. set_solver. }
    split.
    { intros u Hu. apply elem_of_app in Hu as [Hu | Hu]; [by apply Hfresh|].
      specialize (Hfresh' _ Hu). rewrite Hseen2, Hseen1 in Hfresh'.
      set_solver. }
    split; [rewrite Hseen3, Hseen2, Hseen1, list_to_set_app_L; set_solver|].
    split; [done|]. done.
  - exists (Raise e), q2, (attempted + Z.of_nat (length urls))%Z, urls.
    split; [done|]. split; [done|]. split; [lia|]. split; [done|].
    split; [done|]. split; [by rewrite Hseen2|]. split; [done|]. done.
Qed.

(** Two pages allowed, two at a time: the seed yields two links, of which
    one is crawled before the limit stops the loop. *)
Lemma drain_queue_bounded_witness :
  let q := (add (lit "https://ex.com/docs/a") None
                (init (lit "https://ex.com/docs/") true)).2 in
  let crawl := fun (round : nat) (url : str) =>
    match round with
    | 0 => Discovered url [lit "b"; lit "c#top"; lit "b"]
    | _ => Failed
    end in
  ∃ q',
    _drain_queue 3 crawl 0 2 2 q 0
    = Some (Ok tt, q', 2%Z,
            [lit "https://ex.com/docs/a"; lit "https://ex.com/docs/b"])
    ∧ _pending q' = [lit "https://ex.com/docs/c"].
Proof.
  intros q crawl.
  destruct (drain_queue_bounded crawl 2 2 3 0 q 0)
    as (r & q' & a' & crawled & Heq & _);
    [apply add_inv, init_inv|vm_compute; lia|].
  exists q'. rewrite Heq. vm_compute in Heq.
  injection Heq as <- <- <- <-. split; reflexivity.
Defined.

End crawl_loop_facts.
(** ** Settings read from the configuration *)

Module config_loader_facts.
Import pystr pystr_facts config_loader spec float64_facts.

Section Conversions.

Variable float_of_str : str → option float64.float.
Variable int_of_str : str → option Z.
Variable str_of : yaml → str.
Variable expanduser : pathlib.Path → pathlib.Path.

(** X17. In the delay settings [DelaySettings.from_dict] returns the
    maximum is never below the minimum, whatever the document says: the
    comparison [max_seconds < min_seconds] is false. When neither bound is
    a nan, which a document can hold and the settings then keep, the
    minimum does not exceed the maximum. Without a document the bounds are
    one and three seconds. *)
Theorem DelaySettings_from_dict_ordered (data : option (gmap str yaml))
    (d : DelaySettings) :
  DelaySettings_from_dict float_of_str data = Ok d →
  float64.ltb (max_seconds d) (min_seconds d) = false
  ∧ (float64.is_nan (min_seconds d) = false →
     float64.is_nan (max_seconds d) = false →
     float64.leb (min_seconds d) (max_seconds d) = true)
  ∧ DelaySettings_from_dict float_of_str None
    = Ok (mkDelaySettings (float64.of_Z 1) (float64.of_Z 3)).
Proof.
  intros H. unfold DelaySettings_from_dict in H. cbv zeta in H.
  apply bind_Ok_inv in H as (lo & _ & H).
  apply bind_Ok_inv in H as (hi & _ & H).
  injection H as <-. cbn [min_seconds max_seconds].
  assert (Hlt : float64.ltb (if float64.ltb hi lo then lo else hi) lo = false).
  { destruct (float64.ltb hi lo) eqn:E; [apply arith_facts.ltb_irrefl|done]. }
  split; [done|]. split; [|reflexivity].
  intros Hlo Hhi. by apply ltb_false_leb.
Qed.

(** *** Integers *)

Lemma py_int_clamped (v : yaml) (z floor dflt : Z) :
  (floor ≤ dflt)%Z →
  (floor ≤ (if (z <? floor)%Z then dflt else z))%Z.
Proof. intros H. destruct (z <? floor)%Z eqn:E; [done|]. by apply Z.ltb_ge. Qed.

(** X18. The tab settings [TabTraversalSettings.from_dict] returns allow at
    least one group, one tab per group and one tab in total, wait at least
    500 ms for an activation, and have a heading template that is not
    empty. *)
Theorem TabTraversalSettings_from_dict_bounds (data : option (gmap str yaml))
    (t : TabTraversalSettings) :
  TabTraversalSettings_from_dict int_of_str str_of data = Ok t →
  (1 ≤ max_groups t)%Z ∧ (1 ≤ max_tabs_per_group t)%Z
  ∧ (1 ≤ max_total_tabs t)%Z ∧ (500 ≤ wait_for_activation_ms t)%Z
  ∧ heading_template t ≠ [].
Proof.
  intros H. unfold TabTraversalSettings_from_dict in H. cbv zeta in H.
  apply bind_Ok_inv in H as (g & _ & H).
  apply bind_Ok_inv in H as (p & _ & H).
  apply bind_Ok_inv in H as (a & _ & H).
  apply bind_Ok_inv in H as (w & _ & H).
  injection H as <-.
  cbn [max_groups max_tabs_per_group max_total_tabs wait_for_activation_ms
       heading_template].
  split; [lia|]. split; [lia|]. split; [lia|]. split.
  - by apply (py_int_clamped YNull).
  - destruct (urllib_parse.nonempty _) eqn:Hne; [by apply nonempty_true|done].
Qed.

(** X19. [CrawlParameters.from_dict] raises [ValueError] for a document
    without a seed URL, whatever else it holds. The parameters it returns
    have a concurrency and a page limit of at least one, a page timeout of
    at least one second, and the scope mode "parent" or "seed". *)
Theorem CrawlParameters_from_dict_bounds (data : gmap str yaml) :
  (data !! lit "seed_url" = None →
   CrawlParameters_from_dict int_of_str str_of expanduser data
   = Raise ValueError)
  ∧ ∀ c,
      CrawlParameters_from_dict int_of_str str_of expanduser data = Ok c →
      (1 ≤ concurrency c)%Z ∧ (1 ≤ max_pages c)%Z
      ∧ (1000 ≤ page_timeout_ms c)%Z
      ∧ (scope_mode c = lit "parent" ∨ scope_mode c = lit "seed")
      ∧ ∃ seed, data !! lit "seed_url" = Some seed
                ∧ seed_url c = py_str str_of seed.
Proof.
  unfold CrawlParameters_from_dict. split.
  - by intros ->.
  - intros c H. destruct (data !! lit "seed_url") as [seed|]; [|done].
    cbv zeta in H.
    apply bind_Ok_inv in H as (n & _ & H).
    apply bind_Ok_inv in H as (m & _ & H).
    apply bind_Ok_inv in H as (o & _ & H).
    apply bind_Ok_inv in H as (p & _ & H).
    apply bind_Ok_inv in H as (w & _ & H).
    injection H as <-.
    cbn [concurrency max_pages page_timeout_ms scope_mode seed_url].
    split; [by apply (py_int_clamped YNull)|].
    split; [by apply (py_int_clamped YNull)|].
    split; [by apply (py_int_clamped YNull)|].
    split; [|by exists seed].
    destruct (bool_decide _) eqn:Hin; [|by left].
    apply bool_decide_eq_true in Hin.
    apply elem_of_cons in Hin as [Hin | Hin]; [by left|].
    apply list_elem_of_singleton in Hin. by right.
Qed.

End Conversions.

(** A document whose maximum is below its minimum, and one whose maximum
    is a nan. *)
Lemma DelaySettings_from_dict_ordered_witness :
  let data : gmap str yaml :=
    {[ lit "min_seconds" := YInt 5;
       lit "max_seconds" := YFloat (float64.decimal 3 2) ]} in
  let odd : gmap str yaml :=
    {[ lit "min_seconds" := YInt 4; lit "max_seconds" := YFloat float64.nan ]} in
  DelaySettings_from_dict (fun _ => None) (Some data)
  = Ok (mkDelaySettings (float64.of_Z 5) (float64.of_Z 5))
  ∧ float64.leb (float64.of_Z 5) (float64.of_Z 5) = true
  ∧ DelaySettings_from_dict (fun _ => None) (Some odd)
    = Ok (mkDelaySettings (float64.of_Z 4) float64.nan).
Proof.
  intros data odd.
  assert (H : DelaySettings_from_dict (fun _ => None) (Some data)
              = Ok (mkDelaySettings (float64.of_Z 5) (float64.of_Z 5)))
    by (vm_compute; reflexivity).
  split; [exact H|]. split; [|vm_compute; reflexivity].
  destruct (DelaySettings_from_dict_ordered (fun _ => None) (Some data) _ H)
    as (_ & Hle & _).
  apply Hle; reflexivity.
Defined.

(** A document whose bounds are below the floors. *)
Lemma TabTraversalSettings_from_dict_bounds_witness :
  let data : gmap str yaml :=
    {[ lit "max_groups" := YInt 0; lit "max_total_tabs" := YFloat (float64.decimal (-7) 2);
       lit "wait_for_activation_ms" := YInt 20;
       lit "heading_template" := YStr (lit "   ") ]} in
  ∃ t,
    TabTraversalSettings_from_dict (fun _ => None) (fun _ => []) (Some data)
    = Ok t
    ∧ ((1 ≤ max_groups t)%Z ∧ (1 ≤ max_tabs_per_group t)%Z
       ∧ (1 ≤ max_total_tabs t)%Z ∧ (500 ≤ wait_for_activation_ms t)%Z
       ∧ heading_template t ≠ [])
    ∧ max_groups t = 1%Z ∧ max_tabs_per_group t = 5%Z
    ∧ max_total_tabs t = 1%Z ∧ wait_for_activation_ms t = 500%Z
    ∧ heading_template t = default_heading_template.
Proof.
  intros data.
  destruct (TabTraversalSettings_from_dict (fun _ => None) (fun _ => [])
              (Some data)) as [t|e] eqn:E; [|by vm_compute in E].
  pose proof (TabTraversalSettings_from_dict_bounds _ _ _ _ E) as Hbounds.
  exists t. split; [done|]. split; [exact Hbounds|].
  vm_compute in E. injection E as <-. repeat split; reflexivity.
Defined.

(** A document with a seed, a concurrency of zero and an unknown scope
    mode. *)
Lemma CrawlParameters_from_dict_bounds_witness :
  let data : gmap str yaml :=
    {[ lit "seed_url" := YStr (lit "https://ex.com/docs/");
       lit "concurrency" := YInt 0; lit "max_pages" := YInt (-3);
       lit "scope_mode" := YStr (lit " Subtree ") ]} in
  ∃ c,
    CrawlParameters_from_dict (fun _ => None) (fun _ => []) id data = Ok c
    ∧ ((1 ≤ concurrency c)%Z ∧ (1 ≤ max_pages c)%Z
       ∧ (1000 ≤ page_timeout_ms c)%Z)
    ∧ concurrency c = 1%Z ∧ max_pages c = 2000%Z
    ∧ page_timeout_ms c = 120000%Z ∧ scope_mode c = lit "parent".
Proof.
  intros data.
  destruct (CrawlParameters_from_dict (fun _ => None) (fun _ => []) id data)
    as [c|e] eqn:E; [|by vm_compute in E].
  destruct (proj2 (CrawlParameters_from_dict_bounds _ _ _ data) c E)
    as (H1 & H2 & H3 & _).
  exists c. split; [done|]. split; [done|].
  vm_compute in E. injection E as <-. repeat split; reflexivity.
Defined.


End config_loader_facts.
(** ** Origins *)

Module origin_facts.
Import pystr pystr_facts pystr_search char_facts urllib_parse urllib_facts spec.
Import posixpath_facts utils_facts robots_allowed_facts url_shape_facts.

Lemma valid_scheme_nonempty (sch : str) : valid_scheme sch → sch ≠ [].
Proof. by destruct sch. Qed.

(** A URL put together from a scheme, a network location, a path that
    starts with a slash and a query is split into these again. *)
Lemma urlsplit_urlunparse (sch nl pth q : str) :
  valid_scheme sch → nl ≠ [] → clean nl → no_delims nl →
  unbalanced_brackets nl = false →
  startswith (lit "/") pth = true → clean pth →
  "?"%char ∉ pth → "#"%char ∉ pth → clean q → "#"%char ∉ q →
  urlsplit (urlunparse sch nl pth [] q []) []
  = Ok (mkParse sch nl pth [] q []).
Proof.
  intros Hv Hnl Hnlc Hnld Hnlb Hs Hpc Hpq Hph Hqc Hqh.
  rewrite urlunparse_netloc by (done || by apply valid_scheme_nonempty).
  rewrite urlsplit_scheme; [|done|].
  2: { rewrite !clean_app. split; [by apply clean_lit_check|].
       split; [done|]. split; [done|].
       destruct (nonempty q); [|by intros c Hc; apply not_elem_of_nil in Hc].
       apply clean_app. split; [by apply clean_lit_check|done]. }
  by apply urlsplit_rest_netloc; [| |apply startswith_delimited| | |].
Qed.

(** The scheme and network location of a parsed URL, lower-cased, are
    those of a URL again. *)
Lemma parsed_wf_lower (p : ParseResult) :
  parsed_wf p → scheme p ≠ [] →
  valid_scheme (lower (scheme p))
  ∧ clean (lower (netloc p)) ∧ no_delims (lower (netloc p))
  ∧ unbalanced_brackets (lower (netloc p)) = false.
Proof.
  intros (Hsch & Hnc & Hnd & Hnb & _) Hne.
  destruct Hsch as [Hsch | Hsch]; [done|].
  destruct (valid_scheme_chars _ Hsch) as (-> & _).
  split; [done|]. split; [by apply clean_lower|].
  split; [by apply no_delims_lower|]. by rewrite unbalanced_brackets_lower.
Qed.

(** X20. Normalizing an absolute URL with a network location does not
    change its domain key: the entry of the robots cache and the
    reservation of the throttle are the same for a URL and for its
    normalized form. *)
Theorem domain_key_normalized (u v : str) (p : ParseResult) :
  urlparse u = Ok p → netloc p ≠ [] →
  utils.normalize_url u None = Ok (Some v) →
  utils.domain_key v = utils.domain_key u
  ∧ utils.domain_key u
    = Ok (lower (scheme p) ++ lit "://" ++ lower (netloc p)).
Proof.
  intros Hp Hnl Hn.
  assert (Hu : utils.domain_key u
               = Ok (lower (scheme p) ++ lit "://" ++ lower (netloc p))).
  { unfold utils.domain_key. by rewrite Hp, bind_Ok. }
  split; [|done]. rewrite Hu.
  unfold utils.normalize_url in Hn.
  destruct (nonempty u); cbn [negb] in Hn; [|done].
  rewrite Hp, bind_Ok in Hn.
  destruct (nonempty (scheme p)) eqn:Hsne; cbn [negb] in Hn; [|done].
  apply nonempty_true in Hsne. injection Hn as Hn.
  unfold utils.normalize_parsed in Hn.
  destruct (bool_decide _); [|done]. injection Hn as <-.
  pose proof (urlparse_wf _ _ Hp) as Hwf.
  destruct (parsed_wf_lower p Hwf Hsne) as (Hv & Hc & Hd & Hb).
  destruct Hwf as (_ & _ & _ & _ & Hpc & Hpq & Hph & Hqc & Hqh).
  destruct (_normalized_path_normal (path p)) as [Hnorm Hchars].
  assert (Hsplit : urlsplit (urlunparse (lower (scheme p)) (lower (netloc p))
                               (utils._normalized_path (path p)) []
                               (query p) []) []
                   = Ok (mkParse (lower (scheme p)) (lower (netloc p))
                                 (utils._normalized_path (path p)) []
                                 (query p) [])).
  { apply urlsplit_urlunparse; try done.
    - by apply lower_nonempty.
    - apply _normalized_path_slash.
    - intros c Hin. destruct (Hchars _ Hin) as [-> | H]; [done|by apply Hpc].
    - intros H. by destruct (Hchars _ H).
    - intros H. by destruct (Hchars _ H). }
  apply urlparse_of_urlsplit in Hsplit as (r & Hr & Hrs & Hrn).
  unfold utils.domain_key. rewrite Hr, bind_Ok, Hrs, Hrn.
  cbn [scheme netloc]. by rewrite !lower_idem.
Qed.

Lemma domain_key_normalized_witness :
  let u := lit "HTTPS://Docs.Ex.com:8443/a/../b/?q=1#frag" in
  ∃ v, utils.normalize_url u None = Ok (Some v)
       ∧ utils.domain_key v = Ok (lit "https://docs.ex.com:8443")
       ∧ utils.domain_key v = utils.domain_key u.
Proof.
  intros u. exists (lit "https://docs.ex.com:8443/b/?q=1").
  destruct (domain_key_normalized u (lit "https://docs.ex.com:8443/b/?q=1")
              (mkParse (lit "https") (lit "Docs.Ex.com:8443") (lit "/a/../b/")
                       [] (lit "q=1") (lit "frag")))
    as [H1 H2];
    [vm_compute; reflexivity|discriminate|vm_compute; reflexivity|].
  split; [vm_compute; reflexivity|]. split; [|exact H1].
  rewrite H1, H2. vm_compute. reflexivity.
Defined.

(** X21. For a URL with a scheme and a network location, the robots URL
    built from its domain key is the key followed by "/robots.txt": the
    file is looked up at the root of the origin. *)
Theorem robots_url_at_origin (target : str) (p : ParseResult) :
  urlparse target = Ok p → scheme p ≠ [] → netloc p ≠ [] →
  ∃ origin,
    utils.domain_key target = Ok origin
    ∧ origin = lower (scheme p) ++ lit "://" ++ lower (netloc p)
    ∧ robots_manager._build_robots_url origin
      = Ok (origin ++ lit "/robots.txt").
Proof.
  intros Hp Hsne Hnl. eexists. split.
  { unfold utils.domain_key. by rewrite Hp, bind_Ok. }
  split; [done|].
  destruct (parsed_wf_lower p (urlparse_wf _ _ Hp) Hsne) as (Hv & Hc & Hd & Hb).
  set (sch := lower (scheme p)) in *. set (nl := lower (netloc p)) in *.
  assert (Hnl' : nl ≠ []) by (by apply lower_nonempty).
  assert (Hsplit : urlsplit (sch ++ lit "://" ++ nl) []
                   = Ok (mkParse sch nl [] [] [] [])).
  { change (sch ++ lit "://" ++ nl) with (sch ++ ":"%char :: lit "//" ++ nl).
    rewrite urlsplit_scheme; [|done|].
    2: { apply clean_app. split; [by apply clean_lit_check|done]. }
    pose proof (urlsplit_rest_netloc sch nl [] []) as Hr.
    cbn [nonempty] in Hr. rewrite !app_nil_r in Hr.
    apply Hr; try done; apply not_elem_of_nil. }
  apply urlparse_of_urlsplit in Hsplit as (r & Hr & Hrs & Hrn).
  unfold robots_manager._build_robots_url. rewrite Hr, bind_Ok, Hrs, Hrn.
  cbn [scheme netloc].
  rewrite (proj2 (nonempty_true sch) (valid_scheme_nonempty _ Hv)).
  rewrite urlunparse_netloc by (done || by apply valid_scheme_nonempty).
  cbn [nonempty]. rewrite app_nil_r.
  change (sch ++ ":"%char :: lit "//" ++ nl ++ lit "/robots.txt")
    with (sch ++ lit "://" ++ nl ++ lit "/robots.txt").
  by rewrite !app_assoc.
Qed.

Lemma robots_url_at_origin_witness :
  ∃ origin,
    utils.domain_key (lit "HTTP://Ex.com/docs/a?x=1") = Ok origin
    ∧ origin = lit "http://ex.com"
    ∧ robots_manager._build_robots_url origin
      = Ok (lit "http://ex.com/robots.txt").
Proof.
  destruct (robots_url_at_origin (lit "HTTP://Ex.com/docs/a?x=1")
              (mkParse (lit "http") (lit "Ex.com") (lit "/docs/a") []
                       (lit "x=1") []))
    as (origin & Hk & -> & Hb);
    [vm_compute; reflexivity|discriminate|discriminate|].
  eexists. split; [exact Hk|]. split; [reflexivity|exact Hb].
Defined.

End origin_facts.
(** ** Crawl delays are not negative *)

Module robots_delay_facts.
Import pystr robots_manager robots_manager_facts robotparser_facts spec.
Import float64_facts arith_facts.

Lemma rate_seconds_nonneg (rate : option robotparser.RequestRate)
    (r : float64.float) :
  (∀ x, rate = Some x →
        (0 ≤ robotparser.requests x)%Z ∧ (0 ≤ robotparser.seconds x)%Z) →
  rate_seconds rate = Ok r → float64.leb float64.zero r = true.
Proof.
  intros Hwf. unfold rate_seconds. destruct rate as [x|]; [|by intros [= <-]].
  destruct (Hwf x eq_refl) as [Hreq Hsec].
  destruct (Z.eqb_spec (robotparser.requests x) 0) as [|Hz]; [by intros [= <-]|].
  destruct (float64.int_truediv _ _) as [q|] eqn:Hq; [|done].
  rewrite bind_Ok. intros [= <-].
  apply int_truediv_nonneg in Hq; [|done|lia].
  by destruct (float64.eqb q float64.zero).
Qed.

(** The greater of two numbers is not negative when the second is not and
    the first is an integer or a float that is not negative. *)
Lemma number_max_nonneg (a : number.number) (r : float64.float) :
  (∀ f, a = number.Float f → float64.leb float64.zero f = true) →
  float64.leb float64.zero r = true →
  nonneg (number.max a (number.Float r)).
Proof.
  intros Ha Hr. unfold number.max.
  destruct (number.ltb a (number.Float r)) eqn:Hlt; [done|].
  destruct a as [z|f]; [|by apply Ha]. cbn [nonneg number.ltb] in *.
  destruct (nonneg_cases r Hr) as [[s ->]|[->|(m & e & ->)]];
    cbn [float64.compare_int cond_Zopp] in Hlt.
  - destruct (Z.compare_spec z 0); try done; lia.
  - done.
  - destruct (0 <=? e)%Z eqn:He.
    + apply Z.leb_le in He.
      assert (0 < 2 ^ e)%Z by (apply Z.pow_pos_nonneg; lia).
      destruct (Z.compare_spec z (Z.pos m * 2 ^ e)); try done; nia.
    + apply Z.leb_gt in He.
      assert (0 < 2 ^ (- e))%Z by (apply Z.pow_pos_nonneg; lia).
      destruct (Z.compare_spec (z * 2 ^ (- e)) (Z.pos m)); try done; nia.
Qed.

Lemma _extract_delay_nonneg (user_agent : str)
    (p : robotparser.RobotFileParser) (v : number.number) :
  parser_wf p → _extract_delay user_agent p = Ok v → nonneg v.
Proof.
  intros Hwf. rewrite (_extract_delay_resolved user_agent p Hwf). cbv zeta.
  set (delay := with_fallback (_ ≫= robotparser.delay) _).
  set (rate := with_fallback (_ ≫= robotparser.req_rate) _).
  destruct (rate_seconds rate) as [r|] eqn:Hr; [|done].
  rewrite bind_Ok. intros [= <-].
  apply number_max_nonneg.
  - unfold delay_seconds. intros f.
    destruct delay as [z|]; [destruct (z =? 0)%Z|]; by intros [= <-].
  - apply (rate_seconds_nonneg rate); [|done].
    intros x Hx. subst rate. unfold with_fallback in Hx.
    destruct (robotparser.entry_for p user_agent ≫= robotparser.req_rate)
      eqn:Hown.
    + injection Hx as ->. by apply (section_rate_wf p user_agent).
    + by apply (section_rate_wf p (lit "*")).
Qed.

Section Quoting.

Variable unquote : str → str.
Variable quote : str → str.

Lemma _download_nonneg (user_agent : str) (outcome : http_outcome)
    (robots_url : str) (info : RobotsInfo) :
  _download unquote quote user_agent outcome robots_url = Ok info →
  nonneg (crawl_delay info).
Proof.
  unfold _download. cbv zeta. intros H.
  apply bind_Ok_inv in H as (? & _ & H).
  apply bind_Ok_inv in H as (parser & Hparse & H).
  apply bind_Ok_inv in H as (delay & Hdelay & H).
  injection H as <-. cbn [crawl_delay].
  apply (_extract_delay_nonneg user_agent parser); [|done].
  destruct (urllib_parse.nonempty _); by eapply parse_wf.
Qed.

(** X22. The robots manager never hands out a negative crawl delay: if no
    cached entry has one, then after any call of [allowed], whether it
    returns or raises, no cached entry has one, and the entry returned has
    none either. This holds in particular from an empty cache on. *)
Theorem allowed_delay_nonneg (outcome : http_outcome) (target : str)
    (m : RobotsManager) :
  cache_nonneg m →
  cache_nonneg (allowed unquote quote outcome target m).2
  ∧ (∀ b info,
       (allowed unquote quote outcome target m).1 = Ok (b, info) →
       nonneg (crawl_delay info))
  ∧ cache_nonneg (mkManager (_user_agent m) ∅).
Proof.
  intros Hm. split; [|split].
  3: { intros origin info H. cbn [_cache] in H.
       by rewrite lookup_empty in H. }
  all: unfold allowed, _get_info.
  all: destruct (utils.domain_key target) as [origin|e]; [|done].
  all: destruct (_cache m !! origin) as [cached|] eqn:Hc.
  - by destruct (can_fetch _ _ _ _ _).
  - destruct (_build_robots_url origin) as [robots_url|e];
      [rewrite bind_Ok|by rewrite bind_Raise].
    destruct (_download _ _ _ _ _) as [fresh|e] eqn:Hd; [|done].
    assert (Hnew : cache_nonneg
                     (mkManager (_user_agent m) (<[origin:=fresh]> (_cache m)))).
    { intros k i. cbn [_cache]. intros Hk.
      apply lookup_insert_Some in Hk as [[_ <-] | [_ Hk]].
      - by eapply _download_nonneg.
      - by eapply Hm. }
    by destruct (can_fetch _ _ _ _ _).
  - destruct (can_fetch _ _ _ _ _); [|done]. cbn [fst].
    intros b info [= _ <-]. by eapply Hm.
  - destruct (_build_robots_url origin) as [robots_url|e];
      [rewrite bind_Ok|by rewrite bind_Raise].
    destruct (_download _ _ _ _ _) as [fresh|e] eqn:Hd; [|done].
    destruct (can_fetch _ _ _ _ _); [|done]. cbn [fst].
    intros b info [= _ <-]. by eapply _download_nonneg.
Qed.

End Quoting.

(** A robots.txt with a crawl delay and a request rate. *)
Lemma allowed_delay_nonneg_witness :
  let m := mkManager (lit "DocBot/1.0") ∅ in
  let body := lit "User-agent: *" ++ ["010"%char] ++ lit "Crawl-delay: 2"
              ++ ["010"%char] ++ lit "Request-rate: 1/5" in
  ∃ info,
    (allowed id id (Response 200 body) (lit "https://ex.com/a") m).1
    = Ok (true, info)
    ∧ crawl_delay info = number.Float (float64.of_Z 5)
    ∧ nonneg (crawl_delay info).
Proof.
  intros m body.
  destruct (allowed_delay_nonneg id id (Response 200 body)
              (lit "https://ex.com/a") m) as (_ & H & _).
  { intros origin info Hin. unfold m in Hin. cbn [_cache] in Hin.
    by rewrite lookup_empty in Hin. }
  destruct (allowed id id (Response 200 body) (lit "https://ex.com/a") m).1
    as [[b info]|e] eqn:E; [|by vm_compute in E].
  exists info. specialize (H b info eq_refl).
  vm_compute in E. injection E as <- <-.
  split; [reflexivity|]. split; [reflexivity|exact H].
Defined.

End robots_delay_facts.
(** ** Scope *)

Module scope_facts.
Import pystr pystr_facts pystr_search char_facts urllib_parse urllib_facts spec.
Import posixpath_facts utils_facts url_shape_facts origin_facts.

Lemma startswith_refl (s : str) : startswith s s = true.
Proof. rewrite <- (app_nil_r s) at 2. apply startswith_app. Qed.

(** X23. [is_within_scope] compares paths at segment boundaries. For a
    scope that is not empty and URLs that parse, it returns true exactly
    when the URL has a scheme and a network location, both equal to those
    of the scope up to case, and its normalized path is the normalized path
    of the scope followed by a rest that is empty, or starts with a slash,
    or follows a scope path that ends with one. *)
Theorem is_within_scope_boundary (url scope_url : str) (cu cs : ParseResult) :
  scope_url ≠ [] → urlparse url = Ok cu → urlparse scope_url = Ok cs →
  utils.is_within_scope url scope_url = Ok true
  ↔ scheme cu ≠ [] ∧ netloc cu ≠ []
    ∧ lower (scheme cu) = lower (scheme cs)
    ∧ lower (netloc cu) = lower (netloc cs)
    ∧ ∃ rest,
        utils._normalized_path (path cu)
        = utils._normalized_path (path cs) ++ rest
        ∧ (rest = []
           ∨ startswith (lit "/") rest = true
           ∨ endswith (lit "/") (utils._normalized_path (path cs)) = true).
Proof.
  intros Hne Hu Hs. unfold utils.is_within_scope.
  rewrite (proj2 (nonempty_true scope_url) Hne). cbn [negb].
  rewrite Hu, bind_Ok, Hs, bind_Ok.
  set (c := utils._normalized_path (path cu)).
  set (sp := utils._normalized_path (path cs)).
  assert (Hc : startswith (lit "/") c = true)
    by apply _normalized_path_slash.
  destruct (nonempty (scheme cu)) eqn:H1; cbn [negb orb].
  2: { apply nonempty_false in H1. split; [done|]. by intros (? & _). }
  destruct (nonempty (netloc cu)) eqn:H2; cbn [negb].
  2: { apply nonempty_false in H2. split; [done|]. by intros (_ & ? & _). }
  apply nonempty_true in H1, H2.
  destruct (bool_decide (lower (scheme cu) = lower (scheme cs))) eqn:H3;
    cbn [negb].
  2: { apply bool_decide_eq_false in H3. split; [done|].
       by intros (_ & _ & ? & _). }
  destruct (bool_decide (lower (netloc cu) = lower (netloc cs))) eqn:H4;
    cbn [negb].
  2: { apply bool_decide_eq_false in H4. split; [done|].
       by intros (_ & _ & _ & ? & _). }
  apply bool_decide_eq_true in H3, H4.
  assert (Hiff : ∀ b : bool,
            (b = true ↔ ∃ rest, c = sp ++ rest
                                ∧ (rest = [] ∨ startswith (lit "/") rest = true
                                   ∨ endswith (lit "/") sp = true)) →
            (Ok b = Ok true
             ↔ scheme cu ≠ [] ∧ netloc cu ≠ []
               ∧ lower (scheme cu) = lower (scheme cs)
               ∧ lower (netloc cu) = lower (netloc cs)
               ∧ ∃ rest, c = sp ++ rest
                         ∧ (rest = [] ∨ startswith (lit "/") rest = true
                            ∨ endswith (lit "/") sp = true))).
  { intros b Hb. split.
    - intros [= ->]. repeat split; try done. by apply Hb.
    - intros (_ & _ & _ & _ & H). f_equal. by apply Hb. }
  destruct (bool_decide (sp = lit "/")) eqn:Hroot.
  { apply bool_decide_eq_true in Hroot. apply (Hiff true). split; [|done].
    intros _. rewrite Hroot.
    apply startswith_true in Hc as [rest Hrest]. exists rest.
    split; [done|]. by right; right. }
  destruct (endswith (lit "/") sp) eqn:Hend.
  { apply Hiff. rewrite startswith_true. split.
    - intros [rest Hrest]. exists rest. split; [done|]. by right; right.
    - intros (rest & Hrest & _). by exists rest. }
  apply Hiff. rewrite orb_true_iff, bool_decide_eq_true, startswith_true.
  split.
  - intros [Heq | [t Ht]].
    + exists []. rewrite app_nil_r. split; [done|by left].
    + exists (lit "/" ++ t). rewrite Ht, <- app_assoc. split; [done|].
      right; left. done.
  - intros (rest & Hrest & [-> | [Hsl | ?]]); [| |done].
    + left. by rewrite app_nil_r in Hrest.
    + right. apply startswith_true in Hsl as [t ->]. exists t.
      by rewrite Hrest, <- app_assoc.
Qed.

(** The sibling "/docsx" is outside the scope "/docs", its child "/docs/x"
    inside. *)
Lemma is_within_scope_boundary_witness :
  utils.is_within_scope (lit "https://ex.com/docs/x") (lit "https://ex.com/docs")
  = Ok true
  ∧ utils.is_within_scope (lit "https://ex.com/docsx") (lit "https://ex.com/docs")
    = Ok false
  ∧ ∃ rest, lit "/docs/x" = lit "/docs" ++ rest
            ∧ startswith (lit "/") rest = true.
Proof.
  split; [|split; [vm_compute; reflexivity|by exists (lit "/x")]].
  apply (is_within_scope_boundary _ _
           (mkParse (lit "https") (lit "ex.com") (lit "/docs/x") [] [] [])
           (mkParse (lit "https") (lit "ex.com") (lit "/docs") [] [] []));
    [discriminate|vm_compute; reflexivity|vm_compute; reflexivity|].
  repeat split; try discriminate.
  exists (lit "/x"). split; [vm_compute; reflexivity|]. right; left. reflexivity.
Defined.

End scope_facts.
(** ** The parent directory *)

Module parent_facts.
Import pystr pystr_facts pystr_search char_facts urllib_parse urllib_facts spec.
Import posixpath_facts utils_facts build_path_facts url_shape_facts.
Import robots_allowed_facts origin_facts scope_facts.

Lemma rfind_char_app (c : ascii) (x y : str) :
  c ∉ y → rfind_char c (x ++ c :: y) = Some (length x).
Proof.
  intros H. unfold rfind_char. rewrite rev_app_distr. cbn [rev].
  rewrite <- app_assoc. cbn [app].
  rewrite find_char_app by (by rewrite elem_of_rev).
  cbn [fmap option_fmap option_map]. f_equal.
  rewrite length_app, List.length_rev. cbn [length]. lia.
Qed.

Lemma rstrip_by_keep (p : ascii → bool) (s : str) (x : ascii) :
  p x = false → rstrip_by p (s ++ [x]) = s ++ [x].
Proof.
  intros H. unfold rstrip_by. rewrite rev_app_distr. cbn [rev app lstrip_by].
  rewrite H. cbn [rev]. by rewrite rev_involutive.
Qed.

Lemma dirname_split (x last : str) :
  "/"%char ∉ last →
  posixpath.dirname (x ++ "/"%char :: last)
  = if negb (forallb (Ascii.eqb "/") (x ++ ["/"%char]))
    then rstrip_chars (lit "/") (x ++ ["/"%char])
    else x ++ ["/"%char].
Proof.
  intros H. unfold posixpath.dirname. rewrite rfind_char_app by done.
  cbv zeta.
  assert (Htake : take (S (length x)) (x ++ "/"%char :: last)
                  = x ++ ["/"%char]).
  { replace (S (length x)) with (length (x ++ ["/"%char]))
      by (rewrite length_app; cbn [length]; lia).
    replace (x ++ "/"%char :: last) with ((x ++ ["/"%char]) ++ last)
      by (by rewrite <- app_assoc).
    by rewrite take_app_length. }
  rewrite Htake.
  rewrite (bool_decide_eq_false_2 (x ++ ["/"%char] = [])) by (by destruct x).
  done.
Qed.

Lemma join_snoc (sep : str) (init : list str) (last : str) :
  init ≠ [] → join sep (init ++ [last]) = join sep init ++ sep ++ last.
Proof.
  induction init as [|a init IH]; [done|]. intros _.
  destruct init as [|b init]; [done|].
  change ((a :: b :: init) ++ [last]) with (a :: ((b :: init) ++ [last])).
  rewrite join_cons by done. rewrite IH by done.
  rewrite (join_cons sep a (b :: init)) by done.
  by rewrite <- !app_assoc.
Qed.

(** The joined segments end with the last of them. *)
Lemma join_last (init : list str) (last : str) :
  ∃ pre, join (lit "/") (init ++ [last]) = pre ++ last
         ∧ (init = [] → pre = [])
         ∧ (init ≠ [] → pre = join (lit "/") init ++ lit "/").
Proof.
  destruct init as [|a init].
  - exists []. by repeat split.
  - exists (join (lit "/") (a :: init) ++ lit "/").
    split; [|by split]. rewrite join_snoc by done. by rewrite <- app_assoc.
Qed.

Lemma proper_last (c : str) :
  proper_segment c → ∃ l x, c = l ++ [x] ∧ x ≠ "/"%char.
Proof.
  intros (Hne & _ & _ & Hs). destruct c as [|x l _] using rev_ind; [done|].
  exists l, x. split; [done|]. intros ->. apply Hs, elem_of_app. right.
  apply list_elem_of_here.
Qed.

Lemma mem_slash_false (x : ascii) :
  x ≠ "/"%char → mem_char x (lit "/") = false.
Proof. intros H. apply mem_char_false. intros Hin.
  by apply list_elem_of_singleton in Hin. Qed.

(** Trailing slashes apart, a normal path with segments ends with its last
    segment. *)
Lemma rstrip_normal_path (k : nat) (init : list str) (last : str)
    (trailing : bool) :
  proper_segment last →
  rstrip_chars (lit "/") (normal_path k (init ++ [last]) trailing)
  = concat (replicate k (lit "/")) ++ join (lit "/") (init ++ [last]).
Proof.
  intros Hlast. destruct (proper_last last Hlast) as (l & x & -> & Hx).
  unfold normal_path, rstrip_chars.
  destruct (join_last init (l ++ [x])) as (pre & -> & _).
  set (sl := concat (replicate k (lit "/"))).
  assert (Hkeep : rstrip_by (fun c => mem_char c (lit "/"))
                    (sl ++ pre ++ l ++ [x]) = sl ++ pre ++ l ++ [x]).
  { rewrite !app_assoc. apply rstrip_by_keep. by apply mem_slash_false. }
  destruct trailing; cbv iota.
  - replace (sl ++ (pre ++ l ++ [x]) ++ lit "/")
      with ((sl ++ pre ++ l ++ [x]) ++ ["/"%char])
      by (by rewrite <- !app_assoc).
    by rewrite rstrip_by_snoc.
  - by rewrite app_nil_r.
Qed.

Lemma forallb_slash_false (a b : str) (x : ascii) :
  x ≠ "/"%char → forallb (Ascii.eqb "/") (a ++ [x] ++ b) = false.
Proof.
  intros H. rewrite !forallb_app. cbn [forallb].
  assert (Ascii.eqb "/" x = false) as -> by (by apply Ascii.eqb_neq).
  by rewrite andb_false_r.
Qed.

(** The parent path of a normal path: the root, or the path without its
    last segment, with a trailing slash. *)
Lemma parent_path_normal (k : nat) (comps : list str) (trailing : bool) :
  (k = 1 ∨ k = 2) → Forall proper_segment comps →
  (comps = [] → trailing = false) →
  parent_path (normal_path k comps trailing) = lit "/"
  ∨ parent_path (normal_path k comps trailing) = lit "///"
  ∨ ∃ init last,
      comps = init ++ [last] ∧ init ≠ []
      ∧ parent_path (normal_path k comps trailing) = normal_path k init true.
Proof.
  intros Hk Hc Ht. revert Hc Ht.
  induction comps as [|last init _] using rev_ind; intros Hc Ht.
  { rewrite (Ht eq_refl). left. by destruct Hk as [-> | ->]. }
  clear Ht. apply Forall_app in Hc as [Hinit Hlast].
  rewrite Forall_singleton in Hlast.
  unfold parent_path. rewrite !(rstrip_normal_path k init last trailing Hlast).
  destruct (join_last init last) as (pre & -> & Hnil & Hcons).
  pose proof Hlast as (_ & _ & _ & Hslash).
  destruct (decide (init = [])) as [-> | Hne].
  - rewrite (Hnil eq_refl). cbn [app].
    destruct Hk as [-> | ->].
    + left. change (concat (replicate 1 (lit "/")) ++ last)
        with ([] ++ "/"%char :: last).
      by rewrite dirname_split.
    + right; left. change (concat (replicate 2 (lit "/")) ++ last)
        with (["/"%char] ++ "/"%char :: last).
      by rewrite dirname_split.
  - right; right. exists init, last. split; [done|]. split; [done|].
    rewrite (Hcons Hne).
    destruct (join_proper_last init Hne Hinit) as (s & x & Hj & Hx).
    set (sl := concat (replicate k (lit "/"))).
    replace (sl ++ (join (lit "/") init ++ lit "/") ++ last)
      with ((sl ++ join (lit "/") init) ++ "/"%char :: last)
      by (by rewrite <- !app_assoc).
    rewrite dirname_split by done.
    assert (Hall : forallb (Ascii.eqb "/")
                     ((sl ++ join (lit "/") init) ++ ["/"%char]) = false).
    { rewrite Hj.
      replace ((sl ++ s ++ [x]) ++ ["/"%char])
        with ((sl ++ s) ++ [x] ++ ["/"%char]) by (by rewrite <- !app_assoc).
      by apply forallb_slash_false. }
    rewrite Hall. cbn [negb]. unfold rstrip_chars.
    rewrite rstrip_by_snoc by done.
    assert (Hkeep : rstrip_by (fun c => mem_char c (lit "/"))
                      (sl ++ join (lit "/") init) = sl ++ join (lit "/") init).
    { rewrite Hj, app_assoc. apply rstrip_by_keep. by apply mem_slash_false. }
    rewrite Hkeep.
    assert (Hstart : startswith (lit "/") (sl ++ join (lit "/") init) = true).
    { subst sl. by destruct Hk as [-> | ->]. }
    rewrite Hstart. cbn [negb].
    rewrite bool_decide_eq_false_2.
    2: { rewrite Hj. subst sl. intros Heq.
         apply (f_equal (@length ascii)) in Heq.
         rewrite !length_app in Heq.
         destruct Hk as [-> | ->]; cbn [length concat replicate app lit
           list_ascii_of_string] in Heq; lia. }
    cbn [negb]. unfold normal_path. by rewrite <- !app_assoc.
Qed.

(** What [derive_parent_url] returns, for a URL that parses. *)
Lemma derive_parent_url_eq (url : str) (p : ParseResult) :
  urlparse url = Ok p →
  utils.derive_parent_url url
  = Ok (urlunparse (lower (scheme p)) (lower (netloc p))
                   (parent_path (utils._normalized_path (path p))) [] [] []).
Proof.
  intros Hp. unfold utils.derive_parent_url, parent_path.
  rewrite Hp, bind_Ok. cbv zeta.
  pose proof (_normalized_path_slash (path p)) as Hs.
  assert (Hne : nonempty (utils._normalized_path (path p)) = true).
  { by destruct (utils._normalized_path (path p)). }
  rewrite Hne.
  set (pp0 := if negb (startswith (lit "/") _) then _ else _).
  set (pp := if negb (bool_decide (pp0 = lit "/")) then _ else _).
  assert (Hpp : nonempty pp = true).
  { subst pp. destruct (negb (bool_decide (pp0 = lit "/"))) eqn:E.
    - apply nonempty_true. intros H. by apply app_eq_nil in H as [_ ?].
    - apply negb_false_iff, bool_decide_eq_true in E. by rewrite E. }
  by rewrite Hpp.
Qed.

Lemma parent_path_elem (c : str) (x : ascii) :
  x ∈ parent_path c → x = "/"%char ∨ x ∈ c.
Proof.
  unfold parent_path. cbv zeta.
  set (d := posixpath.dirname (rstrip_chars (lit "/") c)).
  assert (Hd : ∀ y, y ∈ d → y ∈ c).
  { intros y Hy. subst d. apply dirname_elem in Hy.
    unfold rstrip_chars in Hy. by apply rstrip_by_elem in Hy. }
  set (pp0 := if negb (startswith (lit "/") d) then lit "/" ++ d else d).
  assert (H0 : ∀ y, y ∈ pp0 → y = "/"%char ∨ y ∈ c).
  { intros y Hy. subst pp0.
    destruct (negb (startswith (lit "/") d)); [|right; by apply Hd].
    apply elem_of_app in Hy as [Hy | Hy]; [|right; by apply Hd].
    left. by apply list_elem_of_singleton in Hy. }
  destruct (negb (bool_decide (pp0 = lit "/"))); [|by apply H0].
  intros Hx. apply elem_of_app in Hx as [Hx | Hx]; [by apply H0|].
  left. by apply list_elem_of_singleton in Hx.
Qed.

Lemma parent_path_slash (c : str) :
  startswith (lit "/") (parent_path c) = true.
Proof.
  unfold parent_path. cbv zeta.
  generalize (posixpath.dirname (rstrip_chars (lit "/") c)). intros d.
  destruct (startswith (lit "/") d) eqn:Hs; cbn [negb].
  - apply startswith_true in Hs as [r ->].
    by destruct (negb (bool_decide (lit "/" ++ r = lit "/"))).
  - by destruct (negb (bool_decide (lit "/" ++ d = lit "/"))).
Qed.

Lemma last_segment_slash (x : str) : last_segment (x ++ lit "/") = [].
Proof.
  unfold last_segment. change (x ++ lit "/") with (x ++ "/"%char :: []).
  rewrite split_app. by rewrite last_app_nonempty.
Qed.

(** A URL put together from a scheme, a network location and a directory
    path parses into these again. *)
Lemma urlparse_directory (sch nl dir : str) :
  valid_scheme sch → nl ≠ [] → clean nl → no_delims nl →
  unbalanced_brackets nl = false →
  startswith (lit "/") (dir ++ lit "/") = true → clean dir →
  "?"%char ∉ dir → "#"%char ∉ dir →
  urlparse (urlunparse sch nl (dir ++ lit "/") [] [] [])
  = Ok (mkParse sch nl (dir ++ lit "/") [] [] []).
Proof.
  intros Hv Hnl Hc Hd Hb Hs Hdc Hq Hh.
  assert (Hsplit : urlsplit (urlunparse sch nl (dir ++ lit "/") [] [] []) []
                   = Ok (mkParse sch nl (dir ++ lit "/") [] [] [])).
  { apply urlsplit_urlunparse; try done.
    - apply clean_app. split; [done|by apply clean_lit_check].
    - rewrite elem_of_app. intros [H | H]; [done|].
      by apply list_elem_of_singleton in H.
    - rewrite elem_of_app. intros [H | H]; [done|].
      by apply list_elem_of_singleton in H.
    - intros c Hin. by apply not_elem_of_nil in Hin.
    - apply not_elem_of_nil. }
  unfold urlparse, urlparse_with. rewrite Hsplit, bind_Ok.
  cbn [scheme path]. destruct (_ && _); [|done].
  rewrite _splitparams_none; [done| |].
  - apply elem_of_app. right. apply list_elem_of_here.
  - rewrite last_segment_slash. apply not_elem_of_nil.
Qed.

(** A URL lies in the subtree of its own parent directory. *)
Lemma parent_contains (v parent : str) (p : ParseResult) :
  urlparse v = Ok p → scheme p ≠ [] → netloc p ≠ [] →
  utils.derive_parent_url v = Ok parent →
  utils.is_within_scope v parent = Ok true.
Proof.
  intros Hp Hsne Hnl Hd. rewrite (derive_parent_url_eq v p Hp) in Hd.
  injection Hd as <-.
  pose proof (urlparse_wf _ _ Hp) as Hwf.
  destruct (parsed_wf_lower p Hwf Hsne) as (Hv & Hc & Hnd & Hb).
  destruct Hwf as (_ & _ & _ & _ & Hpc & Hpq & Hph & _).
  destruct (_normalized_path_normal (path p))
    as [(k & comps & t & Hnp & Hk & Hcs & Ht) Hchars].
  set (c := utils._normalized_path (path p)) in *.
  assert (Hel : ∀ x, x ∈ parent_path c → x = "/"%char ∨ x ∈ path p).
  { intros x Hx. apply parent_path_elem in Hx as [-> | Hx]; [by left|].
    by apply Hchars. }
  (* the parent path is a directory path *)
  assert (Hdir : ∃ dir, parent_path c = dir ++ lit "/"
                        ∧ (utils._normalized_path (dir ++ lit "/") = lit "/"
                           ∨ (utils._normalized_path (dir ++ lit "/")
                              = dir ++ lit "/"
                              ∧ startswith (dir ++ lit "/") c = true))).
  { rewrite Hnp.
    destruct (parent_path_normal k comps t Hk Hcs Ht)
      as [-> | [-> | (init & last & -> & Hne & ->)]].
    - exists []. split; [done|]. by left.
    - exists (lit "//"). split; [done|]. left. by vm_compute.
    - apply Forall_app in Hcs as [Hinit _].
      exists (concat (replicate k (lit "/")) ++ join (lit "/") init).
      assert (Heq : normal_path k init true
                    = (concat (replicate k (lit "/")) ++ join (lit "/") init)
                      ++ lit "/").
      { unfold normal_path. by rewrite <- app_assoc. }
      split; [done|]. right. rewrite <- Heq. split.
      + apply _normalized_path_fixed. exists k, init, true.
        repeat split; try done.
      + rewrite Heq. unfold normal_path.
        destruct (join_last init last) as (pre & -> & _ & Hpre).
        rewrite (Hpre Hne). apply startswith_true.
        eexists. rewrite <- !app_assoc. reflexivity. }
  destruct Hdir as (dir & Hpp & Hscope).
  assert (Hdirel : ∀ x, x ∈ dir → x = "/"%char ∨ x ∈ path p).
  { intros x Hx. apply Hel. rewrite Hpp. apply elem_of_app. by left. }
  rewrite Hpp.
  assert (Hparse : urlparse (urlunparse (lower (scheme p)) (lower (netloc p))
                               (dir ++ lit "/") [] [] [])
                   = Ok (mkParse (lower (scheme p)) (lower (netloc p))
                                 (dir ++ lit "/") [] [] [])).
  { apply urlparse_directory; try done.
    - by apply lower_nonempty.
    - rewrite <- Hpp. apply parent_path_slash.
    - intros x Hx. destruct (Hdirel _ Hx) as [-> | H]; [done|by apply Hpc].
    - intros Hx. by destruct (Hdirel _ Hx).
    - intros Hx. by destruct (Hdirel _ Hx). }
  unfold utils.is_within_scope.
  assert (Hpne : nonempty (urlunparse (lower (scheme p)) (lower (netloc p))
                             (dir ++ lit "/") [] [] []) = true).
  { rewrite urlunparse_netloc; [| |by apply lower_nonempty|].
    - by destruct (lower (scheme p)).
    - by apply valid_scheme_nonempty.
    - rewrite <- Hpp. apply parent_path_slash. }
  rewrite Hpne. cbn [negb]. rewrite Hp, bind_Ok, Hparse, bind_Ok.
  cbn [scheme netloc path].
  rewrite (proj2 (nonempty_true _) Hsne), (proj2 (nonempty_true _) Hnl).
  cbn [negb orb]. rewrite !lower_idem.
  rewrite !bool_decide_eq_true_2 by done. cbn [negb].
  fold c. destruct Hscope as [-> | [-> Hstart]]; [done|].
  case_bool_decide; [done|].
  assert (Hend : endswith (lit "/") (dir ++ lit "/") = true)
    by (by apply endswith_slash_app).
  by rewrite Hend, Hstart.
Qed.

(** *** What the queue accepts *)

Lemma urlsplit_rest_scheme (sch rest : str) (r : ParseResult) :
  urlsplit_rest sch rest = Ok r → scheme r = sch.
Proof.
  unfold urlsplit_rest.
  destruct (if startswith (lit "//") rest then _ else _) as [nl u].
  destruct (unbalanced_brackets nl); [done|].
  destruct (match cut "#" u with Some p0 => p0 | None => _ end) as [u3 fr].
  destruct (match cut "?" u3 with Some p0 => p0 | None => _ end) as [pt q].
  by intros [= <-].
Qed.

Lemma urlparse_scheme (sch rest : str) (p : ParseResult) :
  valid_scheme sch → clean rest →
  urlparse (sch ++ ":"%char :: rest) = Ok p → scheme p = sch.
Proof.
  intros Hv Hc. unfold urlparse, urlparse_with.
  rewrite urlsplit_scheme by done. intros H.
  apply bind_Ok_inv in H as (r & Hr & H).
  apply urlsplit_rest_scheme in Hr.
  destruct (_ && _); [|by injection H as <-].
  destruct (_splitparams (path r)) as [u par]. by injection H as <-.
Qed.

(** What [normalize_url] returns starts with its scheme and is free of
    the characters that parsing removes. *)
Lemma normalize_parsed_scheme (parsed : ParseResult) (v : str) :
  parsed_wf parsed → utils.normalize_parsed parsed = Some v →
  ∃ sch rest, v = sch ++ ":"%char :: rest ∧ valid_scheme sch ∧ clean rest.
Proof.
  intros (_ & Hnc & _ & _ & Hpc & _ & _ & Hqc & _).
  unfold utils.normalize_parsed.
  destruct (bool_decide _) eqn:Hs; [|done]. intros [= <-].
  apply bool_decide_eq_true in Hs.
  set (sch := lower (scheme parsed)) in *.
  assert (Hv : valid_scheme sch ∧ nonempty sch = true).
  { apply elem_of_cons in Hs as [-> | Hs];
      [|apply list_elem_of_singleton in Hs as ->]; by vm_compute. }
  destruct Hv as [Hv Hne].
  assert (Hclean : clean (urlunparse sch (lower (netloc parsed))
                            (utils._normalized_path (path parsed)) []
                            (query parsed) [])).
  { intros x Hx.
    apply urlunparse_elem in Hx as [Hx | [Hx | [Hx | [Hx | Hx]]]].
    - by apply (proj1 (proj2 (proj2 (valid_scheme_chars sch Hv)))).
    - by apply (clean_lower _ Hnc).
    - destruct (proj2 (_normalized_path_normal (path parsed)) _ Hx)
        as [-> | H]; [done|by apply Hpc].
    - by apply Hqc.
    - apply mem_char_true in Hx. revert Hx. clear. all_chars x. }
  unfold urlunparse, urlunsplit in *. cbn [nonempty] in *.
  rewrite Hne in *. cbn [andb] in *.
  set (body := if nonempty (lower (netloc parsed)) || _ then _ else _) in *.
  exists sch. destruct (nonempty (query parsed)).
  - exists (body ++ lit "?" ++ query parsed).
    split; [by rewrite <- !app_assoc|]. split; [done|].
    intros x Hx. apply Hclean. rewrite <- !app_assoc.
    apply elem_of_app. right. by apply list_elem_of_further.
  - exists body. split; [done|]. split; [done|].
    intros x Hx. apply Hclean.
    apply elem_of_app. right. by apply list_elem_of_further.
Qed.

(** X24. With the parent constraint on and a parent URL given, [add]
    accepts only direct children of the parent directory: the parent
    directory URL of the accepted URL is the parent URL itself. The URL is
    appended to the pending queue in normalized form, and, when it has a
    network location, lies in the subtree of the parent URL as
    [is_within_scope] defines it. *)
Theorem add_accepts_children (url : str) (base_url : option str)
    (q q' : crawl_queue.CrawlQueue) :
  crawl_queue._respect_parent q = true →
  crawl_queue._parent_url q ≠ [] →
  crawl_queue.add url base_url q = (Ok true, q') →
  ∃ v p,
    utils.normalize_url url base_url = Ok (Some v)
    ∧ crawl_queue._pending q' = crawl_queue._pending q ++ [v]
    ∧ urlparse v = Ok p
    ∧ utils.derive_parent_url v = Ok (crawl_queue._parent_url q)
    ∧ (netloc p ≠ [] →
       utils.is_within_scope v (crawl_queue._parent_url q) = Ok true).
Proof.
  intros Hrespect Hparent. unfold crawl_queue.add.
  destruct (utils.normalize_url url base_url) as [[v|]|e] eqn:Hn; try done.
  destruct (negb (nonempty v)); [done|]. rewrite Hrespect.
  unfold utils.shares_same_parent.
  rewrite (proj2 (nonempty_true _) Hparent). cbn [negb].
  destruct (utils.derive_parent_url v) as [parent|e] eqn:Hd;
    [rewrite bind_Ok|by rewrite bind_Raise].
  case_bool_decide as Heq; [|done]. subst parent.
  destruct (_ || _); [done|]. intros [= <-]. cbn [crawl_queue._pending].
  assert (Hp : ∃ p, urlparse v = Ok p).
  { unfold utils.derive_parent_url in Hd.
    destruct (urlparse v) as [p|e]; [by exists p|by rewrite bind_Raise in Hd]. }
  destruct Hp as [p Hp]. exists v, p.
  split; [done|]. split; [done|]. split; [done|]. split; [done|].
  intros Hnl. apply (parent_contains v _ p); try done.
  apply normalize_url_parsed in Hn as (x & parsed & Hx & Hv).
  destruct (normalize_parsed_scheme parsed v (urlparse_wf _ _ Hx) Hv)
    as (sch & rest & -> & Hvalid & Hclean).
  rewrite (urlparse_scheme sch rest p Hvalid Hclean Hp).
  by apply valid_scheme_nonempty.
Qed.

(** A link to a page next to the seed is accepted; a page one level
    further down has another parent and is not. *)
Lemma add_accepts_children_witness :
  let q := crawl_queue.init (lit "https://ex.com/docs/") true in
  ∃ q',
    crawl_queue.add (lit "HTTPS://Ex.com/docs/./guide#top") None q
    = (Ok true, q')
    ∧ crawl_queue._pending q' = [lit "https://ex.com/docs/guide"]
    ∧ utils.is_within_scope (lit "https://ex.com/docs/guide")
        (lit "https://ex.com/docs/") = Ok true
    ∧ (crawl_queue.add (lit "https://ex.com/docs/guide/intro") None q).1
      = Ok false.
Proof.
  intros q.
  destruct (crawl_queue.add (lit "HTTPS://Ex.com/docs/./guide#top") None q)
    as [[[]|e] q'] eqn:E; try by vm_compute in E.
  destruct (add_accepts_children _ _ q q' eq_refl ltac:(discriminate) E)
    as (v & p & Hn & Hpend & Hp & Hd & Hscope).
  assert (Hv : v = lit "https://ex.com/docs/guide").
  { vm_compute in Hn. by injection Hn as <-. }
  subst v. exists q'. split; [done|]. split; [exact Hpend|].
  split; [|vm_compute; reflexivity].
  apply Hscope. vm_compute in Hp. injection Hp as <-. discriminate.
Defined.

(** C1. A page two levels below the scope root: [is_within_scope], the
    test of the subtree, holds of it, and [add] refuses it all the same,
    because the parent of the page is not the root itself. The queue is
    left as it was. *)
Example add_rejects_nested :
  let root := lit "https://ex.com/docs/" in
  let u := lit "https://ex.com/docs/a/b" in
  let q := crawl_queue.init root true in
  utils.is_within_scope u root = Ok true
  ∧ utils.derive_parent_url u = Ok (lit "https://ex.com/docs/a/")
  ∧ crawl_queue.add u None q = (Ok false, q).
Proof.
  intros root u q. repeat split; vm_compute; reflexivity.
Qed.

End parent_facts.
(** ** The order of capture does not matter *)

Module merge_order_facts.
Import pystr tab_traversal tab_traversal_facts spec.

Lemma sorted_perm (blocks : list TabMarkdownBlock) : sorted blocks ≡ₚ blocks.
Proof.
  induction blocks as [|b l IH]; [done|].
  change (sorted (b :: l)) with (insert_block b (sorted l)).
  rewrite insert_block_perm. by constructor.
Qed.

Lemma sorted_sorted (blocks : list TabMarkdownBlock) :
  StronglySorted (fun a b => key_le a b = true) (sorted blocks).
Proof.
  induction blocks as [|b l IH]; [constructor|].
  change (sorted (b :: l)) with (insert_block b (sorted l)).
  by apply insert_block_sorted.
Qed.

(** Two sorted lists with the same elements are equal when no two distinct
    elements are equivalent for the order. *)
Lemma sorted_unique {A : Type} (R : A → A → Prop) (l1 : list A) :
  ∀ l2 : list A,
    StronglySorted R l1 → StronglySorted R l2 → l1 ≡ₚ l2 →
    (∀ a b, a ∈ l1 → b ∈ l1 → R a b → R b a → a = b) →
    l1 = l2.
Proof.
  induction l1 as [|a t1 IH]; intros l2 H1 H2 Hperm Hanti.
  { by apply Permutation_nil_l in Hperm. }
  destruct l2 as [|b t2].
  { by apply Permutation_nil_r in Hperm. }
  apply StronglySorted_inv in H1 as [H1 Ha].
  apply StronglySorted_inv in H2 as [H2 Hb].
  rewrite Forall_forall in Ha. rewrite Forall_forall in Hb.
  assert (Hina : a ∈ b :: t2).
  { rewrite <- Hperm. apply list_elem_of_here. }
  assert (Hinb : b ∈ a :: t1).
  { rewrite Hperm. apply list_elem_of_here. }
  assert (Hab : a = b).
  { apply elem_of_cons in Hina as [Heq|Hina]; [done|].
    pose proof Hinb as Hinb'.
    apply elem_of_cons in Hinb as [Heq|Hinb]; [done|].
    apply Hanti; [apply list_elem_of_here|done| |].
    - by apply Ha.
    - by apply Hb. }
  subst b. f_equal. apply IH; try done.
  - by apply Permutation_cons_inv in Hperm.
  - intros x y Hx Hy. apply Hanti; by apply list_elem_of_further.
Qed.

Lemma key_le_antisym (a b : TabMarkdownBlock) :
  key_le a b = true → key_le b a = true →
  (group_index a, index a) = (group_index b, index b).
Proof.
  unfold key_le. rewrite !orb_true_iff, !andb_true_iff, !Z.ltb_lt,
    !Z.eqb_eq, !Z.leb_le. intros H1 H2. f_equal; lia.
Qed.

Lemma NoDup_fmap_inj {A B : Type} (f : A → B) (l : list A) (a b : A) :
  NoDup (f <$> l) → a ∈ l → b ∈ l → f a = f b → a = b.
Proof.
  induction l as [|x l IH]; intros Hnd Ha Hb Hf.
  { by apply not_elem_of_nil in Ha. }
  rewrite fmap_cons in Hnd. apply NoDup_cons in Hnd as [Hx Hnd].
  apply elem_of_cons in Ha as [->|Ha]; apply elem_of_cons in Hb as [->|Hb].
  - done.
  - destruct Hx. rewrite Hf. apply list_elem_of_fmap. by exists b.
  - destruct Hx. rewrite <- Hf. apply list_elem_of_fmap. by exists a.
  - by apply IH.
Qed.

Lemma sorted_order_free (blocks blocks' : list TabMarkdownBlock) :
  blocks ≡ₚ blocks' →
  NoDup ((fun b => (group_index b, index b)) <$> blocks) →
  sorted blocks = sorted blocks'.
Proof.
  intros Hperm Hnd.
  apply (sorted_unique (fun a b => key_le a b = true));
    [apply sorted_sorted|apply sorted_sorted| |].
  - by rewrite !sorted_perm.
  - intros a b Ha Hb Hab Hba.
    rewrite sorted_perm in Ha. rewrite sorted_perm in Hb.
    apply (NoDup_fmap_inj (fun b => (group_index b, index b)) blocks);
      try done.
    by apply key_le_antisym.
Qed.

Section Order.
Variable format : str → str → str → Z → Z → option str.
Variable heading_template : str.

(** X25. The blocks of a page may be handed to [merge_into_markdown] in any
    order: when no two blocks share the pair (group index, tab index), every
    reordering of the same blocks gives the same merged document. *)
Theorem merge_into_markdown_order_free (base_markdown : str)
    (blocks blocks' : list TabMarkdownBlock) :
  blocks ≡ₚ blocks' →
  NoDup ((fun b => (group_index b, index b)) <$> blocks) →
  merge_into_markdown format heading_template base_markdown blocks
  = merge_into_markdown format heading_template base_markdown blocks'.
Proof.
  intros Hperm Hnd. unfold merge_into_markdown, grouped.
  by rewrite (sorted_order_free blocks blocks').
Qed.

End Order.

(** The three blocks of a page with two tab groups, captured in one order
    and in another. *)
Lemma merge_into_markdown_order_free_witness :
  let tpl := lit "#### [Tab: {group} - {label}]" in
  let pip := mkBlock (lit "Install") (lit "pip") (lit "pip install x") 0 0 [] in
  let uv := mkBlock (lit "Install") (lit "uv") (lit "uv add x") 1 0 [] in
  let linux := mkBlock (lit "OS") (lit "Linux") (lit "apt") 0 1 [] in
  let base := lit "Intro" ++ newlines ++ lit "pip install x" in
  merge_into_markdown default_heading tpl base [linux; uv; pip]
  = merge_into_markdown default_heading tpl base [pip; linux; uv]
  ∧ merge_into_markdown default_heading tpl base [pip; linux; uv]
    = lit "Intro" ++ newlines ++ lit "pip install x" ++ newlines
        ++ lit "#### [Tab: Install - uv]" ++ newlines ++ lit "uv add x".
Proof.
  intros tpl pip uv linux base. split; [|vm_compute; reflexivity].
  apply merge_into_markdown_order_free.
  - change [linux; uv; pip] with ([linux; uv] ++ [pip]).
    change [pip; linux; uv] with ([pip] ++ [linux; uv]).
    apply Permutation_app_comm.
  - cbn [fmap list_fmap group_index index].
    repeat (apply NoDup_cons; split; [set_solver|]). apply NoDup_nil_2.
Defined.

End merge_order_facts.
